(** * The phantom-value median budget of [nitay_levy_matala_9.py]

    A shallow embedding of [compute_budget] and
    [no_binary_search_compute_budget].  Python's [int] is [Z], Python's
    [float] is the binary64 primitive [float] of the Standard Library, so the
    model computes bit for bit what CPython computes; an uncaught exception
    is a value of [exn] carried by the error monad [result]. *)

From Stdlib Require Import ZArith List Bool Lia Floats Permutation Sorted.
From Stdlib Require Uint63.
Import ListNotations.

#[local] Set Warnings "-inexact-float".
#[local] Open Scope Z_scope.

(** ** Exceptions *)

Inductive exn : Type :=
| IndexError
| ZeroDivisionError
| OverflowError
| ValueError.

Inductive result (A : Type) : Type :=
| Ok (a : A)
| Raise (e : exn).

Arguments Ok {A} a.
Arguments Raise {A} e.

Definition bind {A B : Type} (c : result A) (k : A -> result B) : result B :=
  match c with
  | Ok a => k a
  | Raise e => Raise e
  end.

Notation "x <- c ;; k" := (bind c (fun x => k))
  (at level 61, c at next level, right associativity).
Notation "' p <- c ;; k" := (bind c (fun x => let p := x in k))
  (at level 61, p pattern, c at next level, right associativity).

Fixpoint mapM {A B : Type} (f : A -> result B) (l : list A) : result (list B) :=
  match l with
  | [] => Ok []
  | a :: l' => b <- f a ;; bs <- mapM f l' ;; Ok (b :: bs)
  end.

(** ** Python numbers

    The values that flow through the program are Python [int]s (the votes,
    the budget, the breakpoints) and Python [float]s (1e-8, the medians, the
    totals).  Lists handed to [sorted] mix both. *)

Module Py.

Inductive num : Type :=
| PInt (z : Z)
| PFloat (f : float).

(** [float(z)]: the nearest double, ties to even; [OverflowError] when the
    integer is beyond the largest double. *)
Definition float_of_int (z : Z) : result float :=
  match binary_normalize prec emax z 0 false with
  | S754_infinity _ => Raise OverflowError
  | sf => Ok (SF2Prim sf)
  end.

Definition to_float (a : num) : result float :=
  match a with
  | PInt z => float_of_int z
  | PFloat f => Ok f
  end.

(** Comparison of an [int] with a [float] is exact in Python: no conversion
    of the integer takes place.  [None] is the unordered case (NaN). *)
Definition compare_int_float (z : Z) (f : float) : option comparison :=
  match Prim2SF f with
  | S754_nan => None
  | S754_infinity s => Some (if s then Gt else Lt)
  | S754_zero _ => Some (z ?= 0)
  | S754_finite s m e =>
      let v := cond_Zopp s (Zpos m) in
      Some (if 0 <=? e then z ?= v * 2 ^ e else z * 2 ^ (- e) ?= v)
  end.

Definition compare_float (f g : float) : option comparison :=
  match (f ?= g)%float with
  | FEq => Some Eq
  | FLt => Some Lt
  | FGt => Some Gt
  | FNotComparable => None
  end.

Definition compare (a b : num) : option comparison :=
  match a, b with
  | PInt x, PInt y => Some (x ?= y)
  | PInt x, PFloat g => compare_int_float x g
  | PFloat f, PInt y => option_map CompOpp (compare_int_float y f)
  | PFloat f, PFloat g => compare_float f g
  end.

(** [a < b], [a <= b], [a > b], [a == b] *)
Definition lt (a b : num) : bool :=
  match compare a b with Some Lt => true | _ => false end.
Definition le (a b : num) : bool :=
  match compare a b with Some Lt | Some Eq => true | _ => false end.
Definition gt (a b : num) : bool := lt b a.
Definition eq (a b : num) : bool :=
  match compare a b with Some Eq => true | _ => false end.

(** [a + b] and [a - b]: exact on two [int]s, otherwise both operands become
    floats first. *)
Definition add (a b : num) : result num :=
  match a, b with
  | PInt x, PInt y => Ok (PInt (x + y))
  | _, _ => f <- to_float a ;; g <- to_float b ;; Ok (PFloat (f + g)%float)
  end.

Definition sub (a b : num) : result num :=
  match a, b with
  | PInt x, PInt y => Ok (PInt (x - y))
  | _, _ => f <- to_float a ;; g <- to_float b ;; Ok (PFloat (f - g)%float)
  end.

(** [a / b], true division.  Two [int]s give the exact quotient rounded
    once; otherwise both operands become floats first. *)
Definition int_truediv (x y : Z) : result float :=
  match x, y with
  | _, Z0 => Raise ZeroDivisionError
  | Z0, _ => Ok (if y <? 0 then neg_zero else zero)
  | _, _ =>
      match SFdiv prec emax (S754_finite (x <? 0) (Z.to_pos (Z.abs x)) 0)
                            (S754_finite (y <? 0) (Z.to_pos (Z.abs y)) 0) with
      | S754_infinity _ => Raise OverflowError
      | sf => Ok (SF2Prim sf)
      end
  end.

Definition truediv (a b : num) : result float :=
  match a, b with
  | PInt x, PInt y => int_truediv x y
  | _, _ =>
      f <- to_float a ;; g <- to_float b ;;
      if (g =? 0)%float then Raise ZeroDivisionError else Ok (f / g)%float
  end.

(** [i % n] on non-negative [int]s. *)
Definition mod_nat (i n : nat) : result nat :=
  match n with
  | O => Raise ZeroDivisionError
  | _ => Ok (Nat.modulo i n)
  end.

(** [math.floor(f)]: an [int]; infinities and NaN raise. *)
Definition floor (f : float) : result Z :=
  match Prim2SF f with
  | S754_nan => Raise ValueError
  | S754_infinity _ => Raise OverflowError
  | S754_zero _ => Ok 0
  | S754_finite s m e =>
      let v := cond_Zopp s (Zpos m) in
      Ok (if 0 <=? e then v * 2 ^ e else v / 2 ^ (- e))
  end.

(** Round half to even of the quotient [n / d], [d > 0]. *)
Definition div_half_even (n d : Z) : Z :=
  let q := n / d in
  let r := n mod d in
  match 2 * r ?= d with
  | Lt => q
  | Gt => q + 1
  | Eq => if Z.even q then q else q + 1
  end.

(** [round(f, ndigits)] for [0 <= ndigits]: CPython prints [f] with
    [ndigits] decimals, correctly rounded (half to even on the exact binary
    value), and reads the decimal string back as the nearest double. *)
Definition round_ndigits (f : float) (ndigits : Z) : result float :=
  match Prim2SF f with
  | S754_finite s m e =>
      let p := 10 ^ ndigits in
      let q := if 0 <=? e then Zpos m * 2 ^ e * p
               else div_half_even (Zpos m * p) (2 ^ (- e)) in
      match q with
      | Zpos q' =>
          match SFdiv prec emax (S754_finite s q' 0)
                                (S754_finite false (Z.to_pos p) 0) with
          | S754_infinity _ => Raise OverflowError
          | sf => Ok (SF2Prim sf)
          end
      | _ => Ok (if s then neg_zero else zero)
      end
  | _ => Ok f
  end.

End Py.

Import Py.

(** ** Lists *)

(** [l[i]] for [0 <= i]. *)
Definition index {A : Type} (l : list A) (i : nat) : result A :=
  match nth_error l i with
  | Some a => Ok a
  | None => Raise IndexError
  end.

(** [l[j] += 1] *)
Fixpoint incr_at (l : list Z) (j : nat) : result (list Z) :=
  match l, j with
  | [], _ => Raise IndexError
  | a :: l', O => Ok (a + 1 :: l')
  | a :: l', S j' => r <- incr_at l' j' ;; Ok (a :: r)
  end.

Definition sum (l : list Z) : Z := fold_left Z.add l 0.

(** [sorted(l)]: a stable sort that only asks [x < y].  Each element, taken
    from left to right, goes in front of the first element it is smaller
    than, which is what the binary insertion of [list.sort] does on short
    lists and what its merges preserve on long ones. *)
Section Sorted.
Context {A : Type} (lt : A -> A -> bool).

Fixpoint insort (x : A) (l : list A) : list A :=
  match l with
  | [] => [x]
  | y :: l' => if lt x y then x :: y :: l' else y :: insort x l'
  end.

Definition sorted (l : list A) : list A :=
  fold_left (fun acc x => insort x acc) l [].
End Sorted.

(** The sort key of both apportionments is a pair of a float and an int;
    tuples compare on the first component that differs. *)
Definition key : Type := (float * Z)%type.

Definition key_lt (k1 k2 : key) : bool :=
  let '(f1, n1) := k1 in
  let '(f2, n2) := k2 in
  if (f1 =? f2)%float then n1 <? n2 else (f1 <? f2)%float.

(** [sorted(range(n), key=..., reverse=True)], the keys being computed
    beforehand, one per index: descending keys, equal keys in the original
    order. *)
Definition sorted_by_key_reverse (keys : list key) : list nat :=
  map fst
    (sorted (fun a b : nat * key => key_lt (snd b) (snd a))
            (combine (seq 0 (length keys)) keys)).

(** ** The program *)

Definition eps : float := 1e-8.

(** [[citizen[i] for citizen in citizen_votes]] *)
Definition column (citizen_votes : list (list Z)) (i : nat) : result (list Z) :=
  mapM (fun citizen => index citizen i) citizen_votes.

(** [votes_per_subject] *)
Definition votes_per_subject_of (citizen_votes : list (list Z)) (num_subjects : nat)
  : result (list (list Z)) :=
  mapM (fun i => c <- column citizen_votes i ;; Ok (sorted Z.ltb c))
       (seq 0 num_subjects).

(** [sorted_breaks]: the set [{0}] updated with every vote, sorted. *)
Definition sorted_breaks_of (votes_per_subject : list (list Z)) : list Z :=
  sorted Z.ltb (nodup Z.eq_dec (0 :: concat votes_per_subject)).

(** The closure [get_subject_allocation] is the same in both functions. *)
Definition get_subject_allocation (votes : list Z) (x : num) : result float :=
  let arr := sorted Py.lt (map PInt votes ++ [PInt 0; x]) in
  let n := length arr in
  if Nat.eqb (Nat.modulo n 2) 1 then
    a <- index arr (Nat.div n 2) ;;
    to_float a
  else
    a <- index arr (Nat.div n 2 - 1) ;;
    b <- index arr (Nat.div n 2) ;;
    s <- Py.add a b ;;
    truediv s (PFloat 2).

(** The extra units: [for i in range(int(round(remainder))): ints[pick(i)] += 1],
    where [pick] is [indices[i]] in [compute_budget] and
    [indices[i % num_subjects]] in [no_binary_search_compute_budget]. *)
Fixpoint distribute (pick : nat -> result nat) (ints : list Z) (i count : nat)
  : result (list Z) :=
  match count with
  | O => Ok ints
  | S count' =>
      j <- pick i ;;
      ints' <- incr_at ints j ;;
      distribute pick ints' (S i) count'
  end.

(** [[int(math.floor(f + 1e-11)) for f in floats]] *)
Definition floors (floats : list float) : result (list Z) :=
  mapM (fun f => Py.floor (f + 1e-11)%float) floats.


(** [floats[i] - ints[i]], the fractional remainder of subject [i]. *)
Definition frac (floats : list float) (ints : list Z) (i : nat) : result float :=
  f <- index floats i ;;
  n <- index ints i ;;
  d <- Py.sub (PFloat f) (PInt n) ;;
  to_float d.

Module ComputeBudget.

Section Closures.
Variable total_budget : Z.
Variable votes_per_subject : list (list Z).

(** The loop of [get_total_and_slope]; [slope] starts as the int [0] and
    becomes a float with the first subject whose median moves. *)
Fixpoint total_and_slope_loop (x : num) (vps : list (list Z))
         (total : float) (slope : num) : result (float * num) :=
  match vps with
  | [] => Ok (total, slope)
  | votes :: vps' =>
      v_now <- get_subject_allocation votes x ;;
      x_eps <- Py.add x (PFloat eps) ;;
      v_next <- get_subject_allocation votes x_eps ;;
      let total := (total + v_now)%float in
      slope <- (if (v_now <? v_next)%float
                then d <- truediv (PFloat (v_next - v_now)%float) (PFloat eps) ;;
                     Py.add slope (PFloat d)
                else Ok slope) ;;
      total_and_slope_loop x vps' total slope
  end.

Definition get_total_and_slope (x : num) : result (float * num) :=
  total_and_slope_loop x votes_per_subject 0%float (PInt 0).

(** [x_low + (total_budget - sum_low) / slope_low] when the slope
    exceeds 1e-9, [x_low] otherwise. *)
Definition interpolate (x_low : Z) (sum_low : float) (slope_low : num)
  : result num :=
  if Py.gt slope_low (PFloat 1e-9) then
    d <- Py.sub (PInt total_budget) (PFloat sum_low) ;;
    q <- truediv d slope_low ;;
    Py.add (PInt x_low) (PFloat q)
  else Ok (PInt x_low).

(** The [for ... else] over consecutive breakpoints: [breaks] is the
    part of [sorted_breaks] from index [i] on. *)
Fixpoint scan (breaks : list Z) : result num :=
  match breaks with
  | [] => Raise IndexError
  | [x_last] =>
      '(sum_last, slope_last) <- get_total_and_slope (PInt x_last) ;;
      interpolate x_last sum_last slope_last
  | x_low :: ((x_high :: _) as rest) =>
      '(sum_low, slope_low) <- get_total_and_slope (PInt x_low) ;;
      '(sum_high, _) <- get_total_and_slope (PInt x_high) ;;
      if Py.le (PFloat sum_low) (PInt total_budget)
         && Py.le (PInt total_budget) (PFloat (sum_high + 1e-9)%float)
      then interpolate x_low sum_low slope_low
      else scan rest
  end.

Definition target_x : result num :=
  scan (sorted_breaks_of votes_per_subject).
End Closures.

(** [(floats[i] - ints[i], -i)] *)
Definition sort_key (floats : list float) (ints : list Z) (i : nat) : result key :=
  fr <- frac floats ints i ;;
  Ok (fr, - Z.of_nat i).

(** Lines 74-85: floors, then the largest remainders. *)
Definition largest_remainder (total_budget : Z) (num_subjects : nat)
           (floats : list float) : result (list Z) :=
  ints <- floors floats ;;
  let remainder := total_budget - sum ints in
  if 0 <? remainder then
    keys <- mapM (sort_key floats ints) (seq 0 num_subjects) ;;
    let indices := sorted_by_key_reverse keys in
    distribute (fun i => index indices i) ints 0 (Z.to_nat remainder)
  else Ok ints.

(** Lines up to [floats = ...]: the continuous allocations at the
    phantom value. *)
Definition floats_of (total_budget : Z) (citizen_votes : list (list Z))
           (num_subjects : nat) : result (list float) :=
  votes_per_subject <- votes_per_subject_of citizen_votes num_subjects ;;
  x <- target_x total_budget votes_per_subject ;;
  mapM (fun v => get_subject_allocation v x) votes_per_subject.

Definition compute_budget (total_budget : Z) (citizen_votes : list (list Z))
  : result (list Z) :=
  match citizen_votes with
  | [] => Ok []
  | first :: _ =>
      let num_subjects := length first in
      floats <- floats_of total_budget citizen_votes num_subjects ;;
      largest_remainder total_budget num_subjects floats
  end.

End ComputeBudget.

Module NoBinarySearch.

Section Closures.
Variable total_budget : Z.
Variable votes_per_subject : list (list Z).

(** Here [slope] starts as [0.0] and every subject adds its difference
    quotient, moved or not. *)
Fixpoint total_and_slope_loop (x : num) (vps : list (list Z))
         (total : float) (slope : float) : result (float * float) :=
  match vps with
  | [] => Ok (total, slope)
  | votes :: vps' =>
      v_now <- get_subject_allocation votes x ;;
      x_eps <- Py.add x (PFloat eps) ;;
      v_next <- get_subject_allocation votes x_eps ;;
      let total := (total + v_now)%float in
      d <- truediv (PFloat (v_next - v_now)%float) (PFloat eps) ;;
      total_and_slope_loop x vps' total (slope + d)%float
  end.

Definition get_total_and_slope (x : num) : result (float * float) :=
  total_and_slope_loop x votes_per_subject 0%float 0%float.

Definition interpolate (x_low : Z) (sum_low : float) (slope_low : float)
  : result num :=
  if Py.gt (PFloat slope_low) (PFloat 1e-9) then
    d <- Py.sub (PInt total_budget) (PFloat sum_low) ;;
    q <- truediv d (PFloat slope_low) ;;
    Py.add (PInt x_low) (PFloat q)
  else Ok (PInt x_low).

Fixpoint scan (breaks : list Z) : result num :=
  match breaks with
  | [] => Raise IndexError
  | [x_last] =>
      '(sum_last, slope_last) <- get_total_and_slope (PInt x_last) ;;
      interpolate x_last sum_last slope_last
  | x_low :: ((x_high :: _) as rest) =>
      '(sum_low, slope_low) <- get_total_and_slope (PInt x_low) ;;
      '(sum_high, _) <- get_total_and_slope (PInt x_high) ;;
      if Py.le (PFloat sum_low) (PInt total_budget)
         && Py.le (PInt total_budget) (PFloat (sum_high + 1e-9)%float)
      then interpolate x_low sum_low slope_low
      else scan rest
  end.

Definition target_x : result num :=
  scan (sorted_breaks_of votes_per_subject).
End Closures.

(** [(round(floats[i] - ints[i], 10), -i)] *)
Definition sort_key (floats : list float) (ints : list Z) (i : nat) : result key :=
  fr <- frac floats ints i ;;
  r <- round_ndigits fr 10 ;;
  Ok (r, - Z.of_nat i).

Definition largest_remainder (total_budget : Z) (num_subjects : nat)
           (floats : list float) : result (list Z) :=
  ints <- floors floats ;;
  let remainder := total_budget - sum ints in
  if 0 <? remainder then
    keys <- mapM (sort_key floats ints) (seq 0 num_subjects) ;;
    let indices := sorted_by_key_reverse keys in
    distribute (fun i => j <- mod_nat i num_subjects ;; index indices j)
               ints 0 (Z.to_nat remainder)
  else Ok ints.

(** Lines up to [floats = ...]: the continuous allocations at the
    phantom value. *)
Definition floats_of (total_budget : Z) (citizen_votes : list (list Z))
           (num_subjects : nat) : result (list float) :=
  votes_per_subject <- votes_per_subject_of citizen_votes num_subjects ;;
  x <- target_x total_budget votes_per_subject ;;
  mapM (fun v => get_subject_allocation v x) votes_per_subject.

Definition no_binary_search_compute_budget (total_budget : Z) (citizen_votes : list (list Z))
  : result (list Z) :=
  match citizen_votes with
  | [] => Ok []
  | first :: _ =>
      let num_subjects := length first in
      floats <- floats_of total_budget citizen_votes num_subjects ;;
      largest_remainder total_budget num_subjects floats
  end.

End NoBinarySearch.

Import ComputeBudget NoBinarySearch.

(** * Properties *)

(** ** Binary64 facts *)

Module SF.

(** A spec float that is not NaN and not negative (zeros of both signs
    count as zero). *)
Definition nonneg (x : spec_float) : Prop :=
  match x with
  | S754_zero _ => True
  | S754_infinity s => s = false
  | S754_finite s _ _ => s = false
  | S754_nan => False
  end.

Definition not_nan (x : spec_float) : Prop :=
  match x with S754_nan => False | _ => True end.

(** The result of a rounding has the sign it was given. *)
Definition signed (sx : bool) (x : spec_float) : Prop :=
  match x with
  | S754_zero s | S754_infinity s | S754_finite s _ _ => s = sx
  | S754_nan => False
  end.

Lemma shr_1_nonneg (mrs : shr_record) : 0 <= shr_m mrs -> 0 <= shr_m (shr_1 mrs).
Proof.
  destruct mrs as [m r s]. cbn.
  destruct m as [|p|p]; [cbn; lia | | lia].
  intros _. destruct p; cbn; lia.
Qed.

Lemma iter_shr_1_nonneg (p : positive) (mrs : shr_record) :
  0 <= shr_m mrs -> 0 <= shr_m (iter_pos shr_1 p mrs).
Proof.
  revert mrs. induction p as [p IH|p IH|]; intros mrs H; cbn.
  - apply IH, IH, shr_1_nonneg, H.
  - apply IH, IH, H.
  - apply shr_1_nonneg, H.
Qed.

Lemma shr_fexp_nonneg (m e : Z) (l : location) :
  0 <= m -> 0 <= shr_m (fst (shr_fexp prec emax m e l)).
Proof.
  intros Hm. unfold shr_fexp, shr.
  assert (H0 : 0 <= shr_m (shr_record_of_loc m l)).
  { destruct l as [|[ | | ]]; exact Hm. }
  destruct (fexp prec emax (Zdigits2 m + e) - e); cbn [fst]; try exact H0.
  now apply iter_shr_1_nonneg.
Qed.

Lemma round_nearest_even_nonneg (m : Z) (l : location) :
  0 <= m -> 0 <= round_nearest_even m l.
Proof.
  intros Hm. destruct l as [|[ | | ]]; cbn; try lia.
  destruct (Z.even m); lia.
Qed.

Lemma binary_round_aux_signed (sx : bool) (mx ex : Z) (lx : location) :
  0 <= mx -> signed sx (binary_round_aux prec emax sx mx ex lx).
Proof.
  intros Hm. unfold binary_round_aux.
  pose proof (shr_fexp_nonneg mx ex lx Hm) as H1.
  destruct (shr_fexp prec emax mx ex lx) as [mrs' e']. cbn [fst] in H1.
  pose proof (shr_fexp_nonneg _ e' loc_Exact
                (round_nearest_even_nonneg _ (loc_of_shr_record mrs') H1)) as H2.
  destruct (shr_fexp prec emax _ e' loc_Exact) as [mrs'' e'']. cbn [fst] in H2.
  destruct (shr_m mrs'') as [|m|m]; cbn; [reflexivity | | lia].
  destruct (e'' <=? _); reflexivity.
Qed.

Lemma binary_round_signed (sx : bool) (mx : positive) (ex : Z) :
  signed sx (binary_round prec emax sx mx ex).
Proof.
  unfold binary_round.
  destruct (shl_align mx ex _) as [mz ez].
  apply binary_round_aux_signed. lia.
Qed.

Lemma binary_normalize_nonneg (m e : Z) :
  0 <= m -> nonneg (binary_normalize prec emax m e false).
Proof.
  intros Hm. destruct m as [|p|p]; cbn; [exact I | | lia].
  pose proof (binary_round_signed false p e) as H.
  destruct (binary_round prec emax false p e); cbn in *; auto.
Qed.

Lemma binary_normalize_not_nan (m e : Z) (s : bool) :
  not_nan (binary_normalize prec emax m e s).
Proof.
  destruct m as [|p|p]; cbn; [exact I | |].
  - pose proof (binary_round_signed false p e) as H.
    destruct (binary_round prec emax false p e); cbn in *; auto.
  - pose proof (binary_round_signed true p e) as H.
    destruct (binary_round prec emax true p e); cbn in *; auto.
Qed.

Lemma signed_false_nonneg (x : spec_float) : signed false x -> nonneg x.
Proof. destruct x; cbn; auto. Qed.

Lemma nonneg_not_nan (x : spec_float) : nonneg x -> not_nan x.
Proof. destruct x; cbn; auto. Qed.

Lemma SFadd_nonneg (x y : spec_float) :
  nonneg x -> nonneg y -> nonneg (SFadd prec emax x y).
Proof.
  destruct x as [sx|sx| |sx mx ex], y as [sy|sy| |sy my ey];
    cbn -[binary_normalize shl_align];
    try tauto; try (intros; subst; cbn; tauto).
  - intros _ _. destruct sx, sy; exact I.
  - intros -> ->. cbn -[binary_normalize shl_align].
    apply binary_normalize_nonneg.
    destruct (shl_align mx ex _), (shl_align my ey _). cbn. lia.
Qed.

Lemma SFdiv_core_nonneg (m1 m2 : positive) (e1 e2 : Z) :
  0 <= fst (fst (SFdiv_core_binary prec emax (Zpos m1) e1 (Zpos m2) e2)).
Proof.
  unfold SFdiv_core_binary.
  set (s := _ - _ - _).
  set (m' := match s with Z0 => _ | Zpos _ => _ | Zneg _ => _ end).
  assert (Hm' : 0 <= m').
  { subst m'. destruct s; try lia. apply Z.shiftl_nonneg. lia. }
  pose proof (Z_div_mod m' (Zpos m2) eq_refl) as H.
  destruct (Z.div_eucl m' (Zpos m2)) as [q r]. cbn [fst].
  destruct H as [Hq Hr]. nia.
Qed.

Lemma SFdiv_signed (sx sy : bool) (mx my : positive) (ex ey : Z) :
  signed (xorb sx sy)
         (SFdiv prec emax (S754_finite sx mx ex) (S754_finite sy my ey)).
Proof.
  cbn [SFdiv].
  pose proof (SFdiv_core_nonneg mx my ex ey) as H.
  destruct (SFdiv_core_binary prec emax (Zpos mx) ex (Zpos my) ey) as [[mz ez] lz].
  cbn [fst] in H. now apply binary_round_aux_signed.
Qed.

Lemma SFsub_finite_not_nan (sx sy : bool) (mx my : positive) (ex ey : Z) :
  not_nan (SFsub prec emax (S754_finite sx mx ex) (S754_finite sy my ey)).
Proof. cbn [SFsub]. apply binary_normalize_not_nan. Qed.


(** *** The order of [SFcompare]

    [SFcompare] is the lexicographic order of a rank: class and sign first,
    then the exponent, then the mantissa. *)

Definition rank (x : spec_float) : Z * Z * Z :=
  match x with
  | S754_infinity true => (-2, 0, 0)
  | S754_finite true m e => (-1, - e, - Zpos m)
  | S754_zero _ => (0, 0, 0)
  | S754_finite false m e => (1, e, Zpos m)
  | S754_infinity false => (2, 0, 0)
  | S754_nan => (3, 0, 0)
  end.

Definition lex3 (a b : Z * Z * Z) : comparison :=
  let '(a1, a2, a3) := a in
  let '(b1, b2, b3) := b in
  match a1 ?= b1 with
  | Eq => match a2 ?= b2 with Eq => a3 ?= b3 | c => c end
  | c => c
  end.

Lemma SFcompare_rank (x y : spec_float) :
  not_nan x -> not_nan y -> SFcompare x y = Some (lex3 (rank x) (rank y)).
Proof.
  destruct x as [sx|sx| |sx mx ex], y as [sy|sy| |sy my ey]; cbn; try tauto;
    intros _ _;
    try (destruct sx; reflexivity); try (destruct sy; reflexivity);
    try (destruct sx, sy; reflexivity).
  destruct sx, sy; cbn; try reflexivity.
  rewrite Z.compare_opp, (Z.compare_antisym ex ey).
  destruct (ex ?= ey); reflexivity.
Qed.

Ltac lex3_solve :=
  unfold lex3;
  repeat match goal with
         | p : (Z * Z * Z)%type |- _ => destruct p as [[? ?] ?]
         end;
  repeat match goal with
         | |- context [?a ?= ?b] => destruct (Z.compare_spec a b)
         | H : context [?a ?= ?b] |- _ => destruct (Z.compare_spec a b)
         end;
  cbn in *; try congruence; try lia.

Lemma lex3_antisym (a b : Z * Z * Z) : lex3 b a = CompOpp (lex3 a b).
Proof. lex3_solve. Qed.

Lemma lex3_refl (a : Z * Z * Z) : lex3 a a = Eq.
Proof. lex3_solve. Qed.

Lemma lex3_le_trans (a b c : Z * Z * Z) :
  lex3 a b <> Gt -> lex3 b c <> Gt -> lex3 a c <> Gt.
Proof. lex3_solve. Qed.

Lemma lex3_eq_trans (a b c : Z * Z * Z) :
  lex3 a b = Eq -> lex3 b c = Eq -> lex3 a c = Eq.
Proof. lex3_solve. Qed.

Lemma lex3_eq_l (a b c : Z * Z * Z) : lex3 a b = Eq -> lex3 a c = lex3 b c.
Proof. lex3_solve. Qed.

Lemma lex3_eq_r (a b c : Z * Z * Z) : lex3 a b = Eq -> lex3 c a = lex3 c b.
Proof. lex3_solve. Qed.

Lemma lex3_lt_trans (a b c : Z * Z * Z) :
  lex3 a b = Lt -> lex3 b c = Lt -> lex3 a c = Lt.
Proof. lex3_solve. Qed.

End SF.

(** *** Primitive floats *)

Definition fnot_nan (f : float) : Prop := SF.not_nan (Prim2SF f).
Definition fnonneg (f : float) : Prop := SF.nonneg (Prim2SF f).
Definition frank (f : float) : Z * Z * Z := SF.rank (Prim2SF f).

Lemma fnonneg_not_nan (f : float) : fnonneg f -> fnot_nan f.
Proof. apply SF.nonneg_not_nan. Qed.

Lemma ltb_rank (f g : float) :
  fnot_nan f -> fnot_nan g ->
  (f <? g)%float = match SF.lex3 (frank f) (frank g) with Lt => true | _ => false end.
Proof.
  intros Hf Hg. rewrite ltb_spec. unfold SFltb.
  now rewrite SF.SFcompare_rank.
Qed.

Lemma eqb_rank (f g : float) :
  fnot_nan f -> fnot_nan g ->
  (f =? g)%float = match SF.lex3 (frank f) (frank g) with Eq => true | _ => false end.
Proof.
  intros Hf Hg. rewrite eqb_spec. unfold SFeqb.
  now rewrite SF.SFcompare_rank.
Qed.

Lemma leb_rank (f g : float) :
  fnot_nan f -> fnot_nan g ->
  (f <=? g)%float = match SF.lex3 (frank f) (frank g) with Gt => false | _ => true end.
Proof.
  intros Hf Hg. rewrite leb_spec. unfold SFleb.
  rewrite SF.SFcompare_rank by assumption.
  now destruct (SF.lex3 _ _).
Qed.

Lemma compare_rank (f g : float) :
  fnot_nan f -> fnot_nan g ->
  (f ?= g)%float = match SF.lex3 (frank f) (frank g) with
                   | Eq => FEq | Lt => FLt | Gt => FGt end.
Proof.
  intros Hf Hg. rewrite compare_spec.
  rewrite SF.SFcompare_rank by assumption. reflexivity.
Qed.

Lemma add_nonneg (f g : float) : fnonneg f -> fnonneg g -> fnonneg (f + g)%float.
Proof. unfold fnonneg. rewrite add_spec. apply SF.SFadd_nonneg. Qed.

Lemma SFldexp_signed (x : spec_float) (e : Z) :
  SF.not_nan x -> SF.not_nan (SFldexp prec emax x e)
  /\ (SF.nonneg x -> SF.nonneg (SFldexp prec emax x e)).
Proof.
  destruct x as [s|s| |s m ex]; cbn [SFldexp]; try tauto.
  intros _. pose proof (SF.binary_round_signed s m (ex + e)) as H.
  destruct (binary_round prec emax s m (ex + e)); cbn in *; try tauto.
  all: split; [exact I | congruence].
Qed.

Lemma of_uint63_nonneg (n : PrimInt63.int) : fnonneg (of_uint63 n).
Proof.
  unfold fnonneg. rewrite of_uint63_spec.
  apply SF.binary_normalize_nonneg. apply Uint63.to_Z_bounded.
Qed.

Lemma ldexp_of_uint63_nonneg (n : PrimInt63.int) (e : Z) :
  fnonneg (Z.ldexp (of_uint63 n) e).
Proof.
  unfold fnonneg. rewrite Z_ldexp_spec. apply SFldexp_signed.
  - apply SF.nonneg_not_nan, of_uint63_nonneg.
  - apply of_uint63_nonneg.
Qed.

Lemma opp_not_nan (f : float) : fnot_nan f -> fnot_nan (- f)%float.
Proof.
  unfold fnot_nan. rewrite opp_spec. now destruct (Prim2SF f).
Qed.

Lemma SF2Prim_not_nan (x : spec_float) : SF.not_nan x -> fnot_nan (SF2Prim x).
Proof.
  destruct x as [[|]|[|]| |s m e]; cbn [SF2Prim]; try (intros _; exact I); try tauto.
  intros _. destruct s.
  - apply opp_not_nan, fnonneg_not_nan, ldexp_of_uint63_nonneg.
  - apply fnonneg_not_nan, ldexp_of_uint63_nonneg.
Qed.

Lemma SF2Prim_nonneg (x : spec_float) : SF.nonneg x -> fnonneg (SF2Prim x).
Proof.
  destruct x as [[|]|[|]| |s m e]; cbn [SF2Prim SF.nonneg];
    try (intros _; exact I); try discriminate; try tauto.
  intros ->. apply ldexp_of_uint63_nonneg.
Qed.

(** ** The scenarios of the docstrings *)

Definition scenario_two_citizens : list (list Z) :=
  [[100; 0; 0]; [0; 0; 100]].

Definition scenario_three_citizens : list (list Z) :=
  [[0; 0; 6; 0; 0; 6; 6; 6; 6];
   [0; 6; 0; 6; 6; 6; 6; 0; 0];
   [6; 0; 0; 6; 6; 0; 0; 6; 6]].

(** C9: on the two scenarios of the specification both functions return
    the stated lists: [50, 0, 50] for a budget of 100 and
    [0, 0, 0, 5, 5, 5, 5, 5, 5] for a budget of 30. *)
Theorem scenarios_return_stated_outputs :
  compute_budget 100 scenario_two_citizens = Ok [50; 0; 50]
  /\ no_binary_search_compute_budget 100 scenario_two_citizens = Ok [50; 0; 50]
  /\ compute_budget 30 scenario_three_citizens = Ok [0; 0; 0; 5; 5; 5; 5; 5; 5]
  /\ no_binary_search_compute_budget 30 scenario_three_citizens
     = Ok [0; 0; 0; 5; 5; 5; 5; 5; 5].
Proof. repeat split; vm_compute; reflexivity. Qed.

(** ** Citizens without subjects *)

Lemma floats_of_no_subject_cb (total_budget : Z) (citizen_votes : list (list Z)) :
  ComputeBudget.floats_of total_budget citizen_votes 0 = Ok [].
Proof. vm_compute. reflexivity. Qed.

Lemma floats_of_no_subject_nbs (total_budget : Z) (citizen_votes : list (list Z)) :
  NoBinarySearch.floats_of total_budget citizen_votes 0 = Ok [].
Proof. vm_compute. reflexivity. Qed.

(** C10: when the citizens have no subject at all and the budget is
    positive, neither function returns: [compute_budget] reads
    [indices[0]] in an empty list (IndexError) and
    [no_binary_search_compute_budget] computes [0 % 0]
    (ZeroDivisionError). *)
Theorem no_subject_positive_budget_raises
        (total_budget : Z) (citizen_votes : list (list Z)) :
  citizen_votes <> [] ->
  Forall (fun citizen => citizen = []) citizen_votes ->
  0 < total_budget ->
  compute_budget total_budget citizen_votes = Raise IndexError
  /\ no_binary_search_compute_budget total_budget citizen_votes
     = Raise ZeroDivisionError.
Proof.
  intros Hne Hall Hpos.
  destruct citizen_votes as [|first rest]; [congruence|].
  inversion Hall as [|? ? Hfirst _]; subst.
  unfold compute_budget, no_binary_search_compute_budget.
  cbn [length].
  rewrite floats_of_no_subject_cb, floats_of_no_subject_nbs.
  unfold ComputeBudget.largest_remainder, NoBinarySearch.largest_remainder.
  cbn [bind floors mapM sum fold_left seq].
  replace (total_budget - 0) with total_budget by lia.
  destruct (Z.ltb_spec 0 total_budget) as [_|]; [|lia].
  destruct (Z.to_nat total_budget) as [|k] eqn:Hk; [lia|].
  split; reflexivity.
Qed.

Lemma no_subject_positive_budget_raises_witness :
  compute_budget 7 [[]; []] = Raise IndexError
  /\ no_binary_search_compute_budget 7 [[]; []] = Raise ZeroDivisionError.
Proof.
  apply no_subject_positive_budget_raises.
  - discriminate.
  - repeat constructor.
  - lia.
Defined.

(** ** The error monad *)

Lemma bind_ok {A B : Type} (c : result A) (k : A -> result B) (b : B) :
  bind c k = Ok b -> exists a, c = Ok a /\ k a = Ok b.
Proof. destruct c as [a|e]; cbn; [eauto | discriminate]. Qed.

Ltac bind_inv H :=
  let a := fresh "a" in
  let Ha := fresh "Ha" in
  apply bind_ok in H; destruct H as (a & Ha & H).

Lemma mapM_length {A B : Type} (f : A -> result B) (l : list A) (bs : list B) :
  mapM f l = Ok bs -> length bs = length l.
Proof.
  revert bs; induction l as [|a l IH]; intros bs H; cbn in H.
  - now inversion H.
  - bind_inv H. bind_inv H. inversion H; subst. cbn. f_equal. now apply IH.
Qed.

Lemma mapM_nth {A B : Type} (f : A -> result B) (l : list A) (bs : list B)
      (i : nat) (a : A) :
  mapM f l = Ok bs -> nth_error l i = Some a ->
  exists b, nth_error bs i = Some b /\ f a = Ok b.
Proof.
  revert bs i; induction l as [|a0 l IH]; intros bs i H Hi.
  - destruct i; discriminate.
  - cbn in H. bind_inv H. bind_inv H. inversion H; subst.
    destruct i as [|i]; cbn in *.
    + inversion Hi; subst. eauto.
    + eauto.
Qed.

Lemma mapM_total {A B : Type} (f : A -> result B) (l : list A) :
  Forall (fun a => exists b, f a = Ok b) l -> exists bs, mapM f l = Ok bs.
Proof.
  induction 1 as [|a l (b & Hb) _ (bs & Hbs)]; cbn.
  - eauto.
  - rewrite Hb, Hbs. cbn. eauto.
Qed.

(** ** Sums and increments *)

Lemma fold_add_acc (l : list Z) (acc : Z) :
  fold_left Z.add l acc = acc + fold_left Z.add l 0.
Proof.
  revert acc; induction l as [|b l IH]; intros acc; cbn; [lia|].
  rewrite (IH (acc + b)), (IH b). lia.
Qed.

Lemma sum_cons (a : Z) (l : list Z) : sum (a :: l) = a + sum l.
Proof. unfold sum. cbn. apply fold_add_acc. Qed.

Lemma incr_at_sum (l : list Z) (j : nat) (l' : list Z) :
  incr_at l j = Ok l' -> sum l' = sum l + 1 /\ length l' = length l.
Proof.
  revert j l'; induction l as [|a l IH]; intros j l' H; cbn in H.
  - destruct j; discriminate.
  - destruct j as [|j].
    + inversion H; subst. rewrite !sum_cons. cbn. lia.
    + bind_inv H. inversion H; subst. apply IH in Ha.
      rewrite !sum_cons. cbn. lia.
Qed.

Lemma incr_at_total (l : list Z) (j : nat) :
  (j < length l)%nat -> exists l', incr_at l j = Ok l'.
Proof.
  revert j; induction l as [|a l IH]; intros j Hj; cbn in *; [lia|].
  destruct j as [|j]; [eauto|].
  destruct (IH j) as (l' & Hl'); [lia|]. rewrite Hl'. cbn. eauto.
Qed.

(** Entry by entry: position [j] gains one, the others stay. *)
Lemma incr_at_nth (l : list Z) (j : nat) (l' : list Z) (i : nat) :
  incr_at l j = Ok l' ->
  nth i l' 0 = nth i l 0 + (if Nat.eqb i j then 1 else 0).
Proof.
  revert j l' i; induction l as [|a l IH]; intros j l' i H; cbn in H.
  - destruct j; discriminate.
  - destruct j as [|j].
    + inversion H; subst. destruct i; cbn; lia.
    + bind_inv H. inversion H; subst. destruct i as [|i]; cbn; [lia|].
      now apply IH.
Qed.

(** The units handed out by [distribute], as the list of the subjects
    picked at steps [i], [i+1], ... *)
Fixpoint picks (pick : nat -> result nat) (i count : nat) : result (list nat) :=
  match count with
  | O => Ok []
  | S count' => j <- pick i ;; js <- picks pick (S i) count' ;; Ok (j :: js)
  end.

Definition units_of (js : list nat) (j : nat) : Z :=
  Z.of_nat (count_occ Nat.eq_dec js j).

Lemma distribute_sum (pick : nat -> result nat) (count : nat) :
  forall (ints : list Z) (i : nat) (l : list Z),
    distribute pick ints i count = Ok l ->
    sum l = sum ints + Z.of_nat count /\ length l = length ints.
Proof.
  induction count as [|count IH]; intros ints i l H; cbn in H.
  - inversion H; subst. lia.
  - bind_inv H. bind_inv H. apply IH in H. apply incr_at_sum in Ha0. lia.
Qed.

Lemma distribute_picks (pick : nat -> result nat) (count : nat) :
  forall (ints : list Z) (i : nat) (l : list Z),
    distribute pick ints i count = Ok l ->
    exists js, picks pick i count = Ok js
               /\ forall j, nth j l 0 = nth j ints 0 + units_of js j.
Proof.
  induction count as [|count IH]; intros ints i l H; cbn in H.
  - inversion H; subst. exists []. split; [reflexivity|].
    intros j. unfold units_of. cbn. lia.
  - bind_inv H. bind_inv H. destruct (IH _ _ _ H) as (js & Hjs & Hnth).
    exists (a :: js). split.
    + cbn. rewrite Ha, Hjs. reflexivity.
    + intros j. rewrite Hnth, (incr_at_nth _ _ _ j Ha0).
      unfold units_of. cbn [count_occ].
      destruct (Nat.eq_dec a j) as [->|Hne].
      * rewrite Nat.eqb_refl. lia.
      * destruct (Nat.eqb_spec j a); [congruence|]. lia.
Qed.

Lemma distribute_total (pick : nat -> result nat) (n count : nat) :
  (forall i, exists j, pick i = Ok j /\ (j < n)%nat) ->
  forall (ints : list Z) (i : nat),
    length ints = n -> exists l, distribute pick ints i count = Ok l.
Proof.
  intros Hpick. induction count as [|count IH]; intros ints i Hlen; cbn.
  - eauto.
  - destruct (Hpick i) as (j & Hj & Hlt). rewrite Hj. cbn.
    destruct (incr_at_total ints j) as (l' & Hl'); [lia|].
    rewrite Hl'. cbn. apply IH. apply incr_at_sum in Hl'. lia.
Qed.

(** ** The sum of the returned list *)

Definition five_citizens : list (list Z) :=
  [[0; 25; 25; 25; 25];
   [25; 0; 25; 25; 25];
   [25; 25; 0; 25; 25];
   [25; 25; 25; 0; 25];
   [25; 25; 25; 25; 0]].

(** Five citizens who each split 100 over four of five subjects: every
    subject's median is 25 whatever the phantom value, the floors sum to
    125, nothing is taken back, and the list returned for a budget of 100
    sums to 125. *)
Lemma five_citizens_overshoot :
  compute_budget 100 five_citizens = Ok [25; 25; 25; 25; 25]
  /\ no_binary_search_compute_budget 100 five_citizens = Ok [25; 25; 25; 25; 25]
  /\ sum [25; 25; 25; 25; 25] <> 100.
Proof.
  split; [|split].
  - vm_compute. reflexivity.
  - vm_compute. reflexivity.
  - vm_compute. discriminate.
Qed.

Lemma largest_remainder_sum_cb (total_budget : Z) (n : nat)
      (floats : list float) (ints l : list Z) :
  floors floats = Ok ints ->
  sum ints <= total_budget ->
  ComputeBudget.largest_remainder total_budget n floats = Ok l ->
  sum l = total_budget.
Proof.
  intros Hints Hle H. unfold ComputeBudget.largest_remainder in H.
  rewrite Hints in H. cbn [bind] in H.
  destruct (Z.ltb_spec 0 (total_budget - sum ints)) as [Hpos|Hneg].
  - bind_inv H. apply distribute_sum in H. lia.
  - inversion H; subst. lia.
Qed.

Lemma largest_remainder_sum_nbs (total_budget : Z) (n : nat)
      (floats : list float) (ints l : list Z) :
  floors floats = Ok ints ->
  sum ints <= total_budget ->
  NoBinarySearch.largest_remainder total_budget n floats = Ok l ->
  sum l = total_budget.
Proof.
  intros Hints Hle H. unfold NoBinarySearch.largest_remainder in H.
  rewrite Hints in H. cbn [bind] in H.
  destruct (Z.ltb_spec 0 (total_budget - sum ints)) as [Hpos|Hneg].
  - bind_inv H. apply distribute_sum in H. lia.
  - inversion H; subst. lia.
Qed.

(** C1, amended: whenever the floored allocations do not already exceed
    the budget, the list that [compute_budget] returns sums to the budget
    exactly, and so does the list that [no_binary_search_compute_budget]
    returns. *)
Theorem returned_list_sums_to_budget
        (total_budget : Z) (first : list Z) (rest : list (list Z)) :
  (forall floats ints l,
      ComputeBudget.floats_of total_budget (first :: rest) (length first)
      = Ok floats ->
      floors floats = Ok ints ->
      sum ints <= total_budget ->
      compute_budget total_budget (first :: rest) = Ok l ->
      sum l = total_budget)
  /\ (forall floats ints l,
      NoBinarySearch.floats_of total_budget (first :: rest) (length first)
      = Ok floats ->
      floors floats = Ok ints ->
      sum ints <= total_budget ->
      no_binary_search_compute_budget total_budget (first :: rest) = Ok l ->
      sum l = total_budget).
Proof.
  split; intros floats ints l Hf Hints Hle H.
  - unfold compute_budget in H. cbn zeta in H. rewrite Hf in H. cbn [bind] in H.
    eapply largest_remainder_sum_cb; eauto.
  - unfold no_binary_search_compute_budget in H. cbn zeta in H.
    rewrite Hf in H. cbn [bind] in H.
    eapply largest_remainder_sum_nbs; eauto.
Qed.

Lemma returned_list_sums_to_budget_witness :
  sum [22; 21; 57] = 100 /\ sum [20; 25; 55] = 100.
Proof.
  split.
  - eapply (proj1 (returned_list_sums_to_budget 100 [33; 33; 34] [[10; 10; 80]])).
    + vm_compute. reflexivity.
    + vm_compute. reflexivity.
    + vm_compute. discriminate.
    + vm_compute. reflexivity.
  - eapply (proj2 (returned_list_sums_to_budget 100 [10; 20; 70] [[30; 30; 40]])).
    + vm_compute. reflexivity.
    + vm_compute. reflexivity.
    + vm_compute. discriminate.
    + vm_compute. reflexivity.
Defined.

(** ** [sorted] on concatenations and on sorted lists *)

Section SortedFacts.
Context {A : Type} (lt : A -> A -> bool).

Lemma sorted_app (l1 l2 : list A) :
  sorted lt (l1 ++ l2) = fold_left (fun acc x => insort lt x acc) l2 (sorted lt l1).
Proof. unfold sorted. apply fold_left_app. Qed.

Lemma sorted_snoc2 (l : list A) (a b : A) :
  sorted lt (l ++ [a; b]) = insort lt b (insort lt a (sorted lt l)).
Proof. rewrite sorted_app. reflexivity. Qed.

Lemma insort_length (x : A) (l : list A) : length (insort lt x l) = S (length l).
Proof.
  induction l as [|y l IH]; cbn; [reflexivity|].
  destruct (lt x y); cbn; [reflexivity | now rewrite IH].
Qed.

Lemma insort_perm (x : A) (l : list A) : Permutation (insort lt x l) (x :: l).
Proof.
  induction l as [|y l IH]; cbn; [reflexivity|].
  destruct (lt x y); [reflexivity|].
  rewrite IH. apply perm_swap.
Qed.

Lemma fold_insort_perm (l acc : list A) :
  Permutation (fold_left (fun acc x => insort lt x acc) l acc) (acc ++ l).
Proof.
  revert acc; induction l as [|x l IH]; intros acc; cbn.
  - now rewrite app_nil_r.
  - rewrite IH, insort_perm. cbn. apply Permutation_middle.
Qed.

Lemma sorted_perm (l : list A) : Permutation (sorted lt l) l.
Proof. unfold sorted. now rewrite fold_insort_perm. Qed.

Lemma sorted_length (l : list A) : length (sorted lt l) = length l.
Proof. apply Permutation_length, sorted_perm. Qed.

(** An element that is smaller than none of the list goes to its end. *)
Lemma insort_last (x : A) (l : list A) :
  Forall (fun y => lt x y = false) l -> insort lt x l = l ++ [x].
Proof.
  induction 1 as [|y l Hy _ IH]; cbn; [reflexivity|].
  now rewrite Hy, IH.
Qed.

Lemma fold_insort_ascending (l acc : list A) :
  StronglySorted (fun a b => lt b a = false) (acc ++ l) ->
  fold_left (fun acc x => insort lt x acc) l acc = acc ++ l.
Proof.
  revert acc; induction l as [|x l IH]; intros acc Hs; cbn.
  - now rewrite app_nil_r.
  - rewrite insort_last.
    + rewrite IH; rewrite <- app_assoc; [reflexivity | exact Hs].
    + clear IH. induction acc as [|y acc IHacc]; [constructor|].
      cbn in Hs. inversion Hs as [|? ? Hs' Hall]; subst.
      constructor; [|now apply IHacc].
      rewrite Forall_forall in Hall. apply Hall.
      apply in_or_app. right. now left.
Qed.

Lemma sorted_ascending (l : list A) :
  StronglySorted (fun a b => lt b a = false) l -> sorted lt l = l.
Proof. intros Hs. unfold sorted. now rewrite fold_insort_ascending. Qed.
End SortedFacts.

(** ** The phantom value *)

(** Consecutive breakpoints whose segment does not contain the budget, and
    a segment that does, stated on [get_total_and_slope] of each function. *)
Module ScanCB.
Section Segments.
Variable total_budget : Z.
Variable votes_per_subject : list (list Z).

Let gts := ComputeBudget.get_total_and_slope votes_per_subject.

Definition within (sum_low sum_high : float) : bool :=
  Py.le (PFloat sum_low) (PInt total_budget)
  && Py.le (PInt total_budget) (PFloat (sum_high + 1e-9)%float).

Definition misses (x_low x_high : Z) : Prop :=
  exists sum_low slope_low sum_high slope_high,
    gts (PInt x_low) = Ok (sum_low, slope_low)
    /\ gts (PInt x_high) = Ok (sum_high, slope_high)
    /\ within sum_low sum_high = false.

Definition brackets (x_low x_high : Z) (sum_low : float) (slope_low : num) : Prop :=
  exists sum_high slope_high,
    gts (PInt x_low) = Ok (sum_low, slope_low)
    /\ gts (PInt x_high) = Ok (sum_high, slope_high)
    /\ within sum_low sum_high = true.

Inductive all_miss : list Z -> Prop :=
| all_miss_nil : all_miss []
| all_miss_one (x : Z) : all_miss [x]
| all_miss_cons (x y : Z) (l : list Z) :
    misses x y -> all_miss (y :: l) -> all_miss (x :: y :: l).

Lemma scan_step_cb (x_low x_high : Z) (rest : list Z) :
  ComputeBudget.scan total_budget votes_per_subject (x_low :: x_high :: rest)
  = ('(sum_low, slope_low) <- gts (PInt x_low) ;;
     '(sum_high, _) <- gts (PInt x_high) ;;
     if within sum_low sum_high
     then ComputeBudget.interpolate total_budget x_low sum_low slope_low
     else ComputeBudget.scan total_budget votes_per_subject (x_high :: rest)).
Proof. reflexivity. Qed.

Lemma scan_found_cb (pre post : list Z) (x_low x_high : Z)
      (sum_low : float) (slope_low : num) :
  all_miss (pre ++ [x_low]) ->
  brackets x_low x_high sum_low slope_low ->
  ComputeBudget.scan total_budget votes_per_subject (pre ++ x_low :: x_high :: post)
  = ComputeBudget.interpolate total_budget x_low sum_low slope_low.
Proof.
  intros Hpre (sum_high & slope_high & Hl & Hh & Hw).
  induction pre as [|p pre IH].
  - cbn [app]. rewrite scan_step_cb, Hl, Hh. cbn [bind]. now rewrite Hw.
  - assert (Hstep : exists y l, pre ++ [x_low] = y :: l
                                /\ pre ++ x_low :: x_high :: post = y :: l ++ x_high :: post).
    { destruct pre as [|y pre].
      - exists x_low, []. split; reflexivity.
      - exists y, (pre ++ [x_low]). split; [reflexivity|].
        cbn. now rewrite <- app_assoc. }
    destruct Hstep as (y & l & E1 & E2).
    cbn [app] in Hpre. rewrite E1 in Hpre. inversion Hpre as [| |? ? ? Hm Hrest]; subst.
    destruct Hm as (sl & kl & sh & kh & Hsl & Hsh & Hmiss).
    cbn [app]. rewrite E2, scan_step_cb, Hsl, Hsh. cbn [bind]. rewrite Hmiss.
    rewrite <- E2. apply IH. now rewrite E1.
Qed.

Lemma scan_last_cb (pre : list Z) (x_last : Z) (sum_last : float) (slope_last : num) :
  all_miss (pre ++ [x_last]) ->
  gts (PInt x_last) = Ok (sum_last, slope_last) ->
  ComputeBudget.scan total_budget votes_per_subject (pre ++ [x_last])
  = ComputeBudget.interpolate total_budget x_last sum_last slope_last.
Proof.
  intros Hpre Hl.
  induction pre as [|p pre IH].
  - cbn [app ComputeBudget.scan]. fold gts. now rewrite Hl.
  - assert (Hstep : exists y l, pre ++ [x_last] = y :: l).
    { destruct pre as [|y pre]; [exists x_last, [] | exists y, (pre ++ [x_last])];
        reflexivity. }
    destruct Hstep as (y & l & E1).
    cbn [app] in *. rewrite E1 in *. inversion Hpre as [| |? ? ? Hm Hrest]; subst.
    destruct Hm as (sl & kl & sh & kh & Hsl & Hsh & Hmiss).
    rewrite scan_step_cb, Hsl, Hsh. cbn [bind]. rewrite Hmiss.
    now apply IH.
Qed.
End Segments.
End ScanCB.

Module ScanNBS.
Section Segments.
Variable total_budget : Z.
Variable votes_per_subject : list (list Z).

Let gts := NoBinarySearch.get_total_and_slope votes_per_subject.

Definition within (sum_low sum_high : float) : bool :=
  Py.le (PFloat sum_low) (PInt total_budget)
  && Py.le (PInt total_budget) (PFloat (sum_high + 1e-9)%float).

Definition misses (x_low x_high : Z) : Prop :=
  exists sum_low slope_low sum_high slope_high,
    gts (PInt x_low) = Ok (sum_low, slope_low)
    /\ gts (PInt x_high) = Ok (sum_high, slope_high)
    /\ within sum_low sum_high = false.

Definition brackets (x_low x_high : Z) (sum_low : float) (slope_low : float) : Prop :=
  exists sum_high slope_high,
    gts (PInt x_low) = Ok (sum_low, slope_low)
    /\ gts (PInt x_high) = Ok (sum_high, slope_high)
    /\ within sum_low sum_high = true.

Inductive all_miss : list Z -> Prop :=
| all_miss_nil : all_miss []
| all_miss_one (x : Z) : all_miss [x]
| all_miss_cons (x y : Z) (l : list Z) :
    misses x y -> all_miss (y :: l) -> all_miss (x :: y :: l).

Lemma scan_step_nbs (x_low x_high : Z) (rest : list Z) :
  NoBinarySearch.scan total_budget votes_per_subject (x_low :: x_high :: rest)
  = ('(sum_low, slope_low) <- gts (PInt x_low) ;;
     '(sum_high, _) <- gts (PInt x_high) ;;
     if within sum_low sum_high
     then NoBinarySearch.interpolate total_budget x_low sum_low slope_low
     else NoBinarySearch.scan total_budget votes_per_subject (x_high :: rest)).
Proof. reflexivity. Qed.

Lemma scan_found_nbs (pre post : list Z) (x_low x_high : Z)
      (sum_low : float) (slope_low : float) :
  all_miss (pre ++ [x_low]) ->
  brackets x_low x_high sum_low slope_low ->
  NoBinarySearch.scan total_budget votes_per_subject (pre ++ x_low :: x_high :: post)
  = NoBinarySearch.interpolate total_budget x_low sum_low slope_low.
Proof.
  intros Hpre (sum_high & slope_high & Hl & Hh & Hw).
  induction pre as [|p pre IH].
  - cbn [app]. rewrite scan_step_nbs, Hl, Hh. cbn [bind]. now rewrite Hw.
  - assert (Hstep : exists y l, pre ++ [x_low] = y :: l
                                /\ pre ++ x_low :: x_high :: post = y :: l ++ x_high :: post).
    { destruct pre as [|y pre].
      - exists x_low, []. split; reflexivity.
      - exists y, (pre ++ [x_low]). split; [reflexivity|].
        cbn. now rewrite <- app_assoc. }
    destruct Hstep as (y & l & E1 & E2).
    cbn [app] in Hpre. rewrite E1 in Hpre. inversion Hpre as [| |? ? ? Hm Hrest]; subst.
    destruct Hm as (sl & kl & sh & kh & Hsl & Hsh & Hmiss).
    cbn [app]. rewrite E2, scan_step_nbs, Hsl, Hsh. cbn [bind]. rewrite Hmiss.
    rewrite <- E2. apply IH. now rewrite E1.
Qed.

Lemma scan_last_nbs (pre : list Z) (x_last : Z) (sum_last : float) (slope_last : float) :
  all_miss (pre ++ [x_last]) ->
  gts (PInt x_last) = Ok (sum_last, slope_last) ->
  NoBinarySearch.scan total_budget votes_per_subject (pre ++ [x_last])
  = NoBinarySearch.interpolate total_budget x_last sum_last slope_last.
Proof.
  intros Hpre Hl.
  induction pre as [|p pre IH].
  - cbn [app NoBinarySearch.scan]. fold gts. now rewrite Hl.
  - assert (Hstep : exists y l, pre ++ [x_last] = y :: l).
    { destruct pre as [|y pre]; [exists x_last, [] | exists y, (pre ++ [x_last])];
        reflexivity. }
    destruct Hstep as (y & l & E1).
    cbn [app] in *. rewrite E1 in *. inversion Hpre as [| |? ? ? Hm Hrest]; subst.
    destruct Hm as (sl & kl & sh & kh & Hsl & Hsh & Hmiss).
    rewrite scan_step_nbs, Hsl, Hsh. cbn [bind]. rewrite Hmiss.
    now apply IH.
Qed.
End Segments.
End ScanNBS.

(** The specification's formula for the phantom value on the segment that
    starts at [x_low]. *)
Definition phantom_formula (total_budget x_low : Z) (sum_low : float) (slope_low : num)
  : result num :=
  if Py.gt slope_low (PFloat 1e-9) then
    d <- Py.sub (PInt total_budget) (PFloat sum_low) ;;
    q <- truediv d slope_low ;;
    Py.add (PInt x_low) (PFloat q)
  else Ok (PInt x_low).

(** C4: the phantom value is the specification's formula at the first pair
    of consecutive breakpoints that brackets the budget and, when no pair
    does, the same formula at the largest breakpoint; in both functions. *)
Theorem phantom_value_formula (total_budget : Z) (votes_per_subject : list (list Z)) :
  (forall pre post x_low x_high sum_low slope_low,
      sorted_breaks_of votes_per_subject = pre ++ x_low :: x_high :: post ->
      ScanCB.all_miss total_budget votes_per_subject (pre ++ [x_low]) ->
      ScanCB.brackets total_budget votes_per_subject x_low x_high sum_low slope_low ->
      ComputeBudget.target_x total_budget votes_per_subject
      = phantom_formula total_budget x_low sum_low slope_low)
  /\ (forall pre x_last sum_last slope_last,
      sorted_breaks_of votes_per_subject = pre ++ [x_last] ->
      ScanCB.all_miss total_budget votes_per_subject (pre ++ [x_last]) ->
      ComputeBudget.get_total_and_slope votes_per_subject (PInt x_last)
      = Ok (sum_last, slope_last) ->
      ComputeBudget.target_x total_budget votes_per_subject
      = phantom_formula total_budget x_last sum_last slope_last)
  /\ (forall pre post x_low x_high sum_low slope_low,
      sorted_breaks_of votes_per_subject = pre ++ x_low :: x_high :: post ->
      ScanNBS.all_miss total_budget votes_per_subject (pre ++ [x_low]) ->
      ScanNBS.brackets total_budget votes_per_subject x_low x_high sum_low slope_low ->
      NoBinarySearch.target_x total_budget votes_per_subject
      = phantom_formula total_budget x_low sum_low (PFloat slope_low))
  /\ (forall pre x_last sum_last slope_last,
      sorted_breaks_of votes_per_subject = pre ++ [x_last] ->
      ScanNBS.all_miss total_budget votes_per_subject (pre ++ [x_last]) ->
      NoBinarySearch.get_total_and_slope votes_per_subject (PInt x_last)
      = Ok (sum_last, slope_last) ->
      NoBinarySearch.target_x total_budget votes_per_subject
      = phantom_formula total_budget x_last sum_last (PFloat slope_last)).
Proof.
  unfold ComputeBudget.target_x, NoBinarySearch.target_x.
  repeat split.
  - intros pre post x_low x_high sum_low slope_low -> Hpre Hb.
    now rewrite (ScanCB.scan_found_cb _ _ _ _ _ _ _ _ Hpre Hb).
  - intros pre x_last sum_last slope_last -> Hpre Hl.
    now rewrite (ScanCB.scan_last_cb _ _ _ _ _ _ Hpre Hl).
  - intros pre post x_low x_high sum_low slope_low -> Hpre Hb.
    now rewrite (ScanNBS.scan_found_nbs _ _ _ _ _ _ _ _ Hpre Hb).
  - intros pre x_last sum_last slope_last -> Hpre Hl.
    now rewrite (ScanNBS.scan_last_nbs _ _ _ _ _ _ Hpre Hl).
Qed.

Lemma phantom_value_formula_witness :
  let votes_per_subject := [[0; 100]; [0; 0]; [0; 100]] in
  ComputeBudget.target_x 100 votes_per_subject = phantom_formula 100 0 0 (PFloat 1)
  /\ ComputeBudget.target_x 300 votes_per_subject = phantom_formula 300 100 100 (PInt 0)
  /\ NoBinarySearch.target_x 100 votes_per_subject = phantom_formula 100 0 0 (PFloat 1)
  /\ NoBinarySearch.target_x 300 votes_per_subject = phantom_formula 300 100 100 (PFloat 0).
Proof.
  intros votes_per_subject.
  destruct (phantom_value_formula 100 votes_per_subject) as (Hcb & _ & Hnbs & _).
  destruct (phantom_value_formula 300 votes_per_subject) as (_ & Hcb' & _ & Hnbs').
  split; [|split; [|split]].
  - apply (Hcb [] [] 0 100).
    + vm_compute. reflexivity.
    + constructor.
    + exists 100%float, (PInt 0). repeat split; vm_compute; reflexivity.
  - apply (Hcb' [0] 100).
    + vm_compute. reflexivity.
    + constructor; [|constructor].
      exists 0%float, (PFloat 1), 100%float, (PInt 0).
      repeat split; vm_compute; reflexivity.
    + vm_compute. reflexivity.
  - apply (Hnbs [] [] 0 100).
    + vm_compute. reflexivity.
    + constructor.
    + exists 100%float, 0%float. repeat split; vm_compute; reflexivity.
  - apply (Hnbs' [0] 100).
    + vm_compute. reflexivity.
    + constructor; [|constructor].
      exists 0%float, 1%float, 100%float, 0%float.
      repeat split; vm_compute; reflexivity.
    + vm_compute. reflexivity.
Defined.

(** ** The order in which the units are handed out *)

(** Insertion keeps a list ordered as soon as [lt] is asymmetric and
    "not smaller" is transitive on the elements at hand. *)
Section SortedOrder.
Context {A : Type} (lt : A -> A -> bool) (P : A -> Prop).
Hypothesis lt_asym : forall a b, P a -> P b -> lt a b = true -> lt b a = false.
Hypothesis ge_trans :
  forall a b c, P a -> P b -> P c -> lt b a = false -> lt c b = false -> lt c a = false.

Let R (a b : A) : Prop := lt b a = false.

Lemma insort_sorted (x : A) (l : list A) :
  P x -> Forall P l -> StronglySorted R l -> StronglySorted R (insort lt x l).
Proof.
  intros Hx HP Hs. induction Hs as [|y l Hs IH Hall]; cbn.
  - repeat constructor.
  - inversion HP as [|? ? Hy HPl]; subst.
    destruct (lt x y) eqn:Hxy.
    + constructor; [now constructor|].
      constructor; [now apply lt_asym|].
      rewrite Forall_forall in *. intros z Hz.
      apply (ge_trans x y z); auto.
      now apply Hall.
    + constructor; [now apply IH|].
      rewrite Forall_forall in *. intros z Hz.
      apply (Permutation_in _ (insort_perm lt x l)) in Hz.
      destruct Hz as [<-|Hz]; [exact Hxy | now apply Hall].
Qed.

Lemma fold_insort_sorted (l acc : list A) :
  Forall P l -> Forall P acc -> StronglySorted R acc ->
  StronglySorted R (fold_left (fun acc x => insort lt x acc) l acc).
Proof.
  revert acc; induction l as [|x l IH]; intros acc Hl Hacc Hs; cbn; [exact Hs|].
  inversion Hl; subst. apply IH; auto.
  - rewrite Forall_forall in *. intros z Hz.
    apply (Permutation_in _ (insort_perm lt x acc)) in Hz.
    destruct Hz as [<-|Hz]; auto.
  - now apply insort_sorted.
Qed.

Lemma sorted_sorted (l : list A) : Forall P l -> StronglySorted R (sorted lt l).
Proof. intros Hl. apply fold_insort_sorted; auto; constructor. Qed.
End SortedOrder.

Lemma StronglySorted_nth {A : Type} (R : A -> A -> Prop) (l : list A) :
  StronglySorted R l ->
  forall p q a b, (p < q)%nat ->
                  nth_error l p = Some a -> nth_error l q = Some b -> R a b.
Proof.
  induction 1 as [|x l Hs IH Hall]; intros p q a b Hpq Ha Hb.
  - destruct p; discriminate.
  - destruct q as [|q]; [lia|]. cbn in Hb.
    destruct p as [|p]; cbn in Ha.
    + inversion Ha; subst. rewrite Forall_forall in Hall.
      eapply Hall, nth_error_In, Hb.
    + apply (IH p q a b); auto. lia.
Qed.

(** The keys as ranks. *)
Lemma key_lt_rank (k1 k2 : key) :
  fnot_nan (fst k1) -> fnot_nan (fst k2) ->
  key_lt k1 k2 = match SF.lex3 (frank (fst k1)) (frank (fst k2)) with
                 | Eq => snd k1 <? snd k2
                 | Lt => true
                 | Gt => false
                 end.
Proof.
  destruct k1 as [f1 n1], k2 as [f2 n2]; cbn [fst snd key_lt]. intros H1 H2.
  rewrite eqb_rank, ltb_rank by assumption.
  now destruct (SF.lex3 _ _).
Qed.

Lemma key_lt_asym (k1 k2 : key) :
  fnot_nan (fst k1) -> fnot_nan (fst k2) ->
  key_lt k1 k2 = true -> key_lt k2 k1 = false.
Proof.
  intros H1 H2. rewrite !key_lt_rank by assumption.
  rewrite (SF.lex3_antisym (frank (fst k1))).
  destruct (SF.lex3 _ _); cbn; try congruence.
  intros H. apply Z.ltb_lt in H. apply Z.ltb_ge. lia.
Qed.

Lemma key_ge_trans (a b c : key) :
  fnot_nan (fst a) -> fnot_nan (fst b) -> fnot_nan (fst c) ->
  key_lt a b = false -> key_lt b c = false -> key_lt a c = false.
Proof.
  intros Ha Hb Hc. rewrite !key_lt_rank by assumption.
  destruct (SF.lex3 (frank (fst a)) (frank (fst b))) eqn:Eab; try discriminate;
    destruct (SF.lex3 (frank (fst b)) (frank (fst c))) eqn:Ebc; try discriminate.
  - rewrite (SF.lex3_eq_trans _ _ _ Eab Ebc). rewrite !Z.ltb_ge. lia.
  - rewrite (SF.lex3_eq_l _ _ _ Eab), Ebc. reflexivity.
  - rewrite (SF.lex3_eq_r _ _ _ Ebc) in Eab. rewrite Eab. reflexivity.
  - intros _ _.
    assert (H : SF.lex3 (frank (fst c)) (frank (fst a)) = Lt).
    { apply (SF.lex3_lt_trans _ (frank (fst b))).
      - rewrite SF.lex3_antisym, Ebc. reflexivity.
      - rewrite SF.lex3_antisym, Eab. reflexivity. }
    rewrite SF.lex3_antisym, H. reflexivity.
Qed.

(** The list [indices]. *)
Lemma map_fst_combine {A B : Type} (l1 : list A) (l2 : list B) :
  length l1 = length l2 -> map fst (combine l1 l2) = l1.
Proof.
  revert l2; induction l1 as [|a l1 IH]; intros [|b l2] H; cbn in *;
    try discriminate; [reflexivity|].
  f_equal. apply IH. lia.
Qed.

Lemma in_combine_seq {B : Type} (keys : list B) (s i : nat) (k : B) :
  In (i, k) (combine (seq s (length keys)) keys) ->
  (s <= i)%nat /\ nth_error keys (i - s) = Some k.
Proof.
  revert s; induction keys as [|k0 keys IH]; intros s H; cbn in H; [tauto|].
  destruct H as [H|H].
  - inversion H; subst. rewrite Nat.sub_diag. split; [lia | reflexivity].
  - apply IH in H. destruct H as [Hle Hnth]. split; [lia|].
    replace (i - s)%nat with (S (i - S s)) by lia. exact Hnth.
Qed.

Lemma sorted_by_key_reverse_perm (keys : list key) :
  Permutation (sorted_by_key_reverse keys) (seq 0 (length keys)).
Proof.
  unfold sorted_by_key_reverse.
  rewrite (Permutation_map fst (sorted_perm _ _)).
  rewrite map_fst_combine; [reflexivity | now rewrite length_seq].
Qed.

Lemma sorted_by_key_reverse_length (keys : list key) :
  length (sorted_by_key_reverse keys) = length keys.
Proof.
  rewrite (Permutation_length (sorted_by_key_reverse_perm keys)).
  apply length_seq.
Qed.

(** Whoever stands earlier in [indices] has a key that is not smaller. *)
Lemma sorted_by_key_reverse_ordered (keys : list key) (p q i j : nat) :
  Forall (fun k => fnot_nan (fst k)) keys ->
  (p < q)%nat ->
  nth_error (sorted_by_key_reverse keys) p = Some i ->
  nth_error (sorted_by_key_reverse keys) q = Some j ->
  exists ki kj, nth_error keys i = Some ki /\ nth_error keys j = Some kj
                /\ key_lt ki kj = false.
Proof.
  intros Hnan Hpq Hp Hq. unfold sorted_by_key_reverse in *.
  set (lt' := fun a b : nat * key => key_lt (snd b) (snd a)) in *.
  set (pairs := combine (seq 0 (length keys)) keys) in *.
  assert (Hin : forall a, In a pairs -> nth_error keys (fst a) = Some (snd a)).
  { intros [a k] Ha. apply in_combine_seq in Ha. cbn.
    now rewrite Nat.sub_0_r in Ha. }
  assert (HP : Forall (fun a : nat * key => fnot_nan (fst (snd a))) pairs).
  { rewrite Forall_forall in *. intros a Ha. apply Hnan.
    eapply nth_error_In, Hin, Ha. }
  assert (Hs : StronglySorted (fun a b => lt' b a = false) (sorted lt' pairs)).
  { apply (sorted_sorted lt' (fun a => fnot_nan (fst (snd a)))); [| |exact HP].
    - intros a b Ha Hb. unfold lt'. now apply key_lt_asym.
    - intros a b c Ha Hb Hc. unfold lt'. now apply key_ge_trans. }
  rewrite nth_error_map in Hp, Hq.
  destruct (nth_error (sorted lt' pairs) p) as [[i' ki]|] eqn:Ep; [|discriminate].
  destruct (nth_error (sorted lt' pairs) q) as [[j' kj]|] eqn:Eq; [|discriminate].
  cbn in Hp, Hq. inversion Hp; inversion Hq; subst.
  exists ki, kj.
  pose proof (StronglySorted_nth _ _ Hs p q _ _ Hpq Ep Eq) as HR.
  repeat split.
  - apply (Hin (i, ki)). eapply Permutation_in; [apply sorted_perm|].
    eapply nth_error_In, Ep.
  - apply (Hin (j, kj)). eapply Permutation_in; [apply sorted_perm|].
    eapply nth_error_In, Eq.
  - exact HR.
Qed.

(** The subjects picked. *)
Lemma picks_index (indices : list nat) (count i : nat) (js : list nat) :
  picks (fun k => index indices k) i count = Ok js ->
  js = firstn count (skipn i indices).
Proof.
  revert i js; induction count as [|count IH]; intros i js H; cbn in H.
  - now inversion H.
  - bind_inv H. bind_inv H. inversion H; subst.
    unfold index in Ha. destruct (nth_error indices i) as [j|] eqn:Ej; [|discriminate].
    inversion Ha; subst. apply IH in Ha0. subst.
    clear -Ej. revert i Ej. induction indices as [|x l IHl]; intros i Ej.
    + destruct i; discriminate.
    + destruct i as [|i]; cbn in *.
      * now inversion Ej.
      * now apply IHl.
Qed.

Lemma picks_round_robin (indices : list nat) (n count i : nat) (js : list nat) :
  picks (fun k => j <- mod_nat k n ;; index indices j) i count = Ok js ->
  js = map (fun k => nth (Nat.modulo k n) indices O) (seq i count).
Proof.
  revert i js; induction count as [|count IH]; intros i js H; cbn in H.
  - now inversion H.
  - bind_inv H. bind_inv H. inversion H; subst. cbn. f_equal; [|now apply IH].
    bind_inv Ha. unfold mod_nat in Ha1. destruct n; [discriminate|].
    inversion Ha1; subst. unfold index in Ha.
    destruct (nth_error indices _) eqn:E; [|discriminate].
    inversion Ha; subst. symmetry. now apply nth_error_nth.
Qed.

(** The fractional remainders are numbers: no key is NaN. *)
Definition ffinite (f : float) : Prop :=
  match Prim2SF f with
  | S754_zero _ | S754_finite _ _ _ => True
  | _ => False
  end.

Lemma floor_ok_finite (f : float) (n : Z) : Py.floor f = Ok n -> ffinite f.
Proof.
  unfold Py.floor, ffinite. destruct (Prim2SF f); try discriminate; auto.
Qed.

Lemma add_finite_l (f c : float) : ffinite (f + c)%float -> ffinite f.
Proof.
  unfold ffinite. rewrite add_spec. unfold SF64add.
  destruct (Prim2SF f) as [s|s| |s m e]; auto;
    destruct (Prim2SF c) as [s'|s'| |s' m' e']; cbn; auto;
    destruct s, s'; auto.
Qed.

Lemma float_of_int_not_nan (z : Z) (g : float) :
  float_of_int z = Ok g -> fnot_nan g.
Proof.
  unfold float_of_int. intros H.
  assert (g = SF2Prim (binary_normalize prec emax z 0 false)) as ->.
  { destruct (binary_normalize prec emax z 0 false); try discriminate; congruence. }
  apply SF2Prim_not_nan, SF.binary_normalize_not_nan.
Qed.

Lemma sub_finite_not_nan (f g : float) :
  ffinite f -> fnot_nan g -> fnot_nan (f - g)%float.
Proof.
  unfold ffinite, fnot_nan. rewrite sub_spec. unfold SF64sub.
  destruct (Prim2SF f) as [s|s| |s m e]; try tauto;
    destruct (Prim2SF g) as [s'|s'| |s' m' e']; try tauto; intros _ _.
  - cbn. now destruct s, s'.
  - apply SF.SFsub_finite_not_nan.
Qed.

Lemma frac_not_nan (floats : list float) (ints : list Z) (i : nat) (fr : float) :
  floors floats = Ok ints -> frac floats ints i = Ok fr -> fnot_nan fr.
Proof.
  intros Hfl H. unfold frac in H.
  bind_inv H. bind_inv H. rename a into f, a0 into n.
  unfold index in Ha, Ha0.
  destruct (nth_error floats i) eqn:Ef; [|discriminate].
  destruct (nth_error ints i) eqn:En; [|discriminate].
  inversion Ha; inversion Ha0; subst.
  destruct (mapM_nth _ _ _ _ _ Hfl Ef) as (n' & Hn' & Hfloor).
  bind_inv H. cbn [Py.sub to_float bind] in Ha1. bind_inv Ha1.
  inversion Ha1; subst. cbn [to_float] in H. inversion H; subst.
  apply sub_finite_not_nan.
  - eapply add_finite_l, floor_ok_finite, Hfloor.
  - eapply float_of_int_not_nan, Ha2.
Qed.

Lemma round_ndigits_not_nan (f r : float) (ndigits : Z) :
  fnot_nan f -> round_ndigits f ndigits = Ok r -> fnot_nan r.
Proof.
  unfold round_ndigits, fnot_nan. intros Hf H.
  destruct (Prim2SF f) as [s|s| |s m e] eqn:E;
    try (inversion H; subst; now rewrite E).
  destruct (if 0 <=? e then _ else _) as [|q|q];
    try (inversion H; subst; now destruct s).
  pose proof (SF.SFdiv_signed s false q (Z.to_pos (10 ^ ndigits)) 0 0) as Hs.
  set (sf := SFdiv prec emax _ _) in *.
  assert (r = SF2Prim sf) as ->.
  { destruct sf; try discriminate; congruence. }
  apply SF2Prim_not_nan. now destruct sf.
Qed.

Lemma mapM_seq_nth {B : Type} (f : nat -> result B) (n : nat) (bs : list B)
      (i : nat) (b : B) :
  mapM f (seq 0 n) = Ok bs -> nth_error bs i = Some b -> f i = Ok b.
Proof.
  intros H Hb.
  assert (Hi : (i < n)%nat).
  { pose proof (mapM_length _ _ _ H) as Hl. rewrite length_seq in Hl.
    rewrite <- Hl. apply nth_error_Some. congruence. }
  assert (Hs : nth_error (seq 0 n) i = Some i).
  { rewrite nth_error_seq. now destruct (Nat.ltb_spec i n); [|lia]. }
  destruct (mapM_nth _ _ _ _ _ H Hs) as (b' & Hb' & Hf). congruence.
Qed.

(** Larger remainder first; among equal remainders, lower index first. *)
Definition ranks_before (fi fj : float) (i j : nat) : Prop :=
  (fj <? fi)%float = true \/ ((fi =? fj)%float = true /\ (i < j)%nat).

Lemma key_ge_ranks_before (fi fj : float) (i j : nat) :
  fnot_nan fi -> fnot_nan fj -> i <> j ->
  key_lt (fi, - Z.of_nat i) (fj, - Z.of_nat j) = false ->
  ranks_before fi fj i j.
Proof.
  intros Hi Hj Hne H. unfold ranks_before. cbn [key_lt] in H.
  destruct (fi =? fj)%float eqn:E.
  - right. split; [reflexivity|]. apply Z.ltb_ge in H. lia.
  - left. rewrite eqb_rank in E by assumption.
    rewrite ltb_rank in H by assumption.
    rewrite ltb_rank, SF.lex3_antisym by assumption.
    now destruct (SF.lex3 (frank fi) (frank fj)).
Qed.

Lemma indices_distinct (indices : list nat) (n p q i j : nat) :
  Permutation indices (seq 0 n) -> (p < q)%nat ->
  nth_error indices p = Some i -> nth_error indices q = Some j -> i <> j.
Proof.
  intros Hperm Hpq Hp Hq ->.
  assert (Hnd : NoDup indices).
  { eapply Permutation_NoDup; [symmetry; exact Hperm | apply seq_NoDup]. }
  rewrite NoDup_nth_error in Hnd.
  assert (p = q); [|lia].
  apply Hnd; [|congruence]. apply nth_error_Some. congruence.
Qed.

(** What each function does with a positive shortfall: the units go, one
    at a time, down the list of all subjects ordered by decreasing key,
    lower index first on equal keys; the key of [compute_budget] is the
    float remainder itself and it stops at the end of that list, the key of
    [no_binary_search_compute_budget] is the remainder rounded to ten
    decimals and it walks the list round robin. *)
Lemma units_follow_sorted_remainders
        (total_budget : Z) (n : nat) (floats : list float) (ints : list Z) :
  floors floats = Ok ints ->
  0 < total_budget - sum ints ->
  (forall l,
      ComputeBudget.largest_remainder total_budget n floats = Ok l ->
      exists indices,
        Permutation indices (seq 0 n)
        /\ (forall p q i j,
               (p < q)%nat ->
               nth_error indices p = Some i -> nth_error indices q = Some j ->
               exists fi fj,
                 frac floats ints i = Ok fi /\ frac floats ints j = Ok fj
                 /\ ranks_before fi fj i j)
        /\ (forall j,
               nth j l 0 = nth j ints 0
                           + units_of (firstn (Z.to_nat (total_budget - sum ints))
                                              indices) j))
  /\ (forall l,
      NoBinarySearch.largest_remainder total_budget n floats = Ok l ->
      exists indices,
        Permutation indices (seq 0 n)
        /\ (forall p q i j,
               (p < q)%nat ->
               nth_error indices p = Some i -> nth_error indices q = Some j ->
               exists fi fj ri rj,
                 frac floats ints i = Ok fi /\ frac floats ints j = Ok fj
                 /\ round_ndigits fi 10 = Ok ri /\ round_ndigits fj 10 = Ok rj
                 /\ ranks_before ri rj i j)
        /\ (forall j,
               nth j l 0 = nth j ints 0
                           + units_of (map (fun k => nth (Nat.modulo k n) indices O)
                                           (seq 0 (Z.to_nat (total_budget - sum ints))))
                                      j)).
Proof.
  intros Hints Hpos. apply Z.ltb_lt in Hpos. split; intros l H.
  - unfold ComputeBudget.largest_remainder in H.
    rewrite Hints in H. cbn [bind] in H. rewrite Hpos in H.
    bind_inv H. rename a into keys.
    assert (Hlen : length keys = n).
    { rewrite (mapM_length _ _ _ Ha). apply length_seq. }
    assert (Hkey : forall i k, nth_error keys i = Some k ->
                               exists fr, frac floats ints i = Ok fr
                                          /\ k = (fr, - Z.of_nat i)).
    { intros i k Hk. pose proof (mapM_seq_nth _ _ _ _ _ Ha Hk) as Hs.
      unfold ComputeBudget.sort_key in Hs. bind_inv Hs. inversion Hs; eauto. }
    assert (Hnan : Forall (fun k => fnot_nan (fst k)) keys).
    { rewrite Forall_forall. intros k Hk. apply In_nth_error in Hk.
      destruct Hk as (i & Hk). destruct (Hkey _ _ Hk) as (fr & Hfr & ->).
      eapply frac_not_nan; eauto. }
    exists (sorted_by_key_reverse keys).
    assert (Hperm : Permutation (sorted_by_key_reverse keys) (seq 0 n)).
    { rewrite <- Hlen. apply sorted_by_key_reverse_perm. }
    split; [exact Hperm|]. split.
    + intros p q i j Hpq Hp Hq.
      destruct (sorted_by_key_reverse_ordered keys p q i j Hnan Hpq Hp Hq)
        as (ki & kj & Hki & Hkj & Hge).
      destruct (Hkey _ _ Hki) as (fi & Hfi & ->).
      destruct (Hkey _ _ Hkj) as (fj & Hfj & ->).
      exists fi, fj. repeat split; auto.
      apply key_ge_ranks_before; auto.
      * eapply frac_not_nan; eauto.
      * eapply frac_not_nan; eauto.
      * eapply indices_distinct; eauto.
    + apply distribute_picks in H. destruct H as (js & Hjs & Hnth).
      apply picks_index in Hjs. cbn [skipn] in Hjs. subst js. exact Hnth.
  - unfold NoBinarySearch.largest_remainder in H.
    rewrite Hints in H. cbn [bind] in H. rewrite Hpos in H.
    bind_inv H. rename a into keys.
    assert (Hlen : length keys = n).
    { rewrite (mapM_length _ _ _ Ha). apply length_seq. }
    assert (Hkey : forall i k, nth_error keys i = Some k ->
                               exists fr r, frac floats ints i = Ok fr
                                            /\ round_ndigits fr 10 = Ok r
                                            /\ k = (r, - Z.of_nat i)).
    { intros i k Hk. pose proof (mapM_seq_nth _ _ _ _ _ Ha Hk) as Hs.
      unfold NoBinarySearch.sort_key in Hs. bind_inv Hs. bind_inv Hs.
      inversion Hs; eauto. }
    assert (Hnan : Forall (fun k => fnot_nan (fst k)) keys).
    { rewrite Forall_forall. intros k Hk. apply In_nth_error in Hk.
      destruct Hk as (i & Hk). destruct (Hkey _ _ Hk) as (fr & r & Hfr & Hr & ->).
      eapply round_ndigits_not_nan; [|exact Hr]. eapply frac_not_nan; eauto. }
    exists (sorted_by_key_reverse keys).
    assert (Hperm : Permutation (sorted_by_key_reverse keys) (seq 0 n)).
    { rewrite <- Hlen. apply sorted_by_key_reverse_perm. }
    split; [exact Hperm|]. split.
    + intros p q i j Hpq Hp Hq.
      destruct (sorted_by_key_reverse_ordered keys p q i j Hnan Hpq Hp Hq)
        as (ki & kj & Hki & Hkj & Hge).
      destruct (Hkey _ _ Hki) as (fi & ri & Hfi & Hri & ->).
      destruct (Hkey _ _ Hkj) as (fj & rj & Hfj & Hrj & ->).
      exists fi, fj, ri, rj. repeat split; auto.
      apply key_ge_ranks_before; auto.
      * eapply round_ndigits_not_nan; [|exact Hri]. eapply frac_not_nan; eauto.
      * eapply round_ndigits_not_nan; [|exact Hrj]. eapply frac_not_nan; eauto.
      * eapply indices_distinct; eauto.
    + apply distribute_picks in H. destruct H as (js & Hjs & Hnth).
      apply picks_round_robin in Hjs. subst js. exact Hnth.
Qed.

Definition two_citizens_four_subjects : list (list Z) :=
  [[1; 3; 9; 17]; [40; 40; 40; 40]].

(** C8: on the input below the claim does not hold of both functions,
    for they hand out the three extra units in different orders.  The
    floors are 3, 4, 7, 11.  The float remainders of subjects 0, 1, 2 are
    equal (0.74999993291996514) and that of subject 3 is larger by 2^-50
    (0.74999993291996603); rounded to ten decimals all four are
    0.7499999329.  [compute_budget] sorts on the remainders as they are
    (line 81) and serves subjects 3, 0, 1; its sibling sorts on the rounded
    remainders (line 162) and serves subjects 0, 1, 2, so that subject 3,
    whose remainder is the largest, receives nothing.  (In exact arithmetic
    the allocations are 3.75, 4.75, 7.75, 11.75: the four remainders tie
    and the lowest indices 0, 1, 2 come first.) *)
Theorem remainder_order_diverges :
  exists floats f0 f1 f2 f3 r,
    ComputeBudget.floats_of 28 two_citizens_four_subjects 4 = Ok floats
    /\ NoBinarySearch.floats_of 28 two_citizens_four_subjects 4 = Ok floats
    /\ floors floats = Ok [3; 4; 7; 11]
    /\ frac floats [3; 4; 7; 11] 0 = Ok f0
    /\ frac floats [3; 4; 7; 11] 1 = Ok f1
    /\ frac floats [3; 4; 7; 11] 2 = Ok f2
    /\ frac floats [3; 4; 7; 11] 3 = Ok f3
    /\ (f0 =? f1)%float = true /\ (f1 =? f2)%float = true
    /\ (f2 <? f3)%float = true
    /\ round_ndigits f0 10 = Ok r /\ round_ndigits f1 10 = Ok r
    /\ round_ndigits f2 10 = Ok r /\ round_ndigits f3 10 = Ok r
    /\ compute_budget 28 two_citizens_four_subjects = Ok [4; 5; 7; 12]
    /\ no_binary_search_compute_budget 28 two_citizens_four_subjects
       = Ok [4; 5; 8; 11].
Proof.
  eexists _, _, _, _, _, _.
  repeat (split; [vm_compute; reflexivity|]).
  vm_compute. reflexivity.
Qed.

Lemma units_follow_sorted_remainders_example :
  (exists indices,
      Permutation indices (seq 0 4)
      /\ forall j, nth j [4; 5; 7; 12] 0
                   = nth j [3; 4; 7; 11] 0 + units_of (firstn 3 indices) j)
  /\ (exists indices,
      Permutation indices (seq 0 4)
      /\ forall j, nth j [4; 5; 8; 11] 0
                   = nth j [3; 4; 7; 11] 0
                     + units_of (map (fun k => nth (Nat.modulo k 4) indices O)
                                     (seq 0 3)) j).
Proof.
  pose (floats := [3.7499999329199651; 4.7499999329199651;
                   7.7499999329199651; 11.749999932919966]%float).
  assert (H1 : floors floats = Ok [3; 4; 7; 11]) by (vm_compute; reflexivity).
  assert (H2 : 0 < 28 - sum [3; 4; 7; 11]) by (vm_compute; reflexivity).
  destruct (units_follow_sorted_remainders 28 4 floats [3; 4; 7; 11] H1 H2)
    as [Hcb Hnbs].
  split.
  - destruct (Hcb [4; 5; 7; 12]) as (indices & Hperm & _ & Hunits).
    + vm_compute. reflexivity.
    + exists indices. split; [exact Hperm | exact Hunits].
  - destruct (Hnbs [4; 5; 8; 11]) as (indices & Hperm & _ & Hunits).
    + vm_compute. reflexivity.
    + exists indices. split; [exact Hperm | exact Hunits].
Defined.

(** ** A shortfall larger than the number of subjects *)

Lemma picks_defined (pick : nat -> result nat) (count i k : nat) (js : list nat) :
  picks pick i count = Ok js -> (k < count)%nat -> exists j, pick (i + k)%nat = Ok j.
Proof.
  revert i k js; induction count as [|count IH]; intros i k js H Hk; [lia|].
  cbn in H. bind_inv H. bind_inv H.
  destruct k as [|k].
  - rewrite Nat.add_0_r. eauto.
  - replace (i + S k)%nat with (S i + k)%nat by lia. eapply IH; eauto. lia.
Qed.

(** [compute_budget] reads [indices[i]] as it is: past the end of the
    list the lookup fails. *)
Lemma largest_remainder_overdraw (total_budget : Z) (n : nat)
      (floats : list float) (ints : list Z) :
  floors floats = Ok ints ->
  Z.of_nat n < total_budget - sum ints ->
  forall l, ComputeBudget.largest_remainder total_budget n floats <> Ok l.
Proof.
  intros Hints Hlt l H. unfold ComputeBudget.largest_remainder in H.
  rewrite Hints in H. cbn [bind] in H.
  destruct (Z.ltb_spec 0 (total_budget - sum ints)); [|lia].
  bind_inv H. rename a into keys.
  apply distribute_picks in H. destruct H as (js & Hjs & _).
  destruct (picks_defined _ _ 0 n _ Hjs) as (j & Hj); [lia|].
  cbn in Hj. unfold index in Hj.
  destruct (nth_error (sorted_by_key_reverse keys) n) eqn:E; [|discriminate].
  assert (Hn : (n < length (sorted_by_key_reverse keys))%nat).
  { apply nth_error_Some. congruence. }
  rewrite sorted_by_key_reverse_length, (mapM_length _ _ _ Ha), length_seq in Hn.
  lia.
Qed.

(** [no_binary_search_compute_budget] reads [indices[i % num_subjects]]:
    with at least one subject every lookup succeeds and the loop runs to
    its end, however large the shortfall. *)
Lemma largest_remainder_round_robin (total_budget : Z) (n : nat)
      (floats : list float) (ints : list Z) (keys : list key) :
  floors floats = Ok ints ->
  mapM (NoBinarySearch.sort_key floats ints) (seq 0 n) = Ok keys ->
  length floats = n -> (0 < n)%nat ->
  exists l, NoBinarySearch.largest_remainder total_budget n floats = Ok l.
Proof.
  intros Hints Hkeys Hlen Hn. unfold NoBinarySearch.largest_remainder.
  rewrite Hints. cbn [bind]. destruct (0 <? total_budget - sum ints); [|eauto].
  rewrite Hkeys. cbn [bind].
  assert (Hk : length keys = n).
  { rewrite (mapM_length _ _ _ Hkeys). apply length_seq. }
  apply (distribute_total _ n).
  - intros i. unfold mod_nat. destruct n as [|n']; [lia|]. cbn [bind].
    set (m := Nat.modulo i (S n')).
    assert (Hm : (m < S n')%nat) by (apply Nat.mod_upper_bound; lia).
    unfold index.
    destruct (nth_error (sorted_by_key_reverse keys) m) as [j|] eqn:E.
    + exists j. split; [reflexivity|].
      assert (Hin : In j (seq 0 (S n'))).
      { eapply Permutation_in.
        - rewrite <- Hk. apply sorted_by_key_reverse_perm.
        - eapply nth_error_In, E. }
      apply in_seq in Hin. lia.
    + apply nth_error_None in E. rewrite sorted_by_key_reverse_length in E. lia.
  - rewrite (mapM_length _ _ _ Hints). exact Hlen.
Qed.

Definition three_single_minded_citizens : list (list Z) :=
  [[100; 0; 0]; [0; 100; 0]; [0; 0; 100]].

(** C6: three citizens who each put the whole budget of 100 on a subject
    of their own.  Every median is 0, the shortfall is 100 for 3 subjects:
    [no_binary_search_compute_budget] goes round the subjects and returns,
    [compute_budget] fails on [indices[3]]. *)
Theorem shortfall_beyond_subject_count :
  compute_budget 100 three_single_minded_citizens = Raise IndexError
  /\ no_binary_search_compute_budget 100 three_single_minded_citizens
     = Ok [34; 33; 33].
Proof. split; vm_compute; reflexivity. Qed.

(** ** A budget of zero *)

(** Two citizens who both give a positive amount: the median with the two
    phantoms is already 1.5 at x = 0, no segment brackets 0, and the
    function returns the allocation at the largest breakpoint. *)
Lemma zero_budget_positive_medians :
  compute_budget 0 [[3]; [5]] = Ok [4]
  /\ no_binary_search_compute_budget 0 [[3]; [5]] = Ok [4].
Proof. split; vm_compute; reflexivity. Qed.

(** The phantom values that are a zero: the int [0] and the float [0.0]. *)
Definition zero_like (x : num) : Prop := x = PInt 0 \/ x = PFloat 0.

(** Values of the numbers that occur when x is a zero. *)
Definition zval (a : num) : Z :=
  match a with
  | PInt z => z
  | PFloat _ => 0
  end.

Definition int_or_zero (a : num) : Prop :=
  match a with
  | PInt _ => True
  | PFloat f => f = 0%float
  end.

Lemma lt_zval (a b : num) :
  int_or_zero a -> int_or_zero b -> Py.lt a b = (zval a <? zval b).
Proof.
  destruct a as [x|f], b as [y|g]; cbn [int_or_zero]; intros Ha Hb; subst.
  - unfold Py.lt. cbn. now destruct (Z.compare_spec x y), (Z.ltb_spec x y); try lia.
  - unfold Py.lt, Py.compare, compare_int_float.
    change (Prim2SF 0) with (S754_zero false). cbn.
    now destruct (Z.compare_spec x 0), (Z.ltb_spec x 0); try lia.
  - unfold Py.lt, Py.compare, compare_int_float.
    change (Prim2SF 0) with (S754_zero false). cbn.
    now destruct (Z.compare_spec y 0), (Z.ltb_spec 0 y); try lia.
  - reflexivity.
Qed.

Lemma zeros_first (l : list Z) :
  StronglySorted Z.le l -> Forall (fun v => 0 <= v) l ->
  forall i, (i < count_occ Z.eq_dec l 0%Z)%nat -> nth_error l i = Some 0.
Proof.
  induction 1 as [|a l Hs IH Hall]; intros Hpos i Hi; cbn in *; [lia|].
  inversion Hpos as [|? ? Ha Hpos']; subst.
  destruct (Z.eq_dec a 0) as [->|Hne].
  - destruct i as [|i]; [reflexivity|]. cbn. apply IH; auto. lia.
  - exfalso. assert (H0 : count_occ Z.eq_dec l 0 = O); [|lia].
    apply count_occ_not_In. intros Hin.
    rewrite Forall_forall in Hall. specialize (Hall 0 Hin). lia.
Qed.

Lemma count_occ_perm (l l' : list Z) (z : Z) :
  Permutation l l' -> count_occ Z.eq_dec l z = count_occ Z.eq_dec l' z.
Proof.
  induction 1; cbn; try congruence.
  - now rewrite IHPermutation.
  - destruct (Z.eq_dec y z), (Z.eq_dec x z); reflexivity.
Qed.

(** With enough zero votes the middle of the sorted list is made of
    zeros. *)
Section ZeroMiddle.
Variables (votes : list Z) (x : num).
Hypothesis votes_nonneg : Forall (fun v => 0 <= v) votes.
Hypothesis x_zero : zero_like x.
Hypothesis half_zero :
  (Nat.div (length votes) 2 <= count_occ Z.eq_dec votes 0%Z)%nat.

Let arr := sorted Py.lt (map PInt votes ++ [PInt 0; x]).

Lemma arr_domain : Forall int_or_zero arr.
Proof.
  assert (H : Forall int_or_zero (map PInt votes ++ [PInt 0; x])).
  { apply Forall_app. split.
    - rewrite Forall_forall. intros a Ha. apply in_map_iff in Ha.
      now destruct Ha as (v & <- & _).
    - destruct x_zero; subst; repeat constructor. }
  rewrite Forall_forall in *. intros a Ha. apply H.
  eapply Permutation_in; [apply sorted_perm | exact Ha].
Qed.

Lemma arr_zvals_sorted : StronglySorted Z.le (map zval arr).
Proof.
  pose proof arr_domain as Hd.
  assert (Hs : StronglySorted (fun a b => Py.lt b a = false) arr).
  { apply (sorted_sorted Py.lt int_or_zero).
    - intros a b Ha Hb. rewrite !lt_zval by assumption.
      rewrite Z.ltb_lt, Z.ltb_ge. lia.
    - intros a b c Ha Hb Hc. rewrite !lt_zval by assumption.
      rewrite !Z.ltb_ge. lia.
    - rewrite Forall_forall in *. intros a Ha. apply Hd.
      eapply Permutation_in; [symmetry; apply sorted_perm | exact Ha]. }
  clear -Hs Hd. induction Hs as [|a l Hs IH Hall]; cbn; constructor.
  - inversion Hd; auto.
  - inversion Hd as [|? ? Ha Hl]; subst. rewrite Forall_forall in *.
    intros z Hz. apply in_map_iff in Hz. destruct Hz as (b & <- & Hb).
    specialize (Hall b Hb). rewrite lt_zval in Hall by auto.
    apply Z.ltb_ge in Hall. exact Hall.
Qed.

Lemma arr_zvals : Permutation (map zval arr) (votes ++ [0; 0]).
Proof.
  unfold arr. rewrite (Permutation_map zval (sorted_perm _ _)).
  rewrite map_app, map_map. cbn [map zval].
  rewrite map_id. destruct x_zero; subst; reflexivity.
Qed.

Lemma arr_middle (i : nat) :
  (i <= Nat.div (length votes + 2) 2)%nat ->
  exists a, nth_error arr i = Some a /\ zero_like a.
Proof.
  intros Hi.
  assert (Hc : count_occ Z.eq_dec (map zval arr) 0
               = (count_occ Z.eq_dec votes 0%Z + 2)%nat).
  { rewrite (count_occ_perm _ _ 0 arr_zvals), count_occ_app. reflexivity. }
  assert (Hn : nth_error (map zval arr) i = Some 0).
  { apply zeros_first.
    - apply arr_zvals_sorted.
    - rewrite Forall_forall. intros z Hz.
      apply (Permutation_in _ arr_zvals) in Hz. apply in_app_or in Hz.
      destruct Hz as [Hz|Hz].
      + rewrite Forall_forall in votes_nonneg. now apply votes_nonneg.
      + cbn in Hz. lia.
    - rewrite Hc.
      replace (length votes + 2)%nat with (1 * 2 + length votes)%nat in Hi by lia.
      rewrite Nat.div_add_l in Hi by lia. lia. }
  rewrite nth_error_map in Hn.
  destruct (nth_error arr i) as [a|] eqn:Ea; [|discriminate].
  exists a. split; [reflexivity|]. cbn in Hn. inversion Hn as [Hz].
  pose proof arr_domain as Hd. rewrite Forall_forall in Hd.
  specialize (Hd a (nth_error_In _ _ Ea)).
  destruct a as [z|f]; cbn in *; [left | right]; congruence.
Qed.

Lemma zero_allocation : get_subject_allocation votes x = Ok 0%float.
Proof.
  unfold get_subject_allocation. fold arr.
  assert (Hlen : length arr = (length votes + 2)%nat).
  { unfold arr. rewrite sorted_length, length_app, length_map. reflexivity. }
  rewrite Hlen.
  destruct (arr_middle (Nat.div (length votes + 2) 2)) as (b & Hb & Zb); [lia|].
  destruct (arr_middle (Nat.div (length votes + 2) 2 - 1)) as (a & Ha & Za); [lia|].
  unfold index. rewrite Ha, Hb. cbn [bind].
  destruct (Nat.eqb _ 1); destruct Za, Zb; subst; vm_compute; reflexivity.
Qed.
End ZeroMiddle.

(** Medians at a breakpoint are non-negative floats. *)
Lemma float_of_int_nonneg (z : Z) (f : float) :
  0 <= z -> float_of_int z = Ok f -> fnonneg f.
Proof.
  unfold float_of_int. intros Hz H.
  assert (f = SF2Prim (binary_normalize prec emax z 0 false)) as ->.
  { destruct (binary_normalize prec emax z 0 false); try discriminate; congruence. }
  apply SF2Prim_nonneg, SF.binary_normalize_nonneg, Hz.
Qed.

Lemma half_nonneg (f : float) : fnonneg f -> fnonneg (f / 2)%float.
Proof.
  unfold fnonneg. rewrite div_spec.
  change (Prim2SF 2) with (S754_finite false 4503599627370496 (-51)).
  unfold SF64div. destruct (Prim2SF f) as [s|s| |s m e]; cbn [SF.nonneg];
    try tauto; intros ->.
  - reflexivity.
  - apply SF.signed_false_nonneg, (SF.SFdiv_signed false false).
Qed.

Lemma allocation_nonneg (votes : list Z) (b : Z) (f : float) :
  Forall (fun v => 0 <= v) votes -> 0 <= b ->
  get_subject_allocation votes (PInt b) = Ok f -> fnonneg f.
Proof.
  intros Hv Hb H. unfold get_subject_allocation in H.
  set (arr := sorted Py.lt _) in H.
  assert (Harr : forall a, In a arr -> exists z, a = PInt z /\ 0 <= z).
  { intros a Ha. apply (Permutation_in _ (sorted_perm _ _)) in Ha.
    apply in_app_or in Ha. destruct Ha as [Ha|Ha].
    - apply in_map_iff in Ha. destruct Ha as (v & <- & Hin).
      rewrite Forall_forall in Hv. eauto.
    - cbn in Ha. destruct Ha as [<-|[<-|[]]]; eexists; split; eauto; lia. }
  assert (Hidx : forall i a, index arr i = Ok a -> exists z, a = PInt z /\ 0 <= z).
  { intros i a Hi. unfold index in Hi.
    destruct (nth_error arr i) eqn:E; [|discriminate]. inversion Hi; subst.
    eapply Harr, nth_error_In, E. }
  destruct (Nat.eqb _ 1).
  - bind_inv H. destruct (Hidx _ _ Ha) as (z & -> & Hz).
    eapply float_of_int_nonneg; eauto.
  - bind_inv H. bind_inv H.
    destruct (Hidx _ _ Ha) as (z & -> & Hz).
    destruct (Hidx _ _ Ha0) as (z' & -> & Hz').
    cbn [Py.add bind] in H. unfold truediv in H. cbn [to_float] in H.
    bind_inv H. cbn [bind] in H.
    change (2 =? 0)%float with false in H. inversion H; subst.
    apply half_nonneg. eapply float_of_int_nonneg; [|exact Ha1]. lia.
Qed.

Lemma nonneg_ge_zero (f : float) : fnonneg f -> Py.le (PInt 0) (PFloat f) = true.
Proof.
  unfold fnonneg, Py.le, Py.compare, compare_int_float.
  destruct (Prim2SF f) as [s|s| |s m e]; cbn [SF.nonneg]; try tauto.
  - intros ->. reflexivity.
  - intros ->. cbn [cond_Zopp].
    destruct (Z.leb_spec 0 e) as [He|He].
    + assert (0 < Zpos m * 2 ^ e).
      { apply Z.mul_pos_pos; [lia|]. now apply Z.pow_pos_nonneg. }
      now destruct (Z.compare_spec 0 (Zpos m * 2 ^ e)); try lia.
    + cbn. reflexivity.
Qed.

(** The totals of [get_total_and_slope]. *)
Definition zero_medians (vps : list (list Z)) : Prop :=
  Forall (fun votes => forall x, zero_like x ->
                                 get_subject_allocation votes x = Ok 0%float) vps.

Definition nonneg_votes (vps : list (list Z)) : Prop :=
  Forall (Forall (fun v => 0 <= v)) vps.

Lemma cb_loop_nonneg (b : Z) (vps : list (list Z)) :
  nonneg_votes vps -> 0 <= b ->
  forall total slope t s,
    fnonneg total ->
    ComputeBudget.total_and_slope_loop (PInt b) vps total slope = Ok (t, s) ->
    fnonneg t.
Proof.
  intros Hv Hb. induction Hv as [|votes vps Hvotes _ IH]; intros total slope t s Ht H.
  - cbn in H. now inversion H; subst.
  - cbn [ComputeBudget.total_and_slope_loop] in H.
    bind_inv H. bind_inv H. bind_inv H. bind_inv H.
    eapply IH; [|exact H]. apply add_nonneg; [exact Ht|].
    eapply allocation_nonneg; eauto.
Qed.

Lemma nbs_loop_nonneg (b : Z) (vps : list (list Z)) :
  nonneg_votes vps -> 0 <= b ->
  forall total slope t s,
    fnonneg total ->
    NoBinarySearch.total_and_slope_loop (PInt b) vps total slope = Ok (t, s) ->
    fnonneg t.
Proof.
  intros Hv Hb. induction Hv as [|votes vps Hvotes _ IH]; intros total slope t s Ht H.
  - cbn in H. now inversion H; subst.
  - cbn [NoBinarySearch.total_and_slope_loop] in H.
    bind_inv H. bind_inv H. bind_inv H. bind_inv H.
    eapply IH; [|exact H]. apply add_nonneg; [exact Ht|].
    eapply allocation_nonneg; eauto.
Qed.

Lemma cb_loop_zero (vps : list (list Z)) :
  zero_medians vps ->
  forall slope t s,
    ComputeBudget.total_and_slope_loop (PInt 0) vps 0%float slope = Ok (t, s) ->
    t = 0%float.
Proof.
  induction 1 as [|votes vps Hz _ IH]; intros slope t s H.
  - cbn in H. now inversion H.
  - cbn [ComputeBudget.total_and_slope_loop] in H.
    rewrite (Hz (PInt 0)) in H by now left. cbn [bind] in H.
    bind_inv H. bind_inv H. bind_inv H.
    change (0 + 0)%float with 0%float in H. eapply IH, H.
Qed.

Lemma nbs_loop_zero (vps : list (list Z)) :
  zero_medians vps ->
  forall slope t s,
    NoBinarySearch.total_and_slope_loop (PInt 0) vps 0%float slope = Ok (t, s) ->
    t = 0%float.
Proof.
  induction 1 as [|votes vps Hz _ IH]; intros slope t s H.
  - cbn in H. now inversion H.
  - cbn [NoBinarySearch.total_and_slope_loop] in H.
    rewrite (Hz (PInt 0)) in H by now left. cbn [bind] in H.
    bind_inv H. bind_inv H. bind_inv H.
    change (0 + 0)%float with 0%float in H. eapply IH, H.
Qed.

(** In [compute_budget] the slope is the int 0 until a float is added. *)
Definition int0_or_float (s : num) : Prop := s = PInt 0 \/ exists f, s = PFloat f.

Lemma cb_loop_slope (x : num) (vps : list (list Z)) :
  forall total slope t s,
    int0_or_float slope ->
    ComputeBudget.total_and_slope_loop x vps total slope = Ok (t, s) ->
    int0_or_float s.
Proof.
  induction vps as [|votes vps IH]; intros total slope t s Hs H.
  - cbn in H. now inversion H; subst.
  - cbn [ComputeBudget.total_and_slope_loop] in H.
    bind_inv H. bind_inv H. bind_inv H. bind_inv H.
    eapply IH; [|exact H].
    destruct (a <? a1)%float; [|now inversion Ha2; subst].
    bind_inv Ha2. right.
    destruct slope; cbn [Py.add] in Ha2; bind_inv Ha2; bind_inv Ha2;
      inversion Ha2; eauto.
Qed.

(** The phantom value found for a budget of zero is a zero. *)
Lemma gt_tolerance (s : float) :
  Py.gt (PFloat s) (PFloat 1e-9) = true ->
  (s =? 0)%float = false /\ (0 / s)%float = 0%float.
Proof.
  unfold Py.gt, Py.lt, Py.compare, compare_float.
  rewrite compare_spec, eqb_spec. intros H.
  assert (E : Prim2SF (0 / s)%float = S754_zero false
              /\ SFeqb (Prim2SF s) (Prim2SF 0) = false).
  { rewrite div_spec. revert H.
    change (Prim2SF 1e-9) with (S754_finite false 4835703278458517 (-82)).
    change (Prim2SF 0) with (S754_zero false).
    destruct (Prim2SF s) as [s'|s'| |s' m e]; cbn; try discriminate.
    - destruct s'; [discriminate|]. now split.
    - destruct s'; [discriminate|]. now split. }
  destruct E as [E1 E2]. split; [exact E2|].
  apply Prim2SF_inj. rewrite E1. reflexivity.
Qed.

Lemma interpolate_zero_cb (slope : num) (x : num) :
  int0_or_float slope ->
  ComputeBudget.interpolate 0 0 0%float slope = Ok x -> zero_like x.
Proof.
  intros Hs H. unfold ComputeBudget.interpolate in H.
  destruct Hs as [->|(s & ->)].
  - change (Py.gt (PInt 0) (PFloat 1e-9)) with false in H. inversion H. now left.
  - destruct (Py.gt (PFloat s) (PFloat 1e-9)) eqn:E; [|inversion H; now left].
    destruct (gt_tolerance s E) as [Hne Hq].
    change (Py.sub (PInt 0) (PFloat 0)) with (Ok (PFloat 0)) in H.
    cbn [bind truediv to_float] in H. rewrite Hne, Hq in H.
    cbn [bind] in H. change (Py.add (PInt 0) (PFloat 0)) with (Ok (PFloat 0)) in H.
    inversion H. now right.
Qed.

Lemma interpolate_zero_nbs (slope : float) (x : num) :
  NoBinarySearch.interpolate 0 0 0%float slope = Ok x -> zero_like x.
Proof.
  intros H. unfold NoBinarySearch.interpolate in H.
  destruct (Py.gt (PFloat slope) (PFloat 1e-9)) eqn:E; [|inversion H; now left].
  destruct (gt_tolerance slope E) as [Hne Hq].
  change (Py.sub (PInt 0) (PFloat 0)) with (Ok (PFloat 0)) in H.
  cbn [bind truediv to_float] in H. rewrite Hne, Hq in H.
  cbn [bind] in H. change (Py.add (PInt 0) (PFloat 0)) with (Ok (PFloat 0)) in H.
  inversion H. now right.
Qed.

(** The breakpoints start at 0. *)
Lemma sorted_breaks_head (vps : list (list Z)) :
  nonneg_votes vps ->
  exists rest, sorted_breaks_of vps = 0 :: rest /\ Forall (fun b => 0 <= b) rest.
Proof.
  intros Hv. unfold sorted_breaks_of.
  set (l := nodup Z.eq_dec (0 :: concat vps)).
  assert (Hl : Forall (fun b => 0 <= b) l).
  { rewrite Forall_forall. intros b Hb. apply nodup_In in Hb.
    destruct Hb as [<-|Hb]; [lia|].
    apply in_concat in Hb. destruct Hb as (votes & Hvotes & Hb).
    unfold nonneg_votes in Hv. rewrite Forall_forall in Hv.
    specialize (Hv votes Hvotes). rewrite Forall_forall in Hv. now apply Hv. }
  assert (H0 : In 0 (sorted Z.ltb l)).
  { eapply Permutation_in; [symmetry; apply sorted_perm|].
    apply nodup_In. now left. }
  assert (Hpos : Forall (fun b => 0 <= b) (sorted Z.ltb l)).
  { rewrite Forall_forall in *. intros b Hb. apply Hl.
    eapply Permutation_in; [apply sorted_perm | exact Hb]. }
  assert (Hs : StronglySorted (fun a b => Z.ltb b a = false) (sorted Z.ltb l)).
  { apply (sorted_sorted Z.ltb (fun _ => True)).
    - intros a b _ _. rewrite Z.ltb_lt, Z.ltb_ge. lia.
    - intros a b c _ _ _. rewrite !Z.ltb_ge. lia.
    - rewrite Forall_forall. auto. }
  destruct (sorted Z.ltb l) as [|h rest]; [contradiction|].
  inversion Hs as [|? ? _ Hall]; subst. inversion Hpos as [|? ? Hh Hrest]; subst.
  exists rest. split; [|exact Hrest]. f_equal.
  destruct H0 as [->|H0]; [reflexivity|].
  rewrite Forall_forall in Hall. specialize (Hall 0 H0).
  apply Z.ltb_ge in Hall. lia.
Qed.

Lemma fnonneg_tolerance (f : float) : fnonneg f -> fnonneg (f + 1e-9)%float.
Proof. intros Hf. apply add_nonneg; [exact Hf|]. vm_compute. reflexivity. Qed.

Lemma target_x_zero_cb (vps : list (list Z)) (x : num) :
  nonneg_votes vps -> zero_medians vps ->
  ComputeBudget.target_x 0 vps = Ok x -> zero_like x.
Proof.
  intros Hv Hz H. unfold ComputeBudget.target_x in H.
  destruct (sorted_breaks_head vps Hv) as (rest & Hbr & Hrest). rewrite Hbr in H.
  destruct rest as [|b1 rest].
  - cbn [ComputeBudget.scan] in H. bind_inv H. destruct a as [sl kl].
    unfold ComputeBudget.get_total_and_slope in Ha.
    pose proof (cb_loop_zero _ Hz _ _ _ Ha) as ->.
    eapply interpolate_zero_cb; [|exact H].
    eapply cb_loop_slope; [|exact Ha]. now left.
  - rewrite ScanCB.scan_step_cb in H. bind_inv H. destruct a as [sl kl].
    bind_inv H. destruct a as [sh kh].
    unfold ComputeBudget.get_total_and_slope in Ha, Ha0.
    pose proof (cb_loop_zero _ Hz _ _ _ Ha) as ->.
    inversion Hrest as [|? ? Hb1 _]; subst.
    assert (Hsh : fnonneg sh).
    { eapply (cb_loop_nonneg b1 vps Hv Hb1); [|exact Ha0]. exact I. }
    unfold ScanCB.within in H.
    rewrite (nonneg_ge_zero _ (fnonneg_tolerance _ Hsh)) in H.
    change (Py.le (PFloat 0) (PInt 0)) with true in H. cbn [andb] in H.
    eapply interpolate_zero_cb; [|exact H].
    eapply cb_loop_slope; [|exact Ha]. now left.
Qed.

Lemma target_x_zero_nbs (vps : list (list Z)) (x : num) :
  nonneg_votes vps -> zero_medians vps ->
  NoBinarySearch.target_x 0 vps = Ok x -> zero_like x.
Proof.
  intros Hv Hz H. unfold NoBinarySearch.target_x in H.
  destruct (sorted_breaks_head vps Hv) as (rest & Hbr & Hrest). rewrite Hbr in H.
  destruct rest as [|b1 rest].
  - cbn [NoBinarySearch.scan] in H. bind_inv H. destruct a as [sl kl].
    unfold NoBinarySearch.get_total_and_slope in Ha.
    pose proof (nbs_loop_zero _ Hz _ _ _ Ha) as ->.
    eapply interpolate_zero_nbs, H.
  - rewrite ScanNBS.scan_step_nbs in H. bind_inv H. destruct a as [sl kl].
    bind_inv H. destruct a as [sh kh].
    unfold NoBinarySearch.get_total_and_slope in Ha, Ha0.
    pose proof (nbs_loop_zero _ Hz _ _ _ Ha) as ->.
    inversion Hrest as [|? ? Hb1 _]; subst.
    assert (Hsh : fnonneg sh).
    { eapply (nbs_loop_nonneg b1 vps Hv Hb1); [|exact Ha0]. exact I. }
    unfold ScanNBS.within in H.
    rewrite (nonneg_ge_zero _ (fnonneg_tolerance _ Hsh)) in H.
    change (Py.le (PFloat 0) (PInt 0)) with true in H. cbn [andb] in H.
    eapply interpolate_zero_nbs, H.
Qed.

(** Zero allocations floor to zeros and nothing is left to hand out. *)
Lemma zero_floats (vps : list (list Z)) (x : num) (floats : list float) :
  zero_medians vps -> zero_like x ->
  mapM (fun v => get_subject_allocation v x) vps = Ok floats ->
  Forall (fun f => f = 0%float) floats.
Proof.
  intros Hz Hx. revert floats. induction Hz as [|votes vps Hvotes _ IH];
    intros floats H; cbn in H.
  - inversion H. constructor.
  - rewrite (Hvotes x Hx) in H. cbn [bind] in H. bind_inv H.
    inversion H; subst. constructor; auto.
Qed.

Lemma zero_floors (floats : list float) (ints : list Z) :
  Forall (fun f => f = 0%float) floats -> floors floats = Ok ints ->
  Forall (fun a => a = 0) ints /\ sum ints = 0.
Proof.
  intros Hf. revert ints. induction Hf as [|f floats -> _ IH]; intros ints H.
  - inversion H. split; [constructor | reflexivity].
  - unfold floors in H. cbn [mapM] in H.
    change (Py.floor (0 + 1e-11)) with (Ok 0 : result Z) in H. cbn [bind] in H.
    bind_inv H. inversion H; subst. destruct (IH _ Ha) as [Hall Hsum].
    split; [now constructor|]. rewrite sum_cons. lia.
Qed.

Lemma zero_largest_remainder (floats : list float) :
  Forall (fun f => f = 0%float) floats ->
  forall n l,
    (ComputeBudget.largest_remainder 0 n floats = Ok l -> Forall (fun a => a = 0) l)
    /\ (NoBinarySearch.largest_remainder 0 n floats = Ok l
        -> Forall (fun a => a = 0) l).
Proof.
  intros Hf n l.
  unfold ComputeBudget.largest_remainder, NoBinarySearch.largest_remainder.
  split; intros H; bind_inv H; destruct (zero_floors _ _ Hf Ha) as [Hall Hsum];
    rewrite Hsum in H; cbn in H; now inversion H; subst.
Qed.

(** From the matrix to the sorted votes of each subject. *)
Lemma mapM_in {A B : Type} (f : A -> result B) (l : list A) (bs : list B) (b : B) :
  mapM f l = Ok bs -> In b bs -> exists a, In a l /\ f a = Ok b.
Proof.
  revert bs; induction l as [|a l IH]; intros bs H Hb; cbn in H.
  - inversion H; subst. contradiction.
  - bind_inv H. bind_inv H. inversion H; subst.
    destruct Hb as [<-|Hb].
    + exists a. split; [now left | assumption].
    + destruct (IH _ Ha0 Hb) as (a' & Hin & Hf). exists a'. split; [now right | assumption].
Qed.

Lemma column_nonneg (citizen_votes : list (list Z)) (j : nat) (col : list Z) :
  Forall (Forall (fun v => 0 <= v)) citizen_votes ->
  column citizen_votes j = Ok col -> Forall (fun v => 0 <= v) col.
Proof.
  intros Hv H. rewrite Forall_forall. intros v Hin.
  destruct (mapM_in _ _ _ _ H Hin) as (citizen & Hc & Hidx).
  unfold index in Hidx. destruct (nth_error citizen j) eqn:E; [|discriminate].
  inversion Hidx; subst. rewrite Forall_forall in Hv. specialize (Hv _ Hc).
  rewrite Forall_forall in Hv. eapply Hv, nth_error_In, E.
Qed.

Definition half_vote_zero (citizen_votes : list (list Z)) : Prop :=
  forall j col,
    column citizen_votes j = Ok col ->
    (Nat.div (length col) 2 <= count_occ Z.eq_dec col 0%Z)%nat.

Lemma votes_per_subject_zero (citizen_votes : list (list Z)) (n : nat)
      (vps : list (list Z)) :
  Forall (Forall (fun v => 0 <= v)) citizen_votes ->
  half_vote_zero citizen_votes ->
  votes_per_subject_of citizen_votes n = Ok vps ->
  nonneg_votes vps /\ zero_medians vps.
Proof.
  intros Hv Hhalf H.
  assert (Hin : forall votes, In votes vps ->
                              exists j col, column citizen_votes j = Ok col
                                            /\ votes = sorted Z.ltb col).
  { intros votes Hvotes. destruct (mapM_in _ _ _ _ H Hvotes) as (j & _ & Hj).
    bind_inv Hj. inversion Hj; subst. eauto. }
  split.
  - unfold nonneg_votes. rewrite Forall_forall. intros votes Hvotes.
    destruct (Hin _ Hvotes) as (j & col & Hcol & ->).
    pose proof (column_nonneg _ _ _ Hv Hcol) as Hc.
    rewrite Forall_forall in *. intros v Hin'. apply Hc.
    eapply Permutation_in; [apply sorted_perm | exact Hin'].
  - unfold zero_medians. rewrite Forall_forall. intros votes Hvotes x Hx.
    destruct (Hin _ Hvotes) as (j & col & Hcol & ->).
    pose proof (column_nonneg _ _ _ Hv Hcol) as Hc.
    apply zero_allocation; [|exact Hx|].
    + rewrite Forall_forall in *. intros v Hin'. apply Hc.
      eapply Permutation_in; [apply sorted_perm | exact Hin'].
    + rewrite sorted_length, (count_occ_perm _ _ 0 (sorted_perm Z.ltb col)).
      now apply (Hhalf j).
Qed.

(** When, for every subject, at least half of the citizens (rounded down)
    vote 0, a list returned for a budget of 0 is a list of zeros, in both
    functions. *)
Lemma zero_budget_zeros (first : list Z) (rest : list (list Z)) :
  Forall (Forall (fun v => 0 <= v)) (first :: rest) ->
  half_vote_zero (first :: rest) ->
  (forall l, compute_budget 0 (first :: rest) = Ok l -> Forall (fun a => a = 0) l)
  /\ (forall l, no_binary_search_compute_budget 0 (first :: rest) = Ok l
                -> Forall (fun a => a = 0) l).
Proof.
  intros Hv Hhalf. split; intros l H.
  - unfold compute_budget in H. cbn zeta in H. bind_inv H. rename a into floats.
    unfold ComputeBudget.floats_of in Ha. bind_inv Ha. bind_inv Ha.
    destruct (votes_per_subject_zero _ _ _ Hv Hhalf Ha0) as [Hn Hz].
    pose proof (target_x_zero_cb _ _ Hn Hz Ha1) as Hx.
    pose proof (zero_floats _ _ _ Hz Hx Ha) as Hf.
    exact (proj1 (zero_largest_remainder floats Hf (length first) l) H).
  - unfold no_binary_search_compute_budget in H. cbn zeta in H.
    bind_inv H. rename a into floats.
    unfold NoBinarySearch.floats_of in Ha. bind_inv Ha. bind_inv Ha.
    destruct (votes_per_subject_zero _ _ _ Hv Hhalf Ha0) as [Hn Hz].
    pose proof (target_x_zero_nbs _ _ Hn Hz Ha1) as Hx.
    pose proof (zero_floats _ _ _ Hz Hx Ha) as Hf.
    exact (proj2 (zero_largest_remainder floats Hf (length first) l) H).
Qed.

(** ** The two functions side by side *)

(** C2: on the input below both functions return and the lists differ.
    The floors are 3, 4, 7, 11 and three units are left; the remainders of
    subjects 0, 1, 2 are 0.74999993291996514 and that of subject 3 is
    0.74999993291996603.  [compute_budget] sorts on the remainders as they
    are and serves subjects 3, 0, 1; [no_binary_search_compute_budget]
    sorts on the remainders rounded to ten decimals, all equal, and serves
    subjects 0, 1, 2.  On [three_single_minded_citizens] one function
    raises and the other returns. *)
Theorem outputs_differ :
  compute_budget 28 two_citizens_four_subjects = Ok [4; 5; 7; 12]
  /\ no_binary_search_compute_budget 28 two_citizens_four_subjects
     = Ok [4; 5; 8; 11]
  /\ compute_budget 100 three_single_minded_citizens
     <> no_binary_search_compute_budget 100 three_single_minded_citizens.
Proof.
  split; [|split].
  - vm_compute. reflexivity.
  - vm_compute. reflexivity.
  - vm_compute. discriminate.
Qed.

(** ** Exact values and correct rounding

    Every finite double is a multiple of 2^-1074; values are kept as
    integers in units of 2^-1075, so that halves are integers as well. *)

Module Exact.

Definition unit_exp : Z := -1075.

(** The exact value of a finite spec float, in units of 2^-1075. *)
Definition sf_val (x : spec_float) : Z :=
  match x with
  | S754_finite s m e => cond_Zopp s (Zpos m * 2 ^ (e + 1075))
  | _ => 0
  end.

Definition sf_finite (x : spec_float) : Prop :=
  match x with
  | S754_zero _ | S754_finite _ _ _ => True
  | _ => False
  end.

Lemma digits2_bounds (m : positive) :
  2 ^ (Zpos (digits2_pos m) - 1) <= Zpos m < 2 ^ Zpos (digits2_pos m).
Proof.
  induction m as [m IH|m IH|]; cbn [digits2_pos].
  - rewrite Pos2Z.inj_succ, Z.pow_succ_r by lia.
    replace (Z.succ (Zpos (digits2_pos m)) - 1) with (Z.succ (Zpos (digits2_pos m) - 1)) by lia.
    rewrite Z.pow_succ_r by lia. lia.
  - rewrite Pos2Z.inj_succ, Z.pow_succ_r by lia.
    replace (Z.succ (Zpos (digits2_pos m)) - 1) with (Z.succ (Zpos (digits2_pos m) - 1)) by lia.
    rewrite Z.pow_succ_r by lia. lia.
  - cbn. lia.
Qed.

(** The number of binary digits of a positive integer. *)
Definition digits (V : Z) : Z := Z.log2 V + 1.

Lemma digits_pos (m : positive) : Zdigits2 (Zpos m) = digits (Zpos m).
Proof.
  unfold digits. cbn [Zdigits2]. pose proof (digits2_bounds m) as [Hl Hu].
  assert (H : Z.log2 (Zpos m) = Zpos (digits2_pos m) - 1); [|lia].
  apply Z.log2_unique; [lia|].
  replace (Z.succ (Zpos (digits2_pos m) - 1)) with (Zpos (digits2_pos m)) by lia.
  split; assumption.
Qed.

Lemma digits_bounds (V : Z) : 0 < V -> 2 ^ (digits V - 1) <= V < 2 ^ digits V.
Proof.
  intros HV. unfold digits. replace (Z.log2 V + 1 - 1) with (Z.log2 V) by lia.
  apply Z.log2_spec, HV.
Qed.

Lemma digits_unique (V d : Z) : 0 < d -> 2 ^ (d - 1) <= V < 2 ^ d -> digits V = d.
Proof.
  intros Hd H. unfold digits.
  assert (E : Z.log2 V = d - 1); [|lia].
  apply Z.log2_unique; [lia|]. now replace (Z.succ (d - 1)) with d by lia.
Qed.

Lemma digits_mono (V W : Z) : 0 < V -> V <= W -> digits V <= digits W.
Proof. intros HV HW. unfold digits. pose proof (Z.log2_le_mono V W HW). lia. Qed.

Lemma digits_ge_1 (V : Z) : 0 < V -> 1 <= digits V.
Proof. intros HV. unfold digits. pose proof (Z.log2_nonneg V). lia. Qed.

Lemma digits_shift (V k : Z) : 0 < V -> 0 <= k -> digits (V * 2 ^ k) = digits V + k.
Proof.
  intros HV Hk. unfold digits. rewrite Z.log2_mul_pow2 by lia. lia.
Qed.

(** What validity says of a finite double. *)
Lemma valid_finite (s : bool) (m : positive) (e : Z) :
  valid_binary (S754_finite s m e) = true ->
  e = Z.max (digits (Zpos m) + e - 53) (-1074) /\ e <= 971.
Proof.
  cbn [valid_binary]. unfold bounded, canonical_mantissa, fexp, emin.
  intros H. apply andb_true_iff in H. destruct H as [H1 H2].
  apply Z.eqb_eq in H1. apply Z.leb_le in H2.
  rewrite <- digits_pos. cbn [Zdigits2].
  change (3 - emax - prec) with (-1074) in H1. change (emax - prec) with 971 in H2.
  change prec with 53 in H1. lia.
Qed.


(** *** Shifting right with a round bit and a sticky bit *)

Lemma iter_pos_nat {A : Type} (f : A -> A) (p : positive) (x : A) :
  iter_pos f p x = Nat.iter (Pos.to_nat p) f x.
Proof.
  assert (H : forall p x, iter_pos f p x = Pos.iter f x p).
  { clear. induction p as [p IH|p IH|]; intros x; cbn.
    - rewrite !IH. now rewrite <- !Pos.iter_swap.
    - now rewrite !IH.
    - reflexivity. }
  rewrite H. apply Pos2Nat.inj_iter.
Qed.

Lemma shr_1_spec (m : Z) (r s : bool) :
  0 <= m ->
  shr_1 (Build_shr_record m r s) = Build_shr_record (m / 2) (Z.odd m) (r || s).
Proof.
  intros Hm. rewrite <- Z.div2_div.
  destruct m as [|p|p]; [reflexivity | | lia].
  destruct p; reflexivity.
Qed.

Lemma shr_iter_spec (V : Z) (n : nat) :
  0 <= V ->
  Nat.iter (S n) shr_1 (Build_shr_record V false false)
  = Build_shr_record (V / 2 ^ Z.of_nat (S n))
                     (Z.odd (V / 2 ^ Z.of_nat n))
                     (negb (V mod 2 ^ Z.of_nat n =? 0)).
Proof.
  intros HV. induction n as [|n IH].
  - cbn [Nat.iter]. rewrite shr_1_spec by assumption.
    change (2 ^ Z.of_nat 1) with 2. change (2 ^ Z.of_nat 0) with 1.
    now rewrite Z.div_1_r, Z.mod_1_r.
  - change (Nat.iter (S (S n)) shr_1 ?x) with (shr_1 (Nat.iter (S n) shr_1 x)).
    rewrite IH.
    assert (Hp : 0 < 2 ^ Z.of_nat n) by (apply Z.pow_pos_nonneg; lia).
    rewrite shr_1_spec by (apply Z.div_pos; [lia | apply Z.pow_pos_nonneg; lia]).
    f_equal.
    + assert (E2 : 2 ^ Z.of_nat (S (S n)) = 2 ^ Z.of_nat (S n) * 2).
      { rewrite (Nat2Z.inj_succ (S n)), Z.pow_succ_r; lia. }
      rewrite E2. apply Z.div_div; [|lia].
      assert (0 < 2 ^ Z.of_nat (S n)) by (apply Z.pow_pos_nonneg; lia). lia.
    + rewrite (Nat2Z.inj_succ n), Z.pow_succ_r by lia.
      rewrite (Z.mul_comm 2), Z.rem_mul_r by lia.
      rewrite <- Z.bit0_mod, Z.bit0_odd.
      destruct (Z.odd (V / 2 ^ Z.of_nat n)); cbn [Z.b2z].
      * rewrite orb_true_l.
        pose proof (Z.mod_pos_bound V (2 ^ Z.of_nat n) Hp).
        symmetry. apply negb_true_iff, Z.eqb_neq. lia.
      * rewrite orb_false_l. now rewrite Z.mul_0_r, Z.add_0_r.
Qed.

Lemma div_half_even_spec (V : Z) (n : nat) :
  0 <= V ->
  let mrs := Nat.iter (S n) shr_1 (Build_shr_record V false false) in
  round_nearest_even (shr_m mrs) (loc_of_shr_record mrs)
  = div_half_even V (2 ^ Z.of_nat (S n)).
Proof.
  intros HV mrs. subst mrs. rewrite shr_iter_spec by assumption.
  cbn [shr_m]. unfold div_half_even.
  assert (Hp : 0 < 2 ^ Z.of_nat n) by (apply Z.pow_pos_nonneg; lia).
  assert (E : V mod 2 ^ Z.of_nat (S n)
              = V mod 2 ^ Z.of_nat n
                + 2 ^ Z.of_nat n * Z.b2z (Z.odd (V / 2 ^ Z.of_nat n))).
  { rewrite (Nat2Z.inj_succ n), Z.pow_succ_r by lia.
    rewrite (Z.mul_comm 2), Z.rem_mul_r by lia.
    now rewrite <- Z.bit0_mod, Z.bit0_odd. }
  rewrite E. rewrite (Nat2Z.inj_succ n), Z.pow_succ_r by lia.
  pose proof (Z.mod_pos_bound V (2 ^ Z.of_nat n) Hp) as Hlow.
  destruct (Z.odd (V / 2 ^ Z.of_nat n)); cbn [Z.b2z];
    destruct (Z.eqb_spec (V mod 2 ^ Z.of_nat n) 0) as [Hz|Hz]; cbn [negb loc_of_shr_record round_nearest_even].
  - rewrite Hz. replace (2 * (0 + 2 ^ Z.of_nat n * 1) ?= 2 * 2 ^ Z.of_nat n) with Eq; [reflexivity|].
    symmetry. apply Z.compare_eq_iff. lia.
  - replace (2 * (V mod 2 ^ Z.of_nat n + 2 ^ Z.of_nat n * 1) ?= 2 * 2 ^ Z.of_nat n) with Gt; [reflexivity|].
    symmetry. apply Z.compare_gt_iff. lia.
  - replace (2 * (V mod 2 ^ Z.of_nat n + 2 ^ Z.of_nat n * 0) ?= 2 * 2 ^ Z.of_nat n) with Lt; [reflexivity|].
    symmetry. apply Z.compare_lt_iff. lia.
  - replace (2 * (V mod 2 ^ Z.of_nat n + 2 ^ Z.of_nat n * 0) ?= 2 * 2 ^ Z.of_nat n) with Lt; [reflexivity|].
    symmetry. apply Z.compare_lt_iff. lia.
Qed.


(** *** Round half to even on integers *)

Lemma compare_scale (a b c : Z) : 0 < c -> (a * c ?= b * c) = (a ?= b).
Proof.
  intros Hc. destruct (Z.compare_spec a b) as [H|H|H].
  - apply Z.compare_eq_iff. now subst.
  - apply Z.compare_lt_iff. nia.
  - apply Z.compare_gt_iff. nia.
Qed.

Lemma div_half_even_scale (a b c : Z) :
  0 < b -> 0 < c -> div_half_even (a * c) (b * c) = div_half_even a b.
Proof.
  intros Hb Hc. unfold div_half_even.
  rewrite Z.div_mul_cancel_r, Z.mul_mod_distr_r by lia.
  rewrite Z.mul_assoc, compare_scale by lia. reflexivity.
Qed.

Lemma div_half_even_exact (a d : Z) : 0 < d -> div_half_even (a * d) d = a.
Proof.
  intros Hd. unfold div_half_even.
  rewrite Z.div_mul, Z.mod_mul by lia.
  destruct (Z.compare_spec (2 * 0) d); [lia | reflexivity | lia].
Qed.

Lemma div_half_even_bounds (a d : Z) :
  0 < d -> a / d <= div_half_even a d <= a / d + 1.
Proof.
  intros Hd. unfold div_half_even.
  destruct (2 * (a mod d) ?= d); [destruct (Z.even (a / d))| |]; lia.
Qed.

Lemma div_half_even_mono (a b d : Z) :
  0 < d -> a <= b -> div_half_even a d <= div_half_even b d.
Proof.
  intros Hd Hab.
  pose proof (Z.div_le_mono a b d Hd Hab) as Hq.
  pose proof (div_half_even_bounds a d Hd) as Ha.
  pose proof (div_half_even_bounds b d Hd) as Hb.
  destruct (Z.eq_dec (a / d) (b / d)) as [E|E]; [|lia].
  assert (Hr : a mod d <= b mod d).
  { pose proof (Z.div_mod a d). pose proof (Z.div_mod b d). rewrite E in *. nia. }
  unfold div_half_even. rewrite E.
  destruct (Z.compare_spec (2 * (a mod d)) d), (Z.compare_spec (2 * (b mod d)) d);
    destruct (Z.even (b / d)); lia.
Qed.

(** *** Correct rounding of a positive value *)

(** The double for a mantissa [q <= 2^53] at exponent [t]. *)
Definition finish (q t : Z) : spec_float :=
  match q with
  | Z0 => S754_zero false
  | Zpos p =>
      if q <? 2 ^ 53 then
        if t <=? 971 then S754_finite false p t else S754_infinity false
      else
        if t + 1 <=? 971 then S754_finite false (2 ^ 52)%positive (t + 1)
        else S754_infinity false
  | Zneg _ => S754_nan
  end.

(** The exponent of the doubles around a value of [digits X] digits. *)
Definition target (X : Z) : Z := Z.max (digits X - 1128) (-1074).

(** The nearest double, ties to even, of [X] units of 2^-1075. *)
Definition Rnd (X : Z) : spec_float :=
  let t := target X in
  finish (div_half_even X (2 ^ (t + 1075))) t.

Lemma fexp_eq (x : Z) : fexp prec emax x = Z.max (x - 53) (-1074).
Proof. reflexivity. Qed.

Lemma second_shr (q t : Z) :
  0 <= q <= 2 ^ 53 -> -1074 <= t ->
  (let '(mrs, e) := shr_fexp prec emax q t loc_Exact in
   match shr_m mrs with
   | Z0 => S754_zero false
   | Zpos m => if e <=? emax - prec then S754_finite false m e
               else S754_infinity false
   | Zneg _ => S754_nan
   end) = finish q t.
Proof.
  intros Hq Ht. unfold shr_fexp. rewrite fexp_eq.
  change (emax - prec) with 971.
  destruct q as [|p|p]; [| |lia].
  - cbn [Zdigits2 shr_record_of_loc]. unfold shr.
    destruct (Z.max (0 + t - 53) (-1074) - t) eqn:E; try reflexivity. lia.
  - rewrite digits_pos. pose proof (digits_bounds (Zpos p) eq_refl) as Hd.
    pose proof (digits_ge_1 (Zpos p) eq_refl) as Hd1.
    unfold finish. destruct (Z.ltb_spec (Zpos p) (2 ^ 53)) as [Hlt|Hge].
    + assert (Hdig : digits (Zpos p) <= 53).
      { destruct (Z_le_gt_dec (digits (Zpos p)) 53) as [|Hgt]; [assumption|].
        assert (2 ^ 53 <= 2 ^ (digits (Zpos p) - 1)) by (apply Z.pow_le_mono_r; lia).
        lia. }
      unfold shr. cbn [shr_record_of_loc].
      destruct (Z.max (digits (Zpos p) + t - 53) (-1074) - t) eqn:E; try reflexivity.
      lia.
    + assert (Hp : Zpos p = 2 ^ 53) by lia.
      assert (Hdig : digits (Zpos p) = 54).
      { rewrite Hp. apply digits_unique; [lia|]. cbn. lia. }
      rewrite Hdig.
      replace (Z.max (54 + t - 53) (-1074) - t) with 1 by lia.
      cbn [shr shr_record_of_loc iter_pos].
      rewrite shr_1_spec by lia. cbn [shr_m]. rewrite Hp.
      change (2 ^ 53 / 2) with (Zpos (2 ^ 52)). reflexivity.
Qed.


Definition stage2 (q e : Z) : spec_float :=
  let '(mrs, e') := shr_fexp prec emax q e loc_Exact in
  match shr_m mrs with
  | Z0 => S754_zero false
  | Zpos m => if e' <=? emax - prec then S754_finite false m e'
              else S754_infinity false
  | Zneg _ => S754_nan
  end.

Lemma stage2_finish (q t : Z) :
  0 <= q <= 2 ^ 53 -> -1074 <= t -> stage2 q t = finish q t.
Proof. apply second_shr. Qed.

Lemma binary_round_aux_stages (mx ex : Z) (lx : location) :
  binary_round_aux prec emax false mx ex lx
  = let '(mrs', e') := shr_fexp prec emax mx ex lx in
    stage2 (round_nearest_even (shr_m mrs') (loc_of_shr_record mrs')) e'.
Proof.
  unfold binary_round_aux, stage2.
  destruct (shr_fexp prec emax mx ex lx) as [mrs' e']. reflexivity.
Qed.

Lemma target_shift (M E : Z) :
  0 < M -> -1075 <= E ->
  target (M * 2 ^ (E + 1075)) = Z.max (digits M + E - 53) (-1074).
Proof.
  intros HM HE. unfold target. rewrite digits_shift by lia. lia.
Qed.

(** Rounding a mantissa that needs no shift to the left. *)
Lemma round_aux_Rnd (M : positive) (E : Z) :
  -1075 <= E ->
  E <= Z.max (digits (Zpos M) + E - 53) (-1074) ->
  binary_round_aux prec emax false (Zpos M) E loc_Exact
  = Rnd (Zpos M * 2 ^ (E + 1075)).
Proof.
  intros HE Ht. unfold Rnd. rewrite target_shift by lia.
  set (t := Z.max (digits (Zpos M) + E - 53) (-1074)) in *.
  pose proof (digits_bounds (Zpos M) eq_refl) as Hd.
  pose proof (digits_ge_1 (Zpos M) eq_refl) as Hd1.
  assert (Hs : 0 < 2 ^ (E + 1075)) by (apply Z.pow_pos_nonneg; lia).
  rewrite binary_round_aux_stages. unfold shr_fexp at 1.
  rewrite fexp_eq, digits_pos. fold t. cbn [shr_record_of_loc]. unfold shr.
  destruct (t - E) as [|p|p] eqn:En; [| |lia].
  - assert (Et : t = E) by lia. rewrite Et.
    cbn [shr_m loc_of_shr_record round_nearest_even].
    rewrite div_half_even_exact by assumption.
    apply stage2_finish; [|lia]. split; [lia|].
    assert (digits (Zpos M) <= 53) by lia.
    assert (2 ^ digits (Zpos M) <= 2 ^ 53) by (apply Z.pow_le_mono_r; lia). lia.
  - rewrite iter_pos_nat.
    destruct (Pos.to_nat p) as [|n] eqn:Ep; [lia|].
    rewrite div_half_even_spec by lia.
    assert (Hn : Z.of_nat (S n) = t - E) by lia.
    rewrite Hn.
    assert (Hpow : 2 ^ (t + 1075) = 2 ^ (t - E) * 2 ^ (E + 1075)).
    { rewrite <- Z.pow_add_r by lia. f_equal. lia. }
    assert (Hp : 0 < 2 ^ (t - E)) by (apply Z.pow_pos_nonneg; lia).
    rewrite Hpow, div_half_even_scale by assumption.
    replace (E + Zpos p) with t by lia.
    apply stage2_finish; [|lia].
    pose proof (div_half_even_bounds (Zpos M) (2 ^ (t - E)) Hp) as Hb.
    assert (Hq : 0 <= Zpos M / 2 ^ (t - E)) by (apply Z.div_pos; lia).
    split; [lia|].
    assert (Zpos M / 2 ^ (t - E) < 2 ^ 53); [|lia].
    apply Z.div_lt_upper_bound; [lia|].
    rewrite <- Z.pow_add_r by lia.
    assert (2 ^ digits (Zpos M) <= 2 ^ (t - E + 53)) by (apply Z.pow_le_mono_r; lia).
    lia.
Qed.

Lemma shl_align_value (M : positive) (E t : Z) :
  let '(mz, ez) := shl_align M E t in
  ez = Z.min E t /\ Zpos mz = Zpos M * 2 ^ (E - ez).
Proof.
  unfold shl_align. destruct (t - E) as [|p|p] eqn:Ed.
  - replace (E - E) with 0 by lia. cbn. lia.
  - replace (E - E) with 0 by lia. cbn. lia.
  - split; [lia|].
    replace (E - t) with (Zpos p) by lia.
    change (Pos.iter xO M p) with (shift_pos p M).
    rewrite shift_pos_correct, Zpower_pos_nat, Zpower_nat_Z.
    rewrite positive_nat_Z. lia.
Qed.

(** Rounding a positive mantissa at any exponent. *)
Lemma binary_round_Rnd (M : positive) (E : Z) :
  -1075 <= E ->
  binary_round prec emax false M E = Rnd (Zpos M * 2 ^ (E + 1075)).
Proof.
  intros HE. unfold binary_round. rewrite fexp_eq.
  change (Zpos (digits2_pos M)) with (Zdigits2 (Zpos M)). rewrite digits_pos.
  set (t := Z.max (digits (Zpos M) + E - 53) (-1074)).
  pose proof (shl_align_value M E t) as H.
  destruct (shl_align M E t) as [mz ez]. destruct H as [Hez Hmz].
  assert (Hd : digits (Zpos mz) = digits (Zpos M) + (E - ez)).
  { rewrite Hmz. apply digits_shift; lia. }
  rewrite round_aux_Rnd.
  - f_equal. rewrite Hmz, <- Z.mul_assoc, <- Z.pow_add_r by lia.
    do 2 f_equal. lia.
  - lia.
  - rewrite Hd. lia.
Qed.


(** *** Rounding is monotone *)

Lemma target_mono (X Y : Z) : 0 < X -> X <= Y -> target X <= target Y.
Proof. intros HX HY. unfold target. pose proof (digits_mono X Y HX HY). lia. Qed.

Lemma target_ge (X : Z) : -1074 <= target X.
Proof. unfold target. lia. Qed.

(** The rounded mantissa fits in 53 bits, or is 2^53. *)
Lemma mantissa_bounds (X : Z) :
  0 < X ->
  0 <= div_half_even X (2 ^ (target X + 1075)) <= 2 ^ 53.
Proof.
  intros HX. pose proof (target_ge X) as Ht.
  assert (Hp : 0 < 2 ^ (target X + 1075)) by (apply Z.pow_pos_nonneg; lia).
  pose proof (div_half_even_bounds X _ Hp) as Hb.
  assert (Hq : 0 <= X / 2 ^ (target X + 1075)) by (apply Z.div_pos; lia).
  split; [lia|].
  assert (X / 2 ^ (target X + 1075) < 2 ^ 53); [|lia].
  apply Z.div_lt_upper_bound; [lia|].
  rewrite <- Z.pow_add_r by lia.
  pose proof (digits_bounds X HX) as Hd.
  pose proof (digits_ge_1 X HX).
  assert (2 ^ digits X <= 2 ^ (target X + 1075 + 53)).
  { apply Z.pow_le_mono_r; [lia|]. unfold target. lia. }
  lia.
Qed.

(** Above the subnormal range the rounded mantissa has 53 bits. *)
Lemma mantissa_normal (X : Z) :
  0 < X -> -1074 < target X ->
  2 ^ 52 <= div_half_even X (2 ^ (target X + 1075)).
Proof.
  intros HX Ht.
  assert (Et : target X = digits X - 1128) by (unfold target in *; lia).
  assert (Hp : 0 < 2 ^ (target X + 1075)) by (apply Z.pow_pos_nonneg; lia).
  pose proof (div_half_even_bounds X _ Hp) as Hb.
  assert (2 ^ 52 <= X / 2 ^ (target X + 1075)); [|lia].
  apply Z.div_le_lower_bound; [lia|].
  rewrite <- Z.pow_add_r by lia.
  replace (target X + 1075 + 52) with (digits X - 1) by lia.
  apply digits_bounds, HX.
Qed.

Lemma rank_finish (q t : Z) :
  0 <= q <= 2 ^ 53 ->
  SF.rank (finish q t)
  = if q =? 0 then (0, 0, 0)
    else if q <? 2 ^ 53 then (if t <=? 971 then (1, t, q) else (2, 0, 0))
         else (if t + 1 <=? 971 then (1, t + 1, 2 ^ 52) else (2, 0, 0)).
Proof.
  intros Hq. unfold finish. destruct q as [|p|p]; [reflexivity| |lia].
  change (Zpos p =? 0) with false. cbv iota.
  destruct (Zpos p <? 2 ^ 53).
  - destruct (t <=? 971); reflexivity.
  - destruct (t + 1 <=? 971); reflexivity.
Qed.

Ltac lex3_cases :=
  unfold SF.lex3;
  repeat match goal with
         | |- context [?a ?= ?b] => destruct (Z.compare_spec a b)
         end;
  try discriminate; try lia.

Lemma Rnd_mono (X Y : Z) :
  0 < X -> X <= Y ->
  SF.lex3 (SF.rank (Rnd X)) (SF.rank (Rnd Y)) <> Gt.
Proof.
  intros HX HXY. assert (HY : 0 < Y) by lia.
  unfold Rnd.
  pose proof (mantissa_bounds X HX) as HqX.
  pose proof (mantissa_bounds Y HY) as HqY.
  pose proof (target_mono X Y HX HXY) as Ht.
  pose proof (target_ge X) as HtX.
  rewrite !rank_finish by assumption.
  destruct (Z.eq_dec (target X) (target Y)) as [Et|Et].
  - assert (Hq : div_half_even X (2 ^ (target X + 1075))
                 <= div_half_even Y (2 ^ (target Y + 1075))).
    { rewrite <- Et. apply div_half_even_mono; [|assumption].
      apply Z.pow_pos_nonneg; lia. }
    rewrite <- Et in *.
    set (qX := div_half_even X _) in *. set (qY := div_half_even Y _) in *.
    destruct (Z.eqb_spec qX 0), (Z.eqb_spec qY 0),
      (Z.ltb_spec qX (2 ^ 53)), (Z.ltb_spec qY (2 ^ 53)),
      (Z.leb_spec (target X) 971), (Z.leb_spec (target X + 1) 971);
      try lia; lex3_cases.
  - assert (HnY : 2 ^ 52 <= div_half_even Y (2 ^ (target Y + 1075))).
    { apply mantissa_normal; lia. }
    set (qX := div_half_even X _) in *. set (qY := div_half_even Y _) in *.
    destruct (Z.eqb_spec qX 0), (Z.eqb_spec qY 0),
      (Z.ltb_spec qX (2 ^ 53)), (Z.ltb_spec qY (2 ^ 53)),
      (Z.leb_spec (target X) 971), (Z.leb_spec (target X + 1) 971),
      (Z.leb_spec (target Y) 971), (Z.leb_spec (target Y + 1) 971);
      try lia; lex3_cases.
Qed.


Lemma Rnd_zero : Rnd 0 = S754_zero false.
Proof. reflexivity. Qed.

Lemma Rnd_signed (X : Z) : 0 <= X -> SF.nonneg (Rnd X).
Proof.
  intros HX. destruct (Z.eq_dec X 0) as [->|Hne]; [exact I|].
  unfold Rnd. pose proof (mantissa_bounds X ltac:(lia)) as Hq.
  unfold finish. destruct (div_half_even X _) as [|p|p]; [exact I| |lia].
  destruct (_ <? _); destruct (_ <=? _); reflexivity.
Qed.

Lemma Rnd_mono0 (X Y : Z) :
  0 <= X -> X <= Y -> SF.lex3 (SF.rank (Rnd X)) (SF.rank (Rnd Y)) <> Gt.
Proof.
  intros HX HXY. destruct (Z.eq_dec X 0) as [->|Hne].
  - rewrite Rnd_zero. pose proof (Rnd_signed Y HXY) as HY.
    destruct (Rnd Y) as [s|s| |s m e]; cbn in HY |- *; subst; try discriminate;
      try contradiction.
  - apply Rnd_mono; lia.
Qed.

(** A value that sits on the grid of its binade is its own rounding. *)
Lemma Rnd_exact (q : positive) (t : Z) :
  t = Z.max (digits (Zpos q) + t - 53) (-1074) -> t <= 971 ->
  Rnd (Zpos q * 2 ^ (t + 1075)) = S754_finite false q t.
Proof.
  intros Ht Hle. unfold Rnd. rewrite target_shift by lia. rewrite <- Ht.
  rewrite div_half_even_exact by (apply Z.pow_pos_nonneg; lia).
  unfold finish.
  pose proof (digits_bounds (Zpos q) eq_refl) as Hd.
  assert (Hlt : Zpos q < 2 ^ 53).
  { assert (2 ^ digits (Zpos q) <= 2 ^ 53) by (apply Z.pow_le_mono_r; lia). lia. }
  destruct (Z.ltb_spec (Zpos q) (2 ^ 53)); [|lia].
  destruct (Z.leb_spec t 971); [reflexivity | lia].
Qed.

Lemma Rnd_valid_finite (m : positive) (e : Z) :
  valid_binary (S754_finite false m e) = true ->
  Rnd (Zpos m * 2 ^ (e + 1075)) = S754_finite false m e.
Proof.
  intros Hv. apply valid_finite in Hv. destruct Hv as [He Hle].
  now apply Rnd_exact.
Qed.

Lemma canonical_valid (q : positive) (t : Z) :
  t = Z.max (digits (Zpos q) + t - 53) (-1074) -> t <= 971 ->
  valid_binary (S754_finite false q t) = true.
Proof.
  intros Ht Hle. cbn [valid_binary]. unfold bounded, canonical_mantissa.
  rewrite fexp_eq. change (Zpos (digits2_pos q)) with (Zdigits2 (Zpos q)).
  rewrite digits_pos. apply andb_true_iff. split.
  - apply Z.eqb_eq. lia.
  - apply Z.leb_le. exact Hle.
Qed.

(** Finite, non-negative doubles. *)
Definition fin_nonneg (x : spec_float) : Prop :=
  valid_binary x = true
  /\ match x with
     | S754_zero _ | S754_finite false _ _ => True
     | _ => False
     end.

Lemma sf_val_nonneg (x : spec_float) : fin_nonneg x -> 0 <= sf_val x.
Proof.
  intros [_ H]. destruct x as [s|s| |[|] m e]; cbn [sf_val cond_Zopp] in *;
    try contradiction; try lia.
Qed.

(** A finite non-negative double is the rounding of its own value. *)
Lemma Rnd_sf_val (x : spec_float) :
  fin_nonneg x -> SF.rank (Rnd (sf_val x)) = SF.rank x.
Proof.
  intros [Hv H]. destruct x as [s|s| |[|] m e]; try contradiction.
  - reflexivity.
  - cbn [sf_val cond_Zopp]. now rewrite Rnd_valid_finite.
Qed.

Lemma lex3_eq_inv (a b : Z * Z * Z) : SF.lex3 a b = Eq -> a = b.
Proof.
  destruct a as [[a1 a2] a3], b as [[b1 b2] b3]. unfold SF.lex3.
  destruct (Z.compare_spec a1 b1); try discriminate.
  destruct (Z.compare_spec a2 b2); try discriminate.
  destruct (Z.compare_spec a3 b3); try discriminate.
  intros _. congruence.
Qed.

Lemma rank_eq_val (x y : spec_float) :
  fin_nonneg x -> fin_nonneg y -> SF.rank x = SF.rank y -> sf_val x = sf_val y.
Proof.
  intros [_ Hx] [_ Hy] H.
  destruct x as [s|s| |[|] m e]; try contradiction;
    destruct y as [s'|s'| |[|] m' e']; try contradiction; cbn in H;
    try discriminate; try reflexivity.
  inversion H; subst. reflexivity.
Qed.

(** The order of the doubles is the order of their values. *)
Lemma rank_compare_val (x y : spec_float) :
  fin_nonneg x -> fin_nonneg y ->
  SF.lex3 (SF.rank x) (SF.rank y) = (sf_val x ?= sf_val y).
Proof.
  intros Hx Hy.
  pose proof (sf_val_nonneg x Hx) as Hvx. pose proof (sf_val_nonneg y Hy) as Hvy.
  rewrite <- (Rnd_sf_val x Hx), <- (Rnd_sf_val y Hy).
  destruct (Z.compare_spec (sf_val x) (sf_val y)) as [E|E|E].
  - rewrite E. apply SF.lex3_refl.
  - pose proof (Rnd_mono0 _ _ Hvx (Z.lt_le_incl _ _ E)) as Hm.
    destruct (SF.lex3 _ _) eqn:El; [|reflexivity|contradiction].
    apply lex3_eq_inv in El. rewrite !Rnd_sf_val in El by assumption.
    apply rank_eq_val in El; [lia | assumption | assumption].
  - pose proof (Rnd_mono0 _ _ Hvy (Z.lt_le_incl _ _ E)) as Hm.
    rewrite SF.lex3_antisym.
    destruct (SF.lex3 (SF.rank (Rnd (sf_val y))) _) eqn:El; [|reflexivity|contradiction].
    apply lex3_eq_inv in El. rewrite !Rnd_sf_val in El by assumption.
    apply rank_eq_val in El; [lia | assumption | assumption].
Qed.


(** *** The operations of the program on finite non-negative doubles *)

Lemma fin_nonneg_exp (m : positive) (e : Z) :
  fin_nonneg (S754_finite false m e) -> -1074 <= e.
Proof. intros [Hv _]. apply valid_finite in Hv. lia. Qed.

Lemma binary_normalize_Rnd (M E : Z) :
  0 <= M -> -1075 <= E ->
  binary_normalize prec emax M E false = Rnd (M * 2 ^ (E + 1075)).
Proof.
  intros HM HE. destruct M as [|p|p]; [reflexivity| |lia].
  cbn [binary_normalize]. now apply binary_round_Rnd.
Qed.

Lemma SFadd_Rnd (x y : spec_float) :
  fin_nonneg x -> fin_nonneg y ->
  SF.rank (SFadd prec emax x y) = SF.rank (Rnd (sf_val x + sf_val y)).
Proof.
  intros Hx Hy.
  destruct x as [sx|sx| |[|] mx ex]; try (exfalso; exact (proj2 Hx));
    destruct y as [sy|sy| |[|] my ey]; try (exfalso; exact (proj2 Hy)).
  - cbn [SFadd sf_val]. destruct sx, sy; reflexivity.
  - cbn [SFadd]. change (sf_val (S754_zero sx)) with 0.
    rewrite Z.add_0_l. symmetry. now apply Rnd_sf_val.
  - cbn [SFadd]. change (sf_val (S754_zero sy)) with 0.
    rewrite Z.add_0_r. symmetry. now apply Rnd_sf_val.
  - pose proof (fin_nonneg_exp _ _ Hx) as Hex.
    pose proof (fin_nonneg_exp _ _ Hy) as Hey.
    cbn [SFadd cond_Zopp sf_val].
    pose proof (shl_align_value mx ex (Z.min ex ey)) as Ha.
    pose proof (shl_align_value my ey (Z.min ex ey)) as Hb.
    destruct (shl_align mx ex (Z.min ex ey)) as [a ea].
    destruct (shl_align my ey (Z.min ex ey)) as [b eb].
    cbn [fst]. destruct Ha as [Hea Ha], Hb as [Heb Hb].
    rewrite binary_normalize_Rnd by lia. f_equal. f_equal.
    rewrite Z.mul_add_distr_r, Ha, Hb.
    rewrite <- !Z.mul_assoc, <- !Z.pow_add_r by lia.
    change (IntDef.Z.min ex ey) with (Z.min ex ey).
    f_equal; do 2 f_equal; lia.
Qed.

Lemma div_eucl_pair (a b : Z) : Z.div_eucl a b = (a / b, a mod b).
Proof. unfold Z.div, Z.modulo. now destruct (Z.div_eucl a b). Qed.

Definition two_sf : spec_float := S754_finite false 4503599627370496 (-51).

Lemma SFdiv_two (m : positive) (e : Z) :
  fin_nonneg (S754_finite false m e) ->
  SFdiv prec emax (S754_finite false m e) two_sf = Rnd (Zpos m * 2 ^ (e + 1074)).
Proof.
  intros [Hv _]. apply valid_finite in Hv. destruct Hv as [He Hle].
  pose proof (digits_ge_1 (Zpos m) eq_refl) as Hd1.
  pose proof (digits_bounds (Zpos m) eq_refl) as Hd.
  unfold two_sf. cbn [SFdiv xorb]. unfold SFdiv_core_binary.
  change (Zdigits2 (Zpos 4503599627370496)) with 53.
  rewrite digits_pos, fexp_eq.
  set (e' := Z.min _ _).
  destruct (Z_le_gt_dec (-1072) e) as [Hbig|Hsmall].
  - (* two binades above the smallest: the quotient is exact *)
    assert (Ee : e' = e - 2) by (subst e'; lia).
    rewrite Ee. replace (e - -51 - (e - 2)) with 53 by lia.
    rewrite Z.shiftl_mul_pow2 by lia.
    rewrite div_eucl_pair.
    change (2 ^ 53) with (2 * Zpos 4503599627370496).
    rewrite Z.mul_assoc, Z.div_mul, Z.mod_mul by lia.
    change (new_location (Zpos 4503599627370496) 0) with loc_Exact.
    change (Zpos m * 2) with (Zpos (m * 2)).
    rewrite round_aux_Rnd.
    + f_equal. rewrite Pos2Z.inj_mul, <- Z.mul_assoc. f_equal.
      change (Zpos 2) with (2 ^ 1). rewrite <- Z.pow_add_r by lia. f_equal. lia.
    + lia.
    + rewrite Pos2Z.inj_mul. change (Zpos 2) with (2 ^ 1).
      rewrite digits_shift by lia. lia.
  - destruct (Z.eq_dec e (-1073)) as [E1|E1].
    + assert (Ee : e' = -1074) by (subst e'; lia).
      rewrite Ee. replace (e - -51 - -1074) with 52 by lia.
      rewrite Z.shiftl_mul_pow2 by lia. rewrite div_eucl_pair.
      change (2 ^ 52) with (Zpos 4503599627370496).
      rewrite Z.div_mul, Z.mod_mul by lia.
      change (new_location (Zpos 4503599627370496) 0) with loc_Exact.
      rewrite round_aux_Rnd.
      * f_equal. f_equal. f_equal. lia.
      * lia.
      * lia.
    + assert (E0 : e = -1074) by lia.
      assert (Ee : e' = -1074) by (subst e'; lia).
      rewrite Ee. replace (e - -51 - -1074) with 51 by lia.
      rewrite Z.shiftl_mul_pow2 by lia. rewrite div_eucl_pair.
      change (Zpos 4503599627370496) with (2 * 2 ^ 51).
      rewrite Z.div_mul_cancel_r, Z.mul_mod_distr_r by lia.
      rewrite E0. change (2 ^ (-1074 + 1074)) with 1. rewrite Z.mul_1_r.
      assert (Hdig : digits (Zpos m) <= 53) by lia.
      assert (Hm : Zpos m < 2 ^ 53).
      { assert (2 ^ digits (Zpos m) <= 2 ^ 53) by (apply Z.pow_le_mono_r; lia). lia. }
      unfold Rnd.
      assert (Et : target (Zpos m) = -1074) by (unfold target; lia).
      rewrite Et. change (2 ^ (-1074 + 1075)) with 2.
      pose proof (Z.mod_pos_bound (Zpos m) 2 eq_refl) as Hr.
      assert (Hq : 0 <= Zpos m / 2 < 2 ^ 52).
      { split; [apply Z.div_pos; lia|]. apply Z.div_lt_upper_bound; lia. }
      rewrite binary_round_aux_stages.
      assert (Hshr : forall l, shr_fexp prec emax (Zpos m / 2) (-1074) l
                               = (shr_record_of_loc (Zpos m / 2) l, -1074)).
      { intros l. unfold shr_fexp. rewrite fexp_eq.
        destruct (Z.eq_dec (Zpos m / 2) 0) as [Hz|Hz].
        - rewrite Hz. reflexivity.
        - destruct (Zpos m / 2) as [|q|q] eqn:Eq; [lia| |lia].
          rewrite digits_pos.
          pose proof (digits_bounds (Zpos q) eq_refl) as Hdq.
          assert (digits (Zpos q) <= 53).
          { destruct (Z_le_gt_dec (digits (Zpos q)) 53); [assumption|].
            assert (2 ^ 53 <= 2 ^ (digits (Zpos q) - 1))
              by (apply Z.pow_le_mono_r; lia). lia. }
          unfold shr.
          destruct (Z.max (digits (Zpos q) + -1074 - 53) (-1074) - -1074) eqn:En;
            try reflexivity. lia. }
      rewrite Hshr. unfold div_half_even.
      assert (Hcase : Zpos m mod 2 = 0 \/ Zpos m mod 2 = 1) by lia.
      destruct Hcase as [Hc|Hc]; rewrite Hc.
      * change (new_location (2 * 2 ^ 51) (0 * 2 ^ 51)) with loc_Exact.
        cbn [shr_record_of_loc shr_m loc_of_shr_record round_nearest_even].
        change (2 * 0 ?= 2) with Lt. cbv iota.
        apply stage2_finish; lia.
      * change (new_location (2 * 2 ^ 51) (1 * 2 ^ 51)) with (loc_Inexact Eq).
        cbn [shr_record_of_loc shr_m loc_of_shr_record round_nearest_even].
        change (2 * 1 ?= 2) with Eq. cbv iota.
        apply stage2_finish; [|lia].
        destruct (Z.even (Zpos m / 2)); lia.
Qed.

End Exact.

(** *** Primitive floats: values, sums, halves *)

(** A float that is finite and not negative. *)
Definition nn_finite (f : float) : Prop :=
  match Prim2SF f with
  | S754_zero _ | S754_finite false _ _ => True
  | _ => False
  end.

(** Its exact value in units of 2^-1075. *)
Definition fval (f : float) : Z := Exact.sf_val (Prim2SF f).

Lemma nn_finite_fin (f : float) : nn_finite f -> Exact.fin_nonneg (Prim2SF f).
Proof. intros H. split; [apply Prim2SF_valid | exact H]. Qed.

Lemma nn_finite_nonneg (f : float) : nn_finite f -> fnonneg f.
Proof.
  unfold nn_finite, fnonneg. destruct (Prim2SF f) as [s|s| |[|] m e]; cbn; tauto.
Qed.

Lemma fval_nonneg (f : float) : nn_finite f -> 0 <= fval f.
Proof. intros H. apply Exact.sf_val_nonneg, nn_finite_fin, H. Qed.

Lemma frank_Rnd (f : float) : nn_finite f -> frank f = SF.rank (Exact.Rnd (fval f)).
Proof. intros H. symmetry. apply Exact.Rnd_sf_val, nn_finite_fin, H. Qed.

Lemma frank_compare (f g : float) :
  nn_finite f -> nn_finite g -> SF.lex3 (frank f) (frank g) = (fval f ?= fval g).
Proof.
  intros Hf Hg. apply Exact.rank_compare_val; now apply nn_finite_fin.
Qed.

Lemma add_Rnd (f g : float) :
  nn_finite f -> nn_finite g ->
  frank (f + g)%float = SF.rank (Exact.Rnd (fval f + fval g)).
Proof.
  intros Hf Hg. unfold frank. rewrite add_spec.
  apply Exact.SFadd_Rnd; now apply nn_finite_fin.
Qed.

Lemma half_Rnd (f : float) :
  nn_finite f -> frank (f / 2)%float = SF.rank (Exact.Rnd (fval f / 2)).
Proof.
  intros Hf. pose proof (nn_finite_fin f Hf) as Hfin.
  unfold frank, fval in *. rewrite div_spec.
  change (Prim2SF 2) with Exact.two_sf. unfold nn_finite in Hf.
  destruct (Prim2SF f) as [s|s| |[|] m e]; try contradiction.
  - reflexivity.
  - unfold SF64div. rewrite Exact.SFdiv_two by assumption.
    cbn [Exact.sf_val cond_Zopp]. do 2 f_equal.
    pose proof (Exact.fin_nonneg_exp _ _ Hfin) as He.
    replace (e + 1075) with (Z.succ (e + 1074)) by lia.
    rewrite Z.pow_succ_r by lia.
    replace (Zpos m * (2 * 2 ^ (e + 1074))) with (Zpos m * 2 ^ (e + 1074) * 2)
      by ring.
    now rewrite Z.div_mul by lia.
Qed.

(** Non-negative floats: finite or the infinity. *)
Lemma fnonneg_cases (f : float) :
  fnonneg f -> nn_finite f \/ Prim2SF f = S754_infinity false.
Proof.
  unfold fnonneg, nn_finite. destruct (Prim2SF f) as [s|s| |[|] m e]; cbn;
    try tauto; try discriminate. intros ->. now right.
Qed.

Lemma rank_nonneg_le_inf (x : spec_float) :
  SF.nonneg x -> SF.lex3 (SF.rank x) (2, 0, 0) <> Gt.
Proof.
  destruct x as [s|[|]| |[|] m e]; cbn; try tauto; try discriminate;
    intros _; discriminate.
Qed.

Lemma half_mono (f g : float) :
  fnonneg f -> fnonneg g ->
  SF.lex3 (frank f) (frank g) <> Gt ->
  SF.lex3 (frank (f / 2)%float) (frank (g / 2)%float) <> Gt.
Proof.
  intros Hf Hg Hle.
  assert (Hinf : forall h, Prim2SF h = S754_infinity false ->
                           frank (h / 2)%float = (2, 0, 0)).
  { intros h Hh. unfold frank. rewrite div_spec, Hh. reflexivity. }
  destruct (fnonneg_cases g Hg) as [Hgf|Hgi].
  - destruct (fnonneg_cases f Hf) as [Hff|Hfi].
    + rewrite !half_Rnd by assumption.
      apply Exact.Rnd_mono0.
      * apply Z.div_pos; [now apply fval_nonneg | lia].
      * apply Z.div_le_mono; [lia|].
        rewrite frank_compare in Hle by assumption.
        destruct (Z.compare_spec (fval f) (fval g)); try lia. congruence.
    + exfalso. apply Hle. unfold frank at 1. rewrite Hfi.
      unfold nn_finite in Hgf. unfold frank.
      destruct (Prim2SF g) as [s|s| |[|] m e]; try contradiction; reflexivity.
  - rewrite (Hinf g Hgi). apply rank_nonneg_le_inf.
    apply half_nonneg, Hf.
Qed.

(** [float(z)] is exact below 2^53. *)
Lemma float_of_int_small (z : Z) :
  0 <= z < 2 ^ 53 ->
  exists f, float_of_int z = Ok f /\ nn_finite f /\ fval f = z * 2 ^ 1075.
Proof.
  intros Hz. unfold float_of_int.
  destruct (Z.eq_dec z 0) as [->|Hne].
  - exists 0%float. repeat split.
  - rewrite Exact.binary_normalize_Rnd by lia. change (0 + 1075) with 1075.
    assert (Hpos : 0 < z) by lia.
    pose proof (Exact.digits_bounds z Hpos) as Hd.
    pose proof (Exact.digits_ge_1 z Hpos) as Hd1.
    assert (Hdig : Exact.digits z <= 53).
    { destruct (Z_le_gt_dec (Exact.digits z) 53); [assumption|].
      assert (2 ^ 53 <= 2 ^ (Exact.digits z - 1)) by (apply Z.pow_le_mono_r; lia).
      lia. }
    set (t := Exact.digits z - 53).
    assert (Hq : 0 < z * 2 ^ (- t)).
    { apply Z.mul_pos_pos; [lia|]. apply Z.pow_pos_nonneg; lia. }
    destruct (z * 2 ^ (- t)) as [|q|q] eqn:Eq; try lia.
    assert (Hdq : Exact.digits (Zpos q) = 53).
    { rewrite <- Eq, Exact.digits_shift by lia. lia. }
    assert (EX : z * 2 ^ 1075 = Zpos q * 2 ^ (t + 1075)).
    { rewrite <- Eq, <- Z.mul_assoc, <- Z.pow_add_r by lia. do 2 f_equal. lia. }
    rewrite EX, Exact.Rnd_exact by lia.
    exists (SF2Prim (S754_finite false q t)).
    assert (HP : Prim2SF (SF2Prim (S754_finite false q t)) = S754_finite false q t).
    { apply Prim2SF_SF2Prim, Exact.canonical_valid; lia. }
    split; [reflexivity|]. split.
    + unfold nn_finite. now rewrite HP.
    + unfold fval. rewrite HP. reflexivity.
Qed.

(** ** Monotonicity of the median allocation *)

(** The counterexample: amounts just above 2^53, where [float()] and the
    float sum round.  With votes 2^53+1 and 2^53+2 and x = 2^53+2 the two
    middle elements are the votes, their int sum is 2^54+3 and the mean is
    2^53+2; with the second vote raised to 2^53+10 the middle elements are
    2^53+1 and x, the sum is float(2^53+1) + x = 2^54+2, which rounds to
    2^54, and the mean is 2^53. *)
Lemma allocation_decreases_above_2_53 :
  get_subject_allocation [9007199254740993; 9007199254740994]
                         (PFloat 9007199254740994)
  = Ok 9007199254740994%float
  /\ get_subject_allocation [9007199254740993; 9007199254741002]
                            (PFloat 9007199254740994)
     = Ok 9007199254740992%float
  /\ (9007199254740994 <=? 9007199254740992)%float = false.
Proof. repeat split; vm_compute; reflexivity. Qed.

(** The numbers the theorem is about: ints in [0, 2^52) and finite
    non-negative floats; their exact values in units of 2^-1075. *)
Definition small (z : Z) : Prop := 0 <= z < 2 ^ 52.

Definition admissible (a : num) : Prop :=
  match a with
  | PInt z => small z
  | PFloat f => nn_finite f
  end.

Definition num_val (a : num) : Z :=
  match a with
  | PInt z => z * 2 ^ 1075
  | PFloat f => fval f
  end.

Lemma compare_int_float_val (z : Z) (f : float) :
  nn_finite f -> compare_int_float z f = Some (z * 2 ^ 1075 ?= fval f).
Proof.
  intros Hf. pose proof (nn_finite_fin f Hf) as Hfin.
  unfold compare_int_float, fval, nn_finite in *.
  destruct (Prim2SF f) as [s|s| |[|] m e]; try contradiction.
  - cbn [Exact.sf_val]. f_equal.
    change 0 with (0 * 2 ^ 1075) at 2. now rewrite Exact.compare_scale.
  - pose proof (Exact.fin_nonneg_exp _ _ Hfin) as He.
    cbn [cond_Zopp Exact.sf_val]. f_equal.
    destruct (Z.leb_spec 0 e) as [Hpos|Hneg].
    + replace (Zpos m * 2 ^ (e + 1075)) with (Zpos m * 2 ^ e * 2 ^ 1075).
      * now rewrite Exact.compare_scale.
      * rewrite <- Z.mul_assoc, <- Z.pow_add_r by lia. reflexivity.
    + replace (z * 2 ^ 1075) with (z * 2 ^ (- e) * 2 ^ (e + 1075)).
      * rewrite Exact.compare_scale; [reflexivity|]. apply Z.pow_pos_nonneg; lia.
      * rewrite <- Z.mul_assoc, <- Z.pow_add_r by lia. do 2 f_equal. lia.
Qed.

(** Python's comparisons are the comparisons of the exact values. *)
Lemma compare_val (a b : num) :
  admissible a -> admissible b ->
  Py.compare a b = Some (num_val a ?= num_val b).
Proof.
  destruct a as [x|f], b as [y|g]; cbn [admissible num_val Py.compare]; intros Ha Hb.
  - f_equal. symmetry. now apply Exact.compare_scale.
  - now apply compare_int_float_val.
  - rewrite compare_int_float_val by assumption. cbn [option_map].
    f_equal. symmetry. apply Z.compare_antisym.
  - unfold compare_float.
    rewrite compare_rank by (now apply fnonneg_not_nan, nn_finite_nonneg).
    rewrite frank_compare by assumption.
    now destruct (fval f ?= fval g).
Qed.

Lemma lt_val (a b : num) :
  admissible a -> admissible b -> Py.lt a b = (num_val a <? num_val b).
Proof.
  intros Ha Hb. unfold Py.lt, Z.ltb. now rewrite compare_val.
Qed.

(** [sorted] puts admissible numbers in the order of their values. *)
Lemma sorted_by_value (l : list num) :
  Forall admissible l -> StronglySorted Z.le (map num_val (sorted Py.lt l)).
Proof.
  intros Hl.
  assert (Hd : Forall admissible (sorted Py.lt l)).
  { rewrite Forall_forall in *. intros a Ha. apply Hl.
    eapply Permutation_in; [apply sorted_perm | exact Ha]. }
  assert (Hs : StronglySorted (fun a b => Py.lt b a = false) (sorted Py.lt l)).
  { apply (sorted_sorted Py.lt admissible); [| |exact Hl].
    - intros a b Ha Hb. rewrite !lt_val by assumption.
      rewrite Z.ltb_lt, Z.ltb_ge. lia.
    - intros a b c Ha Hb Hc. rewrite !lt_val by assumption.
      rewrite !Z.ltb_ge. lia. }
  induction Hs as [|a s Hs IH Hall]; cbn; constructor.
  - inversion Hd; auto.
  - inversion Hd as [|? ? Ha Hs']; subst. rewrite Forall_forall in *.
    intros z Hz. apply in_map_iff in Hz. destruct Hz as (b & <- & Hb).
    specialize (Hall b Hb). rewrite lt_val in Hall by auto.
    now apply Z.ltb_ge in Hall.
Qed.

(** *** Order statistics by counting *)

Fixpoint count_le (t : Z) (l : list Z) : nat :=
  match l with
  | [] => O
  | v :: l' => (if v <=? t then 1 else 0) + count_le t l'
  end.

Lemma count_le_perm (t : Z) (l l' : list Z) :
  Permutation l l' -> count_le t l = count_le t l'.
Proof. induction 1; cbn; lia. Qed.

Lemma count_le_dominated (t : Z) (l l' : list Z) :
  Forall2 Z.le l l' -> (count_le t l' <= count_le t l)%nat.
Proof.
  induction 1 as [|a b l l' Hab _ IH]; cbn; [lia|].
  destruct (Z.leb_spec a t), (Z.leb_spec b t); lia.
Qed.

Lemma sorted_nth_count (s : list Z) (k : nat) (v : Z) :
  nth_error s k = Some v -> StronglySorted Z.le s -> (k < count_le v s)%nat.
Proof.
  revert k; induction s as [|a s IH]; intros k Hk Hs.
  - destruct k; discriminate.
  - inversion Hs as [|? ? Hs' Hall]; subst. cbn [count_le].
    destruct k as [|k]; cbn in Hk.
    + inversion Hk; subst. destruct (Z.leb_spec v v); lia.
    + specialize (IH k Hk Hs'). rewrite Forall_forall in Hall.
      specialize (Hall v (nth_error_In _ _ Hk)).
      destruct (Z.leb_spec a v); lia.
Qed.

Lemma count_le_bound (s : list Z) (t : Z) : (count_le t s <= length s)%nat.
Proof. induction s as [|a s IH]; cbn; [lia|]. destruct (a <=? t); lia. Qed.

Lemma sorted_count_nth (s : list Z) (k : nat) (v t : Z) :
  StronglySorted Z.le s -> nth_error s k = Some v ->
  (k < count_le t s)%nat -> v <= t.
Proof.
  intros Hs. revert k. induction Hs as [|a s Hs IH Hall]; intros k Hk Hc.
  - destruct k; discriminate.
  - cbn [count_le] in Hc. destruct k as [|k]; cbn in Hk.
    + inversion Hk; subst. destruct (Z.leb_spec v t) as [|Hgt]; [assumption|].
      exfalso. assert (count_le t s = O); [|lia].
      clear -Hall Hgt. induction Hall as [|b s Hb _ IH]; cbn; [reflexivity|].
      destruct (Z.leb_spec b t); lia.
    + apply (IH k Hk). destruct (a <=? t); lia.
Qed.

(** Raising elements raises every order statistic. *)
Lemma order_statistic_mono (l l' : list num) (k : nat) (a b : num) :
  Forall admissible l -> Forall admissible l' ->
  Forall2 Z.le (map num_val l) (map num_val l') ->
  nth_error (sorted Py.lt l) k = Some a ->
  nth_error (sorted Py.lt l') k = Some b ->
  num_val a <= num_val b.
Proof.
  intros Hl Hl' Hdom Ha Hb.
  pose proof (sorted_by_value l Hl) as Hs.
  pose proof (sorted_by_value l' Hl') as Hs'.
  assert (Ha' : nth_error (map num_val (sorted Py.lt l)) k = Some (num_val a))
    by (now rewrite nth_error_map, Ha).
  assert (Hb' : nth_error (map num_val (sorted Py.lt l')) k = Some (num_val b))
    by (now rewrite nth_error_map, Hb).
  apply (sorted_count_nth _ k _ _ Hs Ha').
  pose proof (sorted_nth_count _ _ _ Hb' Hs') as Hc.
  rewrite (count_le_perm _ _ _ (Permutation_map num_val (sorted_perm Py.lt l'))) in Hc.
  rewrite (count_le_perm _ _ _ (Permutation_map num_val (sorted_perm Py.lt l))).
  pose proof (count_le_dominated (num_val b) _ _ Hdom). lia.
Qed.

(** *** The conversions and the mean on admissible numbers *)

Lemma to_float_admissible (a : num) :
  admissible a ->
  exists f, to_float a = Ok f /\ nn_finite f /\ fval f = num_val a.
Proof.
  destruct a as [z|f]; cbn [admissible to_float num_val]; intros Ha.
  - apply float_of_int_small. unfold small in Ha.
    assert (2 ^ 52 < 2 ^ 53) by reflexivity. lia.
  - now exists f.
Qed.

Lemma num_val_nonneg (a : num) : admissible a -> 0 <= num_val a.
Proof.
  destruct a as [z|f]; cbn [admissible num_val]; intros Ha.
  - unfold small in Ha. apply Z.mul_nonneg_nonneg; [lia|].
    apply Z.pow_nonneg; lia.
  - now apply fval_nonneg.
Qed.

(** [(a + b) / 2.0]: the sum is the correctly rounded exact sum, whether
    Python adds two ints exactly and converts, or converts and adds floats. *)
Lemma mean_admissible (a b : num) :
  admissible a -> admissible b ->
  exists S, (s <- Py.add a b ;; truediv s (PFloat 2)) = Ok (S / 2)%float
            /\ fnonneg S
            /\ frank S = SF.rank (Exact.Rnd (num_val a + num_val b)).
Proof.
  intros Ha Hb.
  assert (Hfloat : forall f g, to_float a = Ok f -> nn_finite f -> fval f = num_val a ->
                               to_float b = Ok g -> nn_finite g -> fval g = num_val b ->
            (f' <- to_float a ;; g' <- to_float b ;; Ok (PFloat (f' + g')%float)) =
              Ok (PFloat (f + g)%float)
            /\ fnonneg (f + g)%float
            /\ frank (f + g)%float = SF.rank (Exact.Rnd (num_val a + num_val b))).
  { intros f g Ef Hf Vf Eg Hg Vg. rewrite Ef, Eg. cbn [bind]. split; [reflexivity|].
    split.
    - apply add_nonneg; now apply nn_finite_nonneg.
    - rewrite add_Rnd by assumption. now rewrite Vf, Vg. }
  destruct (to_float_admissible a Ha) as (f & Ef & Hf & Vf).
  destruct (to_float_admissible b Hb) as (g & Eg & Hg & Vg).
  specialize (Hfloat f g Ef Hf Vf Eg Hg Vg). destruct Hfloat as (Eadd & Hnn & Hrank).
  destruct a as [x|fa]; [destruct b as [y|fb]|].
  - cbn [admissible small] in Ha, Hb. unfold small in Ha, Hb.
    destruct (float_of_int_small (x + y)) as (h & Eh & Hh & Vh).
    { assert (2 ^ 52 + 2 ^ 52 = 2 ^ 53) by reflexivity. lia. }
    exists h. cbn [Py.add bind truediv to_float]. rewrite Eh. cbn [bind].
    split; [reflexivity|]. split; [now apply nn_finite_nonneg|].
    rewrite frank_Rnd by assumption. rewrite Vh. cbn [num_val]. do 2 f_equal. ring.
  - exists (f + g)%float. change (Py.add (PInt x) (PFloat fb))
      with (f' <- to_float (PInt x) ;; g' <- to_float (PFloat fb) ;; Ok (PFloat (f' + g')%float)).
    rewrite Eadd. split; [reflexivity|]. now split.
  - exists (f + g)%float. change (Py.add (PFloat fa) b)
      with (f' <- to_float (PFloat fa) ;; g' <- to_float b ;; Ok (PFloat (f' + g')%float)).
    rewrite Eadd. split; [reflexivity|]. now split.
Qed.

Lemma index_defined {A : Type} (l : list A) (i : nat) :
  (i < length l)%nat -> exists a, index l i = Ok a /\ nth_error l i = Some a.
Proof.
  intros Hi. unfold index. destruct (nth_error l i) as [a|] eqn:E.
  - now exists a.
  - apply nth_error_None in E. lia.
Qed.

Lemma rank_le_leb (f g : float) :
  fnonneg f -> fnonneg g ->
  SF.lex3 (frank f) (frank g) <> Gt -> (f <=? g)%float = true.
Proof.
  intros Hf Hg H. rewrite leb_rank by now apply fnonneg_not_nan.
  now destruct (SF.lex3 _ _).
Qed.

(** The array the median is taken from, and the effect of raising one vote
    on it. *)
Lemma raised_vote_dominates (p q : list Z) (v v' : Z) (x : num) :
  v <= v' ->
  Forall2 Z.le (map num_val (map PInt (p ++ v :: q) ++ [PInt 0; x]))
               (map num_val (map PInt (p ++ v' :: q) ++ [PInt 0; x])).
Proof.
  intros Hv.
  assert (Hrefl : forall l : list Z, Forall2 Z.le l l).
  { induction l; constructor; [lia | assumption]. }
  rewrite !map_app. apply Forall2_app; [|apply Hrefl].
  apply Forall2_app; [apply Hrefl|].
  cbn [map num_val]. constructor; [|apply Hrefl].
  apply Z.mul_le_mono_nonneg_r; [apply Z.pow_nonneg; lia | exact Hv].
Qed.

Lemma admissible_array (votes : list Z) (x : num) :
  Forall small votes -> admissible x ->
  Forall admissible (map PInt votes ++ [PInt 0; x]).
Proof.
  intros Hv Hx. apply Forall_app. split.
  - rewrite Forall_map. exact Hv.
  - repeat constructor; [reflexivity | exact Hx].
Qed.

(** C7, amended: for votes in [0, 2^52) and a phantom value that is such an
    int or a finite non-negative float, [get_subject_allocation] returns,
    and raising one vote (the rest of the votes and x fixed) does not lower
    the allocation.  The votes need not be sorted. *)
Theorem allocation_monotone_below_2_52 (p q : list Z) (v v' : Z) (x : num) :
  Forall small (p ++ v :: q) -> small v' -> admissible x -> v <= v' ->
  exists r r',
    get_subject_allocation (p ++ v :: q) x = Ok r
    /\ get_subject_allocation (p ++ v' :: q) x = Ok r'
    /\ (r <=? r')%float = true.
Proof.
  intros Hl Hv' Hx Hle.
  assert (Hl' : Forall small (p ++ v' :: q)).
  { apply Forall_app in Hl. destruct Hl as [Hp Hq]. inversion Hq; subst.
    apply Forall_app. split; [assumption|]. now constructor. }
  pose proof (admissible_array _ x Hl Hx) as Ha.
  pose proof (admissible_array _ x Hl' Hx) as Ha'.
  pose proof (raised_vote_dominates p q v v' x Hle) as Hdom.
  unfold get_subject_allocation.
  set (l := map PInt (p ++ v :: q) ++ [PInt 0; x]) in *.
  set (l' := map PInt (p ++ v' :: q) ++ [PInt 0; x]) in *.
  assert (Hn : length (sorted Py.lt l') = length (sorted Py.lt l)).
  { rewrite !sorted_length. unfold l, l'.
    rewrite !length_app, !length_map, !length_app. reflexivity. }
  assert (Hn2 : (2 <= length (sorted Py.lt l))%nat).
  { rewrite sorted_length. unfold l. rewrite length_app. cbn. lia. }
  rewrite Hn. set (n := length (sorted Py.lt l)) in *.
  assert (Hhalf : (Nat.div n 2 < n)%nat) by (apply Nat.div_lt; lia).
  assert (Hmono : forall k a b,
             nth_error (sorted Py.lt l) k = Some a ->
             nth_error (sorted Py.lt l') k = Some b ->
             admissible a /\ admissible b /\ num_val a <= num_val b).
  { intros k a b Ea Eb. split; [|split].
    - rewrite Forall_forall in Ha. apply Ha.
      eapply Permutation_in; [apply sorted_perm | eapply nth_error_In, Ea].
    - rewrite Forall_forall in Ha'. apply Ha'.
      eapply Permutation_in; [apply sorted_perm | eapply nth_error_In, Eb].
    - exact (order_statistic_mono l l' k a b Ha Ha' Hdom Ea Eb). }
  destruct (Nat.eqb (Nat.modulo n 2) 1).
  - destruct (index_defined (sorted Py.lt l) (Nat.div n 2)) as (a & Ia & Ea); [exact Hhalf|].
    destruct (index_defined (sorted Py.lt l') (Nat.div n 2)) as (b & Ib & Eb); [lia|].
    destruct (Hmono _ _ _ Ea Eb) as (Da & Db & Hab).
    destruct (to_float_admissible a Da) as (f & Ef & Hf & Vf).
    destruct (to_float_admissible b Db) as (g & Eg & Hg & Vg).
    exists f, g. rewrite Ia, Ib. cbn [bind]. split; [exact Ef|]. split; [exact Eg|].
    apply rank_le_leb; try now apply nn_finite_nonneg.
    rewrite frank_compare by assumption. rewrite Vf, Vg.
    now apply Z.compare_le_iff.
  - destruct (index_defined (sorted Py.lt l) (Nat.div n 2 - 1)) as (a & Ia & Ea); [lia|].
    destruct (index_defined (sorted Py.lt l') (Nat.div n 2 - 1)) as (a' & Ia' & Ea'); [lia|].
    destruct (index_defined (sorted Py.lt l) (Nat.div n 2)) as (b & Ib & Eb); [exact Hhalf|].
    destruct (index_defined (sorted Py.lt l') (Nat.div n 2)) as (b' & Ib' & Eb'); [lia|].
    destruct (Hmono _ _ _ Ea Ea') as (Da & Da' & Haa).
    destruct (Hmono _ _ _ Eb Eb') as (Db & Db' & Hbb).
    destruct (mean_admissible a b Da Db) as (S & ES & HS & RS).
    destruct (mean_admissible a' b' Da' Db') as (S' & ES' & HS' & RS').
    exists (S / 2)%float, (S' / 2)%float. rewrite Ia, Ib, Ia', Ib'. cbn [bind].
    split; [exact ES|]. split; [exact ES'|].
    apply rank_le_leb; try now apply half_nonneg.
    apply half_mono; try assumption. rewrite RS, RS'.
    apply Exact.Rnd_mono0; [|lia].
    pose proof (num_val_nonneg a Da). pose proof (num_val_nonneg b Db). lia.
Qed.

(** The theorem at work: three citizens, the second raises 20 to 70 at
    phantom value 37.5. *)
Lemma allocation_monotone_below_2_52_witness :
  exists r r',
    get_subject_allocation ([10] ++ 20 :: [50]) (PFloat 37.5) = Ok r
    /\ get_subject_allocation ([10] ++ 70 :: [50]) (PFloat 37.5) = Ok r'
    /\ (r <=? r')%float = true.
Proof.
  apply (allocation_monotone_below_2_52 [10] [50] 20 70 (PFloat 37.5)).
  - repeat constructor; vm_compute; congruence.
  - split; vm_compute; congruence.
  - exact I.
  - lia.
Defined.

(** ** Returning: amounts below 2^52 raise nothing *)

(** The numbers [float()] accepts without more ado: small ints, and any
    float. *)
Definition convertible (a : num) : Prop :=
  match a with
  | PInt z => small z
  | PFloat _ => True
  end.

Lemma small_lt_2_53 (z : Z) : small z -> 0 <= z < 2 ^ 53.
Proof.
  unfold small. assert (2 ^ 52 < 2 ^ 53) by reflexivity. lia.
Qed.

Lemma float_of_int_returns (z : Z) : small z -> exists f, float_of_int z = Ok f.
Proof.
  intros Hz. destruct (float_of_int_small z (small_lt_2_53 z Hz)) as (f & E & _).
  eauto.
Qed.

Lemma to_float_convertible (a : num) : convertible a -> exists f, to_float a = Ok f.
Proof.
  destruct a as [z|f]; cbn [convertible to_float]; intros Ha.
  - now apply float_of_int_returns.
  - eauto.
Qed.

Lemma mean_convertible (a b : num) :
  convertible a -> convertible b ->
  exists r, (s <- Py.add a b ;; truediv s (PFloat 2)) = Ok r.
Proof.
  intros Ha Hb.
  destruct (to_float_convertible a Ha) as (f & Ef).
  destruct (to_float_convertible b Hb) as (g & Eg).
  assert (Hfloat : (s <- (f' <- to_float a ;; g' <- to_float b ;;
                          Ok (PFloat (f' + g')%float)) ;;
                    truediv s (PFloat 2)) = Ok ((f + g) / 2)%float).
  { rewrite Ef, Eg. reflexivity. }
  destruct a as [x|fa]; [destruct b as [y|fb]|].
  - cbn [convertible] in Ha, Hb. unfold small in Ha, Hb.
    destruct (float_of_int_small (x + y)) as (h & Eh & _).
    { assert (2 ^ 52 + 2 ^ 52 = 2 ^ 53) by reflexivity. lia. }
    exists (h / 2)%float. cbn [Py.add bind truediv to_float]. rewrite Eh. reflexivity.
  - eexists. exact Hfloat.
  - eexists. exact Hfloat.
Qed.

Lemma allocation_returns (votes : list Z) (x : num) :
  Forall small votes -> convertible x ->
  exists r, get_subject_allocation votes x = Ok r.
Proof.
  intros Hv Hx. unfold get_subject_allocation.
  set (l := map PInt votes ++ [PInt 0; x]).
  assert (Hl : forall k a, nth_error (sorted Py.lt l) k = Some a -> convertible a).
  { intros k a Ha. apply nth_error_In in Ha.
    apply (Permutation_in _ (sorted_perm Py.lt l)) in Ha.
    unfold l in Ha. apply in_app_or in Ha. destruct Ha as [Ha|[<-|[<-|[]]]].
    - apply in_map_iff in Ha. destruct Ha as (v & <- & Hin).
      rewrite Forall_forall in Hv. now apply Hv.
    - split; [lia | reflexivity].
    - exact Hx. }
  assert (Hn : (2 <= length (sorted Py.lt l))%nat).
  { rewrite sorted_length. unfold l. rewrite length_app. cbn. lia. }
  set (n := length (sorted Py.lt l)) in *.
  assert (Hhalf : (Nat.div n 2 < n)%nat) by (apply Nat.div_lt; lia).
  destruct (Nat.eqb (Nat.modulo n 2) 1).
  - destruct (index_defined (sorted Py.lt l) (Nat.div n 2) Hhalf) as (a & Ia & Ea).
    rewrite Ia. cbn [bind]. apply to_float_convertible. eapply Hl, Ea.
  - destruct (index_defined (sorted Py.lt l) (Nat.div n 2 - 1)) as (a & Ia & Ea); [lia|].
    destruct (index_defined (sorted Py.lt l) (Nat.div n 2) Hhalf) as (b & Ib & Eb).
    rewrite Ia, Ib. cbn [bind].
    apply mean_convertible; [eapply Hl, Ea | eapply Hl, Eb].
Qed.

Lemma add_eps_returns (b : Z) :
  small b -> exists f, Py.add (PInt b) (PFloat eps) = Ok (PFloat f).
Proof.
  intros Hb. destruct (float_of_int_returns b Hb) as (f & E).
  exists (f + eps)%float. cbn [Py.add to_float]. rewrite E. reflexivity.
Qed.

(** [get_total_and_slope] returns at every breakpoint. *)
Lemma cb_loop_returns (b : Z) (vps : list (list Z)) :
  Forall (Forall small) vps -> small b ->
  forall total slope,
    int0_or_float slope ->
    exists t s, ComputeBudget.total_and_slope_loop (PInt b) vps total slope = Ok (t, s)
                /\ int0_or_float s.
Proof.
  intros Hv Hb. induction Hv as [|votes vps Hvotes _ IH]; intros total slope Hs.
  - exists total, slope. split; [reflexivity | exact Hs].
  - cbn [ComputeBudget.total_and_slope_loop].
    destruct (allocation_returns votes (PInt b) Hvotes Hb) as (v_now & E1).
    destruct (add_eps_returns b Hb) as (xe & E2).
    destruct (allocation_returns votes (PFloat xe) Hvotes I) as (v_next & E3).
    rewrite E1, E2. cbn [bind]. rewrite E3. cbn [bind].
    destruct (v_now <? v_next)%float.
    + change (truediv (PFloat (v_next - v_now)) (PFloat eps))
        with (Ok ((v_next - v_now) / eps)%float).
      cbn [bind].
      destruct Hs as [->|(s & ->)].
      * change (Py.add (PInt 0) (PFloat ((v_next - v_now) / eps)))
          with (Ok (PFloat (0 + (v_next - v_now) / eps))).
        cbn [bind]. apply IH. right. eauto.
      * cbn [Py.add to_float bind]. apply IH. right. eauto.
    + cbn [bind]. apply IH, Hs.
Qed.

Lemma nbs_loop_returns (b : Z) (vps : list (list Z)) :
  Forall (Forall small) vps -> small b ->
  forall total slope,
    exists t s, NoBinarySearch.total_and_slope_loop (PInt b) vps total slope = Ok (t, s).
Proof.
  intros Hv Hb. induction Hv as [|votes vps Hvotes _ IH]; intros total slope.
  - exists total, slope. reflexivity.
  - cbn [NoBinarySearch.total_and_slope_loop].
    destruct (allocation_returns votes (PInt b) Hvotes Hb) as (v_now & E1).
    destruct (add_eps_returns b Hb) as (xe & E2).
    destruct (allocation_returns votes (PFloat xe) Hvotes I) as (v_next & E3).
    rewrite E1, E2. cbn [bind]. rewrite E3. cbn [bind].
    change (truediv (PFloat (v_next - v_now)) (PFloat eps))
      with (Ok ((v_next - v_now) / eps)%float).
    cbn [bind]. apply IH.
Qed.

(** The interpolation returns: the slope it divides by exceeds 1e-9. *)
Lemma interpolate_returns_nbs (total_budget x_low : Z) (sum_low slope_low : float) :
  small total_budget -> small x_low ->
  exists x, NoBinarySearch.interpolate total_budget x_low sum_low slope_low = Ok x
            /\ convertible x.
Proof.
  intros Ht Hx. unfold NoBinarySearch.interpolate.
  destruct (Py.gt (PFloat slope_low) (PFloat 1e-9)) eqn:E.
  - destruct (gt_tolerance slope_low E) as [Hne _].
    destruct (float_of_int_returns total_budget Ht) as (ft & Et).
    destruct (float_of_int_returns x_low Hx) as (fx & Ex).
    cbn [Py.sub to_float bind]. rewrite Et. cbn [bind truediv to_float].
    rewrite Hne. cbn [bind Py.add to_float]. rewrite Ex. cbn [bind].
    eexists. split; [reflexivity | exact I].
  - exists (PInt x_low). split; [reflexivity | exact Hx].
Qed.

Lemma interpolate_returns_cb (total_budget x_low : Z) (sum_low : float) (slope_low : num) :
  small total_budget -> small x_low -> int0_or_float slope_low ->
  exists x, ComputeBudget.interpolate total_budget x_low sum_low slope_low = Ok x
            /\ convertible x.
Proof.
  intros Ht Hx [->|(s & ->)].
  - exists (PInt x_low). split; [reflexivity | exact Hx].
  - exact (interpolate_returns_nbs total_budget x_low sum_low s Ht Hx).
Qed.

(** The scan over the breakpoints returns a phantom value. *)
Lemma scan_returns_cb (total_budget : Z) (vps : list (list Z)) (breaks : list Z) :
  small total_budget -> Forall (Forall small) vps ->
  Forall small breaks -> breaks <> [] ->
  exists x, ComputeBudget.scan total_budget vps breaks = Ok x /\ convertible x.
Proof.
  intros Ht Hv Hb. induction Hb as [|x_low rest Hlow Hrest IH]; intros Hne;
    [congruence|].
  destruct (cb_loop_returns x_low vps Hv Hlow 0%float (PInt 0))
    as (sl & kl & El & Hkl); [now left|].
  destruct rest as [|x_high rest].
  - cbn [ComputeBudget.scan]. unfold ComputeBudget.get_total_and_slope.
    rewrite El. cbn [bind]. now apply interpolate_returns_cb.
  - rewrite ScanCB.scan_step_cb. unfold ComputeBudget.get_total_and_slope.
    inversion Hrest as [|? ? Hhigh _]; subst.
    destruct (cb_loop_returns x_high vps Hv Hhigh 0%float (PInt 0))
      as (sh & kh & Eh & _); [now left|].
    rewrite El. cbn [bind]. rewrite Eh. cbn [bind].
    destruct (ScanCB.within total_budget sl sh).
    + now apply interpolate_returns_cb.
    + apply IH. discriminate.
Qed.

Lemma scan_returns_nbs (total_budget : Z) (vps : list (list Z)) (breaks : list Z) :
  small total_budget -> Forall (Forall small) vps ->
  Forall small breaks -> breaks <> [] ->
  exists x, NoBinarySearch.scan total_budget vps breaks = Ok x /\ convertible x.
Proof.
  intros Ht Hv Hb. induction Hb as [|x_low rest Hlow Hrest IH]; intros Hne;
    [congruence|].
  destruct (nbs_loop_returns x_low vps Hv Hlow 0%float 0%float) as (sl & kl & El).
  destruct rest as [|x_high rest].
  - cbn [NoBinarySearch.scan]. unfold NoBinarySearch.get_total_and_slope.
    rewrite El. cbn [bind]. now apply interpolate_returns_nbs.
  - rewrite ScanNBS.scan_step_nbs. unfold NoBinarySearch.get_total_and_slope.
    inversion Hrest as [|? ? Hhigh _]; subst.
    destruct (nbs_loop_returns x_high vps Hv Hhigh 0%float 0%float) as (sh & kh & Eh).
    rewrite El. cbn [bind]. rewrite Eh. cbn [bind].
    destruct (ScanNBS.within total_budget sl sh).
    + now apply interpolate_returns_nbs.
    + apply IH. discriminate.
Qed.

(** The breakpoints are 0 and votes. *)
Lemma sorted_breaks_small (vps : list (list Z)) :
  Forall (Forall small) vps ->
  Forall small (sorted_breaks_of vps) /\ sorted_breaks_of vps <> [].
Proof.
  intros Hv. unfold sorted_breaks_of.
  set (l := nodup Z.eq_dec (0 :: concat vps)).
  split.
  - rewrite Forall_forall. intros b Hb.
    apply (Permutation_in _ (sorted_perm Z.ltb l)) in Hb.
    apply nodup_In in Hb. destruct Hb as [<-|Hb].
    + split; [lia | reflexivity].
    + apply in_concat in Hb. destruct Hb as (votes & Hvotes & Hb).
      rewrite Forall_forall in Hv. specialize (Hv votes Hvotes).
      rewrite Forall_forall in Hv. now apply Hv.
  - intros E. assert (H0 : In 0 (sorted Z.ltb l)).
    { eapply Permutation_in; [symmetry; apply sorted_perm|].
      apply nodup_In. now left. }
    rewrite E in H0. contradiction.
Qed.

Lemma target_x_returns (total_budget : Z) (vps : list (list Z)) :
  small total_budget -> Forall (Forall small) vps ->
  (exists x, ComputeBudget.target_x total_budget vps = Ok x /\ convertible x)
  /\ (exists x, NoBinarySearch.target_x total_budget vps = Ok x /\ convertible x).
Proof.
  intros Ht Hv. destruct (sorted_breaks_small vps Hv) as [Hb Hne].
  split; [now apply scan_returns_cb | now apply scan_returns_nbs].
Qed.

(** From the matrix to the votes of each subject: every citizen has an
    entry for every subject. *)
Lemma column_returns (citizen_votes : list (list Z)) (j : nat) :
  Forall (fun citizen => (j < length citizen)%nat) citizen_votes ->
  exists col, column citizen_votes j = Ok col.
Proof.
  intros H. unfold column. apply mapM_total.
  apply (Forall_impl _ (P := fun citizen => (j < length citizen)%nat)); [|exact H].
  intros citizen Hj. destruct (index_defined citizen j Hj) as (v & Hv & _). eauto.
Qed.

Lemma column_small (citizen_votes : list (list Z)) (j : nat) (col : list Z) :
  Forall (Forall small) citizen_votes ->
  column citizen_votes j = Ok col -> Forall small col.
Proof.
  intros Hv H. rewrite Forall_forall. intros v Hin.
  destruct (mapM_in _ _ _ _ H Hin) as (citizen & Hc & Hidx).
  unfold index in Hidx. destruct (nth_error citizen j) eqn:E; [|discriminate].
  inversion Hidx; subst. rewrite Forall_forall in Hv. specialize (Hv _ Hc).
  rewrite Forall_forall in Hv. eapply Hv, nth_error_In, E.
Qed.

Lemma votes_per_subject_returns (citizen_votes : list (list Z)) (n : nat) :
  Forall (fun citizen => (n <= length citizen)%nat) citizen_votes ->
  Forall (Forall small) citizen_votes ->
  exists vps, votes_per_subject_of citizen_votes n = Ok vps
              /\ Forall (Forall small) vps /\ length vps = n.
Proof.
  intros Hlen Hv. unfold votes_per_subject_of.
  destruct (mapM_total (fun i => c <- column citizen_votes i ;; Ok (sorted Z.ltb c))
                       (seq 0 n)) as (vps & E).
  { rewrite Forall_forall. intros i Hi. apply in_seq in Hi.
    destruct (column_returns citizen_votes i) as (col & Hcol).
    - apply (Forall_impl _ (P := fun citizen => (n <= length citizen)%nat));
        [|exact Hlen]. intros citizen Hc. lia.
    - rewrite Hcol. cbn [bind]. eauto. }
  exists vps. split; [exact E|]. split.
  - rewrite Forall_forall. intros votes Hin.
    destruct (mapM_in _ _ _ _ E Hin) as (i & _ & Hi).
    bind_inv Hi. inversion Hi; subst.
    pose proof (column_small _ _ _ Hv Ha) as Hc.
    rewrite Forall_forall in *. intros v Hvin. apply Hc.
    eapply Permutation_in; [apply sorted_perm | exact Hvin].
  - rewrite (mapM_length _ _ _ E). apply length_seq.
Qed.

(** Zero allocations: the floors are zeros and nothing is handed out. *)
Lemma zero_floors_returns (floats : list float) :
  Forall (fun f => f = 0%float) floats ->
  floors floats = Ok (repeat 0 (length floats)).
Proof.
  induction 1 as [|f floats -> _ IH]; [reflexivity|].
  unfold floors in *. cbn [mapM length repeat].
  change (Py.floor (0 + 1e-11)) with (Ok 0 : result Z). cbn [bind].
  rewrite IH. reflexivity.
Qed.

Lemma zero_largest_remainder_returns (floats : list float) (n : nat) :
  Forall (fun f => f = 0%float) floats ->
  ComputeBudget.largest_remainder 0 n floats = Ok (repeat 0 (length floats))
  /\ NoBinarySearch.largest_remainder 0 n floats = Ok (repeat 0 (length floats)).
Proof.
  intros Hf. pose proof (zero_floors_returns floats Hf) as E.
  destruct (zero_floors _ _ Hf E) as [_ Hsum].
  unfold ComputeBudget.largest_remainder, NoBinarySearch.largest_remainder.
  rewrite E. cbn [bind]. rewrite Hsum. split; reflexivity.
Qed.

(** C3, amended: when every subject is voted 0 by at least half of the
    citizens (rounded down), a list returned for a budget of 0 is a list of
    zeros, in both functions; and both functions do return it when every
    citizen has an entry for every subject and the votes are below 2^52. *)
Theorem zero_budget_all_zero (first : list Z) (rest : list (list Z)) :
  Forall (Forall (fun v => 0 <= v)) (first :: rest) ->
  half_vote_zero (first :: rest) ->
  ((forall l, compute_budget 0 (first :: rest) = Ok l -> Forall (fun a => a = 0) l)
   /\ (forall l, no_binary_search_compute_budget 0 (first :: rest) = Ok l
                 -> Forall (fun a => a = 0) l))
  /\ (Forall (Forall (fun v => v < 2 ^ 52)) (first :: rest) ->
      Forall (fun citizen => (length first <= length citizen)%nat) rest ->
      compute_budget 0 (first :: rest) = Ok (repeat 0 (length first))
      /\ no_binary_search_compute_budget 0 (first :: rest)
         = Ok (repeat 0 (length first))).
Proof.
  intros Hv Hhalf. split; [exact (zero_budget_zeros first rest Hv Hhalf)|].
  intros Hbound Hrows.
  assert (Hsmall : Forall (Forall small) (first :: rest)).
  { rewrite Forall_forall in *. intros citizen Hc.
    specialize (Hv _ Hc). specialize (Hbound _ Hc).
    rewrite Forall_forall in *. intros v Hin. split; auto. }
  assert (Hlen : Forall (fun citizen => (length first <= length citizen)%nat)
                        (first :: rest)) by (constructor; [lia | exact Hrows]).
  destruct (votes_per_subject_returns _ _ Hlen Hsmall) as (vps & Evps & Hvps & Hn).
  destruct (votes_per_subject_zero _ _ _ Hv Hhalf Evps) as [Hnn Hz].
  assert (H0 : small 0) by (split; [lia | reflexivity]).
  destruct (target_x_returns 0 vps H0 Hvps) as [(x & Ex & Hx) (y & Ey & Hy)].
  pose proof (target_x_zero_cb _ _ Hnn Hz Ex) as Zx.
  pose proof (target_x_zero_nbs _ _ Hnn Hz Ey) as Zy.
  assert (Hfl : forall z, convertible z -> zero_like z ->
                  mapM (fun v => get_subject_allocation v z) vps
                  = Ok (repeat 0%float (length first))).
  { intros z Hc Hzl.
    destruct (mapM_total (fun v => get_subject_allocation v z) vps) as (floats & E).
    { apply (Forall_impl _ (P := Forall small)); [|exact Hvps].
      intros votes Hvotes. now apply allocation_returns. }
    rewrite E. f_equal.
    pose proof (zero_floats _ _ _ Hz Hzl E) as Hf.
    rewrite <- Hn, <- (mapM_length _ _ _ E).
    clear -Hf. induction Hf as [|f floats -> _ IH]; [reflexivity|].
    cbn [length repeat]. now rewrite <- IH. }
  assert (Hzeros : Forall (fun f => f = 0%float) (repeat 0%float (length first))).
  { rewrite Forall_forall. intros f Hin. now apply repeat_spec in Hin. }
  destruct (zero_largest_remainder_returns _ (length first) Hzeros) as [Lcb Lnbs].
  rewrite repeat_length in Lcb, Lnbs.
  split.
  - unfold compute_budget, ComputeBudget.floats_of.
    rewrite Evps. cbn [bind]. rewrite Ex. cbn [bind].
    rewrite (Hfl x Hx Zx). cbn [bind]. exact Lcb.
  - unfold no_binary_search_compute_budget, NoBinarySearch.floats_of.
    rewrite Evps. cbn [bind]. rewrite Ey. cbn [bind].
    rewrite (Hfl y Hy Zy). cbn [bind]. exact Lnbs.
Qed.

(** The theorem at work: two citizens, three subjects. *)
Lemma zero_budget_all_zero_witness :
  compute_budget 0 [[0; 7; 0]; [4; 0; 0]] = Ok [0; 0; 0]
  /\ no_binary_search_compute_budget 0 [[0; 7; 0]; [4; 0; 0]] = Ok [0; 0; 0].
Proof.
  destruct (zero_budget_all_zero [0; 7; 0] [[4; 0; 0]]) as [_ Hret].
  - repeat constructor; lia.
  - intros j col Hcol.
    destruct j as [|[|[|j]]]; cbn in Hcol;
      try (inversion Hcol; subst; vm_compute; repeat constructor).
    destruct j; discriminate.
  - apply Hret.
    + repeat constructor; reflexivity.
    + repeat constructor.
Defined.

(** * Further properties of the program *)

(** ** The shape of the input and of the output *)

Lemma floors_length (floats : list float) (ints : list Z) :
  floors floats = Ok ints -> length ints = length floats.
Proof. apply mapM_length. Qed.

Lemma votes_per_subject_length (citizen_votes : list (list Z)) (n : nat)
      (vps : list (list Z)) :
  votes_per_subject_of citizen_votes n = Ok vps -> length vps = n.
Proof.
  intros H. rewrite (mapM_length _ _ _ H). apply length_seq.
Qed.

Lemma largest_remainder_length (total_budget : Z) (n : nat)
      (floats : list float) (l : list Z) :
  (ComputeBudget.largest_remainder total_budget n floats = Ok l ->
   length l = length floats)
  /\ (NoBinarySearch.largest_remainder total_budget n floats = Ok l ->
      length l = length floats).
Proof.
  unfold ComputeBudget.largest_remainder, NoBinarySearch.largest_remainder.
  split; intros H; bind_inv H; rename a into ints;
    rewrite <- (floors_length _ _ Ha);
    (destruct (0 <? total_budget - sum ints);
     [bind_inv H; now apply distribute_sum in H | now inversion H]).
Qed.

(** X1: One entry per subject: the list that either function returns is as
    long as the first citizen's row. *)
Theorem one_entry_per_subject
        (total_budget : Z) (first : list Z) (rest : list (list Z)) (l : list Z) :
  compute_budget total_budget (first :: rest) = Ok l
  \/ no_binary_search_compute_budget total_budget (first :: rest) = Ok l ->
  length l = length first.
Proof.
  intros [H|H].
  - unfold compute_budget in H. cbn zeta in H. bind_inv H. rename a into floats.
    apply (proj1 (largest_remainder_length _ _ _ _)) in H. rewrite H.
    unfold ComputeBudget.floats_of in Ha. bind_inv Ha. bind_inv Ha.
    rewrite (mapM_length _ _ _ Ha). eapply votes_per_subject_length, Ha0.
  - unfold no_binary_search_compute_budget in H. cbn zeta in H.
    bind_inv H. rename a into floats.
    apply (proj2 (largest_remainder_length _ _ _ _)) in H. rewrite H.
    unfold NoBinarySearch.floats_of in Ha. bind_inv Ha. bind_inv Ha.
    rewrite (mapM_length _ _ _ Ha). eapply votes_per_subject_length, Ha0.
Qed.

Lemma one_entry_per_subject_witness :
  length [50; 0; 50] = length [100; 0; 0].
Proof.
  apply (one_entry_per_subject 100 [100; 0; 0] [[0; 0; 100]] [50; 0; 50]).
  left. vm_compute. reflexivity.
Defined.

(** A failing element makes [mapM] fail, with the only error there is. *)
Lemma mapM_raises {A B : Type} (f : A -> result B) (e : exn) (l : list A) :
  (forall a, In a l -> (exists b, f a = Ok b) \/ f a = Raise e) ->
  (exists a, In a l /\ f a = Raise e) ->
  mapM f l = Raise e.
Proof.
  induction l as [|a l IH]; intros Hall (a0 & Hin & Hr); [contradiction|].
  cbn [mapM]. destruct (Hall a (or_introl eq_refl)) as [(b & Hb)|Hb].
  - rewrite Hb. cbn [bind]. rewrite IH; [reflexivity | |].
    + intros a' Ha'. apply Hall. now right.
    + destruct Hin as [->|Hin]; [congruence|]. eauto.
  - now rewrite Hb.
Qed.

Lemma index_cases {A : Type} (l : list A) (i : nat) :
  (exists a, index l i = Ok a) \/ index l i = Raise IndexError.
Proof. unfold index. destruct (nth_error l i); eauto. Qed.

Lemma column_cases (citizen_votes : list (list Z)) (i : nat) :
  (exists col, column citizen_votes i = Ok col)
  \/ column citizen_votes i = Raise IndexError.
Proof.
  unfold column. induction citizen_votes as [|c cs IH]; cbn [mapM]; [eauto|].
  destruct (index_cases c i) as [(v & ->) | ->]; [|now right]. cbn [bind].
  destruct IH as [(col & ->)| ->]; cbn [bind]; eauto.
Qed.

Lemma votes_per_subject_short_row (citizen_votes : list (list Z)) (n : nat) :
  Exists (fun citizen => (length citizen < n)%nat) citizen_votes ->
  votes_per_subject_of citizen_votes n = Raise IndexError.
Proof.
  intros Hshort. apply Exists_exists in Hshort. destruct Hshort as (c & Hc & Hlen).
  unfold votes_per_subject_of. apply mapM_raises.
  - intros i _. destruct (column_cases citizen_votes i) as [(col & ->)| ->];
      cbn [bind]; eauto.
  - exists (length c). split; [apply in_seq; lia|].
    assert (E : column citizen_votes (length c) = Raise IndexError);
      [|now rewrite E].
    unfold column. apply mapM_raises.
    + intros c' _. apply index_cases.
    + exists c. split; [exact Hc|]. unfold index.
      now rewrite (proj2 (nth_error_None c (length c)) (Nat.le_refl _)).
Qed.

(** X2: A citizen with fewer entries than the first citizen: both functions
    raise IndexError, whatever the budget. *)
Theorem short_row_raises
        (total_budget : Z) (first : list Z) (rest : list (list Z)) :
  Exists (fun citizen => (length citizen < length first)%nat) rest ->
  compute_budget total_budget (first :: rest) = Raise IndexError
  /\ no_binary_search_compute_budget total_budget (first :: rest)
     = Raise IndexError.
Proof.
  intros Hshort.
  assert (E : votes_per_subject_of (first :: rest) (length first) = Raise IndexError).
  { apply votes_per_subject_short_row. now right. }
  unfold compute_budget, no_binary_search_compute_budget,
    ComputeBudget.floats_of, NoBinarySearch.floats_of.
  rewrite E. split; reflexivity.
Qed.

Lemma short_row_raises_witness :
  compute_budget 0 [[10; 20; 30]; [5; 5]] = Raise IndexError
  /\ no_binary_search_compute_budget 0 [[10; 20; 30]; [5; 5]] = Raise IndexError.
Proof.
  apply (short_row_raises 0 [10; 20; 30] [[5; 5]]).
  constructor. cbn. lia.
Defined.

Lemma mapM_ext_in {A B : Type} (f g : A -> result B) (l : list A) :
  (forall a, In a l -> f a = g a) -> mapM f l = mapM g l.
Proof.
  induction l as [|a l IH]; intros H; [reflexivity|]. cbn [mapM].
  rewrite (H a (or_introl eq_refl)), IH; [reflexivity|].
  intros a' Ha'. apply H. now right.
Qed.

Lemma column_firstn (citizen_votes : list (list Z)) (n i : nat) :
  (i < n)%nat ->
  column (map (firstn n) citizen_votes) i = column citizen_votes i.
Proof.
  intros Hi. unfold column. induction citizen_votes as [|c cs IH]; [reflexivity|].
  cbn [map mapM]. rewrite IH. unfold index at 1 3.
  now rewrite nth_error_firstn, (proj2 (Nat.ltb_lt i n) Hi).
Qed.

Lemma votes_per_subject_firstn (citizen_votes : list (list Z)) (n : nat) :
  votes_per_subject_of (map (firstn n) citizen_votes) n
  = votes_per_subject_of citizen_votes n.
Proof.
  unfold votes_per_subject_of. apply mapM_ext_in.
  intros i Hi. apply in_seq in Hi. rewrite column_firstn by lia. reflexivity.
Qed.

(** X3: entries beyond the length of the first citizen's row are never
    read: cutting every row to that length changes nothing, in either
    function. *)
Theorem surplus_entries_ignored
        (total_budget : Z) (first : list Z) (rest : list (list Z)) :
  compute_budget total_budget (first :: map (firstn (length first)) rest)
  = compute_budget total_budget (first :: rest)
  /\ no_binary_search_compute_budget total_budget
       (first :: map (firstn (length first)) rest)
     = no_binary_search_compute_budget total_budget (first :: rest).
Proof.
  assert (E : votes_per_subject_of (first :: map (firstn (length first)) rest)
                                   (length first)
              = votes_per_subject_of (first :: rest) (length first)).
  { rewrite <- (votes_per_subject_firstn (first :: rest)).
    cbn [map]. now rewrite firstn_all. }
  unfold compute_budget, no_binary_search_compute_budget,
    ComputeBudget.floats_of, NoBinarySearch.floats_of.
  now rewrite E.
Qed.

(** ** The order of the citizens and of the votes *)

Lemma sorted_ltb_le (l : list Z) : StronglySorted Z.le (sorted Z.ltb l).
Proof.
  assert (Hs : StronglySorted (fun a b => Z.ltb b a = false) (sorted Z.ltb l)).
  { apply (sorted_sorted Z.ltb (fun _ => True)).
    - intros a b _ _. rewrite Z.ltb_lt, Z.ltb_ge. lia.
    - intros a b c _ _ _. rewrite !Z.ltb_ge. lia.
    - rewrite Forall_forall. auto. }
  induction Hs as [|a s _ IH Hall]; constructor; [exact IH|].
  rewrite Forall_forall in *. intros b Hb. apply Z.ltb_ge. now apply Hall.
Qed.

(** An ascending list is determined by its elements. *)
Lemma ascending_unique (l l' : list Z) :
  StronglySorted Z.le l -> StronglySorted Z.le l' -> Permutation l l' -> l = l'.
Proof.
  intros Hs. revert l'. induction Hs as [|a l Hs IH Ha]; intros l' Hs' Hp.
  - apply Permutation_nil in Hp. now subst.
  - destruct Hs' as [|b l' Hs' Hb].
    + apply Permutation_sym, Permutation_nil in Hp. discriminate.
    + assert (E : a = b).
      { rewrite Forall_forall in Ha, Hb.
        assert (Hin_b : In b (a :: l))
          by (eapply Permutation_in; [symmetry; exact Hp | now left]).
        assert (Hin_a : In a (b :: l'))
          by (eapply Permutation_in; [exact Hp | now left]).
        destruct Hin_b as [Hab|Hin_b]; [congruence|].
        destruct Hin_a as [Hba|Hin_a]; [congruence|].
        specialize (Ha b Hin_b). specialize (Hb a Hin_a). lia. }
      subst b. f_equal. apply IH; [exact Hs'|].
      eapply Permutation_cons_inv, Hp.
Qed.

Lemma sorted_of_permutation (l l' : list Z) :
  Permutation l l' -> sorted Z.ltb l = sorted Z.ltb l'.
Proof.
  intros Hp. apply ascending_unique; try apply sorted_ltb_le.
  rewrite (sorted_perm Z.ltb l), (sorted_perm Z.ltb l'). exact Hp.
Qed.

(** A column of a matrix whose rows are long enough. *)
Lemma column_defined (citizen_votes : list (list Z)) (n i : nat) :
  Forall (fun citizen => (n <= length citizen)%nat) citizen_votes -> (i < n)%nat ->
  column citizen_votes i = Ok (map (fun citizen => nth i citizen 0) citizen_votes).
Proof.
  intros Hlen Hi. unfold column.
  induction Hlen as [|c cs Hc _ IH]; [reflexivity|].
  cbn [mapM map]. rewrite IH.
  destruct (index_defined c i) as (v & Ev & Hv); [lia|].
  rewrite Ev. cbn [bind]. now rewrite (nth_error_nth _ _ 0 Hv).
Qed.

Lemma votes_per_subject_of_permutation (m m' : list (list Z)) (n : nat) :
  Permutation m m' ->
  votes_per_subject_of m n = votes_per_subject_of m' n.
Proof.
  intros Hp.
  destruct (Forall_Exists_dec (fun citizen : list Z => (n <= length citizen)%nat)
                              (fun citizen => le_dec n (length citizen)) m)
    as [Hall|Hex].
  - assert (Hall' : Forall (fun citizen => (n <= length citizen)%nat) m').
    { rewrite Forall_forall in *. intros c Hc. apply Hall.
      eapply Permutation_in; [symmetry; exact Hp | exact Hc]. }
    unfold votes_per_subject_of. apply mapM_ext_in. intros i Hi. apply in_seq in Hi.
    rewrite (column_defined m n i Hall), (column_defined m' n i Hall') by lia.
    cbn [bind]. f_equal. apply sorted_of_permutation.
    now apply Permutation_map.
  - assert (Hshort : Exists (fun citizen => (length citizen < n)%nat) m).
    { apply Exists_exists in Hex. destruct Hex as (c & Hc & Hlen).
      apply Exists_exists. exists c. split; [exact Hc | lia]. }
    assert (Hshort' : Exists (fun citizen => (length citizen < n)%nat) m').
    { apply Exists_exists in Hshort. destruct Hshort as (c & Hc & Hlen).
      apply Exists_exists. exists c. split; [|exact Hlen].
      eapply Permutation_in; [exact Hp | exact Hc]. }
    now rewrite !votes_per_subject_short_row.
Qed.

(** X4: The citizens are anonymous: in whatever order they come, as long as
    the first row has the same length, both functions return (or raise) the
    same. *)
Theorem citizens_are_anonymous
        (total_budget : Z) (first first' : list Z) (rest rest' : list (list Z)) :
  Permutation (first :: rest) (first' :: rest') ->
  length first = length first' ->
  compute_budget total_budget (first :: rest)
  = compute_budget total_budget (first' :: rest')
  /\ no_binary_search_compute_budget total_budget (first :: rest)
     = no_binary_search_compute_budget total_budget (first' :: rest').
Proof.
  intros Hp Hlen.
  pose proof (votes_per_subject_of_permutation _ _ (length first) Hp) as E.
  unfold compute_budget, no_binary_search_compute_budget,
    ComputeBudget.floats_of, NoBinarySearch.floats_of.
  rewrite <- Hlen, E. split; reflexivity.
Qed.

Lemma citizens_are_anonymous_witness :
  compute_budget 100 [[80; 20]; [20; 80]; [50; 50]]
  = compute_budget 100 [[50; 50]; [80; 20]; [20; 80]]
  /\ no_binary_search_compute_budget 100 [[80; 20]; [20; 80]; [50; 50]]
     = no_binary_search_compute_budget 100 [[50; 50]; [80; 20]; [20; 80]].
Proof.
  apply (citizens_are_anonymous 100 [80; 20] [50; 50]
           [[20; 80]; [50; 50]] [[80; 20]; [20; 80]]).
  - apply (Permutation_app_comm [[80; 20]; [20; 80]] [[50; 50]]).
  - reflexivity.
Defined.

(** Sorting ints as Python numbers is sorting them as integers. *)
Lemma lt_ints (a b : Z) : Py.lt (PInt a) (PInt b) = Z.ltb a b.
Proof. unfold Py.lt, Z.ltb. cbn [Py.compare]. now destruct (a ?= b). Qed.

Lemma insort_ints (a : Z) (l : list Z) :
  insort Py.lt (PInt a) (map PInt l) = map PInt (insort Z.ltb a l).
Proof.
  induction l as [|b l IH]; [reflexivity|]. cbn [map insort].
  rewrite lt_ints. destruct (Z.ltb a b); [reflexivity|]. cbn [map]. now rewrite IH.
Qed.

Lemma sorted_ints (l : list Z) :
  sorted Py.lt (map PInt l) = map PInt (sorted Z.ltb l).
Proof.
  unfold sorted. change (@nil num) with (map PInt []).
  generalize (@nil Z) as acc. induction l as [|a l IH]; intros acc; [reflexivity|].
  cbn [map fold_left]. rewrite insort_ints. apply IH.
Qed.

Lemma sorted_with_phantoms (votes : list Z) (x : num) :
  sorted Py.lt (map PInt votes ++ [PInt 0; x])
  = insort Py.lt x (insort Py.lt (PInt 0) (map PInt (sorted Z.ltb votes))).
Proof.
  unfold sorted at 1. rewrite fold_left_app. cbn [fold_left].
  fold (sorted Py.lt (map PInt votes)). now rewrite sorted_ints.
Qed.

(** X5: The allocation does not depend on the order of the votes: any
    rearrangement gives the same result, for every phantom value. *)
Theorem allocation_ignores_vote_order (votes votes' : list Z) (x : num) :
  Permutation votes votes' ->
  get_subject_allocation votes x = get_subject_allocation votes' x.
Proof.
  intros Hp. unfold get_subject_allocation.
  rewrite !sorted_with_phantoms, (sorted_of_permutation _ _ Hp). reflexivity.
Qed.

Lemma allocation_ignores_vote_order_witness :
  get_subject_allocation [30; 10; 20] (PFloat 12.5)
  = get_subject_allocation [10; 20; 30] (PFloat 12.5).
Proof.
  apply allocation_ignores_vote_order.
  apply (Permutation_app_comm [30] [10; 20]).
Defined.

(** ** How many units a subject receives *)

Lemma units_of_bounds_nodup (js : list nat) (j : nat) :
  NoDup js -> 0 <= units_of js j <= 1.
Proof.
  intros Hnd. unfold units_of.
  pose proof (proj1 (NoDup_count_occ Nat.eq_dec js) Hnd j). lia.
Qed.

Lemma in_firstn {A : Type} (n : nat) (l : list A) (a : A) :
  In a (firstn n l) -> In a l.
Proof.
  revert n; induction l as [|b l IH]; intros [|n]; cbn; try tauto.
  intros [->|H]; [now left | right; eapply IH, H].
Qed.

Lemma nodup_firstn {A : Type} (n : nat) (l : list A) : NoDup l -> NoDup (firstn n l).
Proof.
  intros Hnd. revert n. induction Hnd as [|a l Ha _ IH]; intros [|n]; cbn;
    try constructor; [|apply IH].
  intros Hin. apply Ha. eapply in_firstn, Hin.
Qed.

Lemma cb_units_bounds
      (total_budget : Z) (n : nat) (floats : list float) (ints l : list Z) :
  floors floats = Ok ints ->
  ComputeBudget.largest_remainder total_budget n floats = Ok l ->
  forall j, nth j ints 0 <= nth j l 0 <= nth j ints 0 + 1.
Proof.
  intros Hints H j. unfold ComputeBudget.largest_remainder in H.
  rewrite Hints in H. cbn [bind] in H.
  destruct (0 <? total_budget - sum ints); [|inversion H; subst; lia].
  bind_inv H. rename a into keys.
  destruct (distribute_picks _ _ _ _ _ H) as (js & Hjs & Hnth).
  apply picks_index in Hjs. cbn [skipn] in Hjs.
  assert (Hnd : NoDup js).
  { subst js. apply nodup_firstn.
    eapply Permutation_NoDup;
      [symmetry; apply sorted_by_key_reverse_perm | apply seq_NoDup]. }
  rewrite Hnth. pose proof (units_of_bounds_nodup js j Hnd). lia.
Qed.

(** X6: [compute_budget]: in the list it returns every subject has the floor
    of its continuous allocation or one unit more. *)
Theorem compute_budget_adds_at_most_one
        (total_budget : Z) (first : list Z) (rest : list (list Z))
        (floats : list float) (ints l : list Z) :
  ComputeBudget.floats_of total_budget (first :: rest) (length first) = Ok floats ->
  floors floats = Ok ints ->
  compute_budget total_budget (first :: rest) = Ok l ->
  forall j, nth j ints 0 <= nth j l 0 <= nth j ints 0 + 1.
Proof.
  intros Hfloats Hints H. unfold compute_budget in H.
  rewrite Hfloats in H. cbn [bind] in H.
  exact (cb_units_bounds _ _ _ _ _ Hints H).
Qed.

Lemma compute_budget_adds_at_most_one_witness :
  nth 3 [3; 4; 7; 11] 0 <= nth 3 [4; 5; 7; 12] 0 <= nth 3 [3; 4; 7; 11] 0 + 1.
Proof.
  apply (compute_budget_adds_at_most_one 28 [1; 3; 9; 17] [[40; 40; 40; 40]]
           [3.7499999329199651; 4.7499999329199651; 7.7499999329199651;
            11.749999932919966]%float [3; 4; 7; 11] [4; 5; 7; 12]).
  - vm_compute. reflexivity.
  - vm_compute. reflexivity.
  - vm_compute. reflexivity.
Defined.

(** Among [0 .. c-1], the numbers with residue [p] modulo [n]. *)
Lemma count_residue (n p c : nat) :
  (p < n)%nat ->
  count_occ Nat.eq_dec (map (fun k => Nat.modulo k n) (seq 0 c)) p
  = (Nat.div c n + (if Nat.ltb p (Nat.modulo c n) then 1 else 0))%nat.
Proof.
  intros Hp. induction c as [|c IH].
  - cbn [seq map count_occ]. rewrite Nat.Div0.div_0_l, Nat.Div0.mod_0_l.
    reflexivity.
  - rewrite seq_S, map_app, count_occ_app, IH. cbn [Nat.add map count_occ].
    assert (Hn : n <> O) by lia.
    pose proof (Nat.div_mod_eq c n) as Hc.
    pose proof (Nat.mod_upper_bound c n Hn) as Hr.
    set (q := Nat.div c n) in *. set (r := Nat.modulo c n) in *.
    destruct (Nat.eq_dec (S r) n) as [Hlast|Hmid].
    + assert (Hq : Nat.div (S c) n = S q)
        by (symmetry; apply (Nat.div_unique (S c) n (S q) 0); lia).
      assert (Hm : Nat.modulo (S c) n = O)
        by (symmetry; apply (Nat.mod_unique (S c) n (S q) 0); lia).
      rewrite Hq, Hm.
      destruct (Nat.eq_dec r p), (Nat.ltb_spec p r), (Nat.ltb_spec p 0); lia.
    + assert (Hq : Nat.div (S c) n = q)
        by (symmetry; apply (Nat.div_unique (S c) n q (S r)); lia).
      assert (Hm : Nat.modulo (S c) n = S r)
        by (symmetry; apply (Nat.mod_unique (S c) n q (S r)); lia).
      rewrite Hq, Hm.
      destruct (Nat.eq_dec r p), (Nat.ltb_spec p r), (Nat.ltb_spec p (S r)); lia.
Qed.

Lemma count_occ_map_iff {A : Type} (f g : A -> nat) (a b : nat) (l : list A) :
  (forall x, In x l -> f x = a <-> g x = b) ->
  count_occ Nat.eq_dec (map f l) a = count_occ Nat.eq_dec (map g l) b.
Proof.
  induction l as [|x l IH]; intros H; [reflexivity|]. cbn [map count_occ].
  rewrite IH by (intros y Hy; apply H; now right).
  pose proof (H x (or_introl eq_refl)) as Hx.
  destruct (Nat.eq_dec (f x) a), (Nat.eq_dec (g x) b); tauto.
Qed.

(** Walking a permutation of the subjects round robin for [c] steps serves
    every subject [c / n] times, or once more when [n] does not divide
    [c]. *)
Lemma round_robin_counts (indices : list nat) (n c j : nat) :
  Permutation indices (seq 0 n) -> (j < n)%nat ->
  let js := map (fun k => nth (Nat.modulo k n) indices O) (seq 0 c) in
  Z.of_nat (Nat.div c n) <= units_of js j
  <= Z.of_nat (Nat.div c n) + (if Nat.eqb (Nat.modulo c n) 0 then 0 else 1).
Proof.
  intros Hperm Hj js.
  assert (Hlen : length indices = n)
    by (rewrite (Permutation_length Hperm); apply length_seq).
  assert (Hnd : NoDup indices)
    by (eapply Permutation_NoDup; [symmetry; exact Hperm | apply seq_NoDup]).
  assert (Hin : In j indices).
  { eapply Permutation_in; [symmetry; exact Hperm | apply in_seq; lia]. }
  destruct (In_nth indices j O Hin) as (p & Hp & Ep).
  assert (E : units_of js j
              = Z.of_nat (count_occ Nat.eq_dec
                                    (map (fun k => Nat.modulo k n) (seq 0 c)) p)).
  { unfold units_of, js. f_equal. apply count_occ_map_iff.
    intros k _. split.
    - intros Hk. apply (proj1 (NoDup_nth indices O) Hnd);
        [rewrite Hlen; apply Nat.mod_upper_bound; lia | exact Hp | congruence].
    - intros ->. exact Ep. }
  rewrite E, count_residue by lia.
  destruct (Nat.ltb_spec p (Nat.modulo c n)), (Nat.eqb_spec (Nat.modulo c n) 0); lia.
Qed.

Lemma nbs_units_bounds
      (total_budget : Z) (n : nat) (floats : list float) (ints l : list Z) :
  floors floats = Ok ints ->
  NoBinarySearch.largest_remainder total_budget n floats = Ok l ->
  forall j, (j < n)%nat ->
    let c := Z.to_nat (total_budget - sum ints) in
    nth j ints 0 + Z.of_nat (Nat.div c n) <= nth j l 0
    <= nth j ints 0 + Z.of_nat (Nat.div c n)
       + (if Nat.eqb (Nat.modulo c n) 0 then 0 else 1).
Proof.
  intros Hints H j Hj. unfold NoBinarySearch.largest_remainder in H.
  rewrite Hints in H. cbn [bind] in H.
  destruct (Z.ltb_spec 0 (total_budget - sum ints)) as [Hpos|Hneg].
  - bind_inv H. rename a into keys.
    assert (Hk : length keys = n).
    { rewrite (mapM_length _ _ _ Ha). apply length_seq. }
    destruct (distribute_picks _ _ _ _ _ H) as (js & Hjs & Hnth).
    apply picks_round_robin in Hjs.
    pose proof (sorted_by_key_reverse_perm keys) as Hperm. rewrite Hk in Hperm.
    pose proof (round_robin_counts _ n (Z.to_nat (total_budget - sum ints)) j
                                   Hperm Hj) as Hc.
    cbv zeta in Hc |- *. rewrite <- Hjs in Hc. rewrite Hnth. lia.
  - inversion H; subst. cbv zeta.
    replace (Z.to_nat (total_budget - sum l)) with O by lia.
    rewrite Nat.Div0.div_0_l, Nat.Div0.mod_0_l. cbn. lia.
Qed.

(** X7: [no_binary_search_compute_budget]: a shortfall of [c] units over [n]
    subjects gives every subject [c / n] units on top of its floor, or one
    more when [n] does not divide [c]: two subjects never differ by more
    than one unit in what they receive. *)
Theorem round_robin_is_even
        (total_budget : Z) (first : list Z) (rest : list (list Z))
        (floats : list float) (ints l : list Z) :
  NoBinarySearch.floats_of total_budget (first :: rest) (length first) = Ok floats ->
  floors floats = Ok ints ->
  no_binary_search_compute_budget total_budget (first :: rest) = Ok l ->
  forall j, (j < length first)%nat ->
    let c := Z.to_nat (total_budget - sum ints) in
    let n := length first in
    nth j ints 0 + Z.of_nat (Nat.div c n) <= nth j l 0
    <= nth j ints 0 + Z.of_nat (Nat.div c n)
       + (if Nat.eqb (Nat.modulo c n) 0 then 0 else 1).
Proof.
  intros Hfloats Hints H. unfold no_binary_search_compute_budget in H.
  rewrite Hfloats in H. cbn [bind] in H.
  exact (nbs_units_bounds _ _ _ _ _ Hints H).
Qed.

Lemma round_robin_is_even_witness :
  let c := Z.to_nat (100 - sum [0; 0; 0]) in
  let n := length [100; 0; 0] in
  nth 0 [0; 0; 0] 0 + Z.of_nat (Nat.div c n) <= nth 0 [34; 33; 33] 0
  <= nth 0 [0; 0; 0] 0 + Z.of_nat (Nat.div c n)
     + (if Nat.eqb (Nat.modulo c n) 0 then 0 else 1).
Proof.
  apply (round_robin_is_even 100 [100; 0; 0] [[0; 100; 0]; [0; 0; 100]]
           [0; 0; 0]%float [0; 0; 0] [34; 33; 33]).
  - vm_compute. reflexivity.
  - vm_compute. reflexivity.
  - vm_compute. reflexivity.
  - cbn. lia.
Defined.

(** ** The breakpoints *)

Lemma ascending_nodup_strict (l : list Z) :
  StronglySorted Z.le l -> NoDup l -> StronglySorted Z.lt l.
Proof.
  induction 1 as [|a l Hs IH Ha]; intros Hnd; constructor.
  - apply IH. now inversion Hnd.
  - inversion Hnd as [|? ? Hnotin _]; subst.
    rewrite Forall_forall in *. intros b Hb. specialize (Ha b Hb).
    assert (a <> b) by (intros ->; contradiction). lia.
Qed.

(** X8: [sorted_breaks] is strictly ascending and holds 0 and the votes,
    nothing else. *)
Theorem sorted_breaks_strictly_ascending (votes_per_subject : list (list Z)) :
  StronglySorted Z.lt (sorted_breaks_of votes_per_subject)
  /\ forall b, In b (sorted_breaks_of votes_per_subject)
               <-> b = 0 \/ exists votes, In votes votes_per_subject /\ In b votes.
Proof.
  unfold sorted_breaks_of.
  set (l := nodup Z.eq_dec (0 :: concat votes_per_subject)).
  pose proof (sorted_perm Z.ltb l) as Hp.
  split.
  - apply ascending_nodup_strict; [apply sorted_ltb_le|].
    eapply Permutation_NoDup; [symmetry; exact Hp | apply NoDup_nodup].
  - intros b. split.
    + intros Hb. apply (Permutation_in _ Hp) in Hb. apply nodup_In in Hb.
      destruct Hb as [<-|Hb]; [now left | right]. now apply in_concat in Hb.
    + intros Hb. apply (Permutation_in _ (Permutation_sym Hp)). apply nodup_In.
      destruct Hb as [->|Hb]; [now left | right]. now apply in_concat.
Qed.

(** ** Nothing to allocate *)

(** X9: Without citizens both functions return the empty list whatever the
    budget; with citizens who have no subject they return it when the
    budget is not positive. *)
Theorem nothing_to_allocate (total_budget : Z) (rest : list (list Z)) :
  (compute_budget total_budget [] = Ok []
   /\ no_binary_search_compute_budget total_budget [] = Ok [])
  /\ (total_budget <= 0 ->
      compute_budget total_budget ([] :: rest) = Ok []
      /\ no_binary_search_compute_budget total_budget ([] :: rest) = Ok []).
Proof.
  split; [split; reflexivity|]. intros Hb.
  unfold compute_budget, no_binary_search_compute_budget. cbn [length].
  rewrite floats_of_no_subject_cb, floats_of_no_subject_nbs. cbn [bind].
  unfold ComputeBudget.largest_remainder, NoBinarySearch.largest_remainder.
  cbn [floors mapM bind]. change (sum []) with 0.
  destruct (Z.ltb_spec 0 (total_budget - 0)); [lia|]. split; reflexivity.
Qed.

Lemma nothing_to_allocate_witness :
  compute_budget (-5) [[]; []; []] = Ok []
  /\ no_binary_search_compute_budget (-5) [[]; []; []] = Ok [].
Proof.
  apply (nothing_to_allocate (-5) [[]; []]). lia.
Defined.

(** ** Monotonicity in the phantom value *)

(** Two arrays of admissible numbers of which the second dominates the
    first, entry by entry: both allocations return and the second is not
    smaller. *)
Lemma allocation_dominated (votes votes' : list Z) (x x' : num) :
  Forall small votes -> Forall small votes' -> admissible x -> admissible x' ->
  Forall2 Z.le votes votes' -> num_val x <= num_val x' ->
  exists r r',
    get_subject_allocation votes x = Ok r
    /\ get_subject_allocation votes' x' = Ok r'
    /\ fnonneg r /\ fnonneg r'
    /\ SF.lex3 (frank r) (frank r') <> Gt.
Proof.
  intros Hv Hv' Hx Hx' Hdom Hxx.
  pose proof (admissible_array _ x Hv Hx) as Ha.
  pose proof (admissible_array _ x' Hv' Hx') as Ha'.
  assert (Hd : Forall2 Z.le (map num_val (map PInt votes ++ [PInt 0; x]))
                            (map num_val (map PInt votes' ++ [PInt 0; x']))).
  { rewrite !map_app. apply Forall2_app.
    - clear -Hdom. induction Hdom as [|a b l l' Hab _ IH]; cbn [map]; constructor;
        [|exact IH].
      cbn [num_val]. apply Z.mul_le_mono_nonneg_r; [apply Z.pow_nonneg; lia | exact Hab].
    - cbn [map]. repeat constructor; [lia | exact Hxx]. }
  unfold get_subject_allocation.
  set (l := map PInt votes ++ [PInt 0; x]) in *.
  set (l' := map PInt votes' ++ [PInt 0; x']) in *.
  assert (Hn : length (sorted Py.lt l') = length (sorted Py.lt l)).
  { rewrite !sorted_length. unfold l, l'.
    rewrite !length_app, !length_map. now rewrite (Forall2_length Hdom). }
  assert (Hn2 : (2 <= length (sorted Py.lt l))%nat).
  { rewrite sorted_length. unfold l. rewrite length_app. cbn. lia. }
  rewrite Hn. set (n := length (sorted Py.lt l)) in *.
  assert (Hhalf : (Nat.div n 2 < n)%nat) by (apply Nat.div_lt; lia).
  assert (Hmono : forall k a b,
             nth_error (sorted Py.lt l) k = Some a ->
             nth_error (sorted Py.lt l') k = Some b ->
             admissible a /\ admissible b /\ num_val a <= num_val b).
  { intros k a b Ea Eb. split; [|split].
    - rewrite Forall_forall in Ha. apply Ha.
      eapply Permutation_in; [apply sorted_perm | eapply nth_error_In, Ea].
    - rewrite Forall_forall in Ha'. apply Ha'.
      eapply Permutation_in; [apply sorted_perm | eapply nth_error_In, Eb].
    - exact (order_statistic_mono l l' k a b Ha Ha' Hd Ea Eb). }
  destruct (Nat.eqb (Nat.modulo n 2) 1).
  - destruct (index_defined (sorted Py.lt l) (Nat.div n 2)) as (a & Ia & Ea); [exact Hhalf|].
    destruct (index_defined (sorted Py.lt l') (Nat.div n 2)) as (b & Ib & Eb); [lia|].
    destruct (Hmono _ _ _ Ea Eb) as (Da & Db & Hab).
    destruct (to_float_admissible a Da) as (f & Ef & Hf & Vf).
    destruct (to_float_admissible b Db) as (g & Eg & Hg & Vg).
    exists f, g. rewrite Ia, Ib. cbn [bind]. split; [exact Ef|]. split; [exact Eg|].
    split; [now apply nn_finite_nonneg|]. split; [now apply nn_finite_nonneg|].
    rewrite frank_compare by assumption. rewrite Vf, Vg.
    now apply Z.compare_le_iff.
  - destruct (index_defined (sorted Py.lt l) (Nat.div n 2 - 1)) as (a & Ia & Ea); [lia|].
    destruct (index_defined (sorted Py.lt l') (Nat.div n 2 - 1)) as (a' & Ia' & Ea'); [lia|].
    destruct (index_defined (sorted Py.lt l) (Nat.div n 2)) as (b & Ib & Eb); [exact Hhalf|].
    destruct (index_defined (sorted Py.lt l') (Nat.div n 2)) as (b' & Ib' & Eb'); [lia|].
    destruct (Hmono _ _ _ Ea Ea') as (Da & Da' & Haa).
    destruct (Hmono _ _ _ Eb Eb') as (Db & Db' & Hbb).
    destruct (mean_admissible a b Da Db) as (S & ES & HS & RS).
    destruct (mean_admissible a' b' Da' Db') as (S' & ES' & HS' & RS').
    exists (S / 2)%float, (S' / 2)%float. rewrite Ia, Ib, Ia', Ib'. cbn [bind].
    split; [exact ES|]. split; [exact ES'|].
    split; [now apply half_nonneg|]. split; [now apply half_nonneg|].
    apply half_mono; try assumption. rewrite RS, RS'.
    apply Exact.Rnd_mono0; [|lia].
    pose proof (num_val_nonneg a Da). pose proof (num_val_nonneg b Db). lia.
Qed.

Lemma Forall2_le_refl (l : list Z) : Forall2 Z.le l l.
Proof. induction l; constructor; [lia | assumption]. Qed.

(** X10: The allocation is monotone in the phantom value, and in all the votes
    at once: with every vote and the phantom value raised or kept (amounts
    in [0, 2^52), phantom values such ints or finite non-negative floats),
    the allocation returns and is not lowered. *)
Theorem allocation_monotone_in_phantom
        (votes votes' : list Z) (x x' : num) :
  Forall small votes -> Forall small votes' -> admissible x -> admissible x' ->
  Forall2 Z.le votes votes' -> Py.le x x' = true ->
  exists r r',
    get_subject_allocation votes x = Ok r
    /\ get_subject_allocation votes' x' = Ok r'
    /\ (r <=? r')%float = true.
Proof.
  intros Hv Hv' Hx Hx' Hdom Hle.
  assert (Hxx : num_val x <= num_val x').
  { unfold Py.le in Hle. rewrite compare_val in Hle by assumption.
    destruct (Z.compare_spec (num_val x) (num_val x')); try lia; discriminate. }
  destruct (allocation_dominated votes votes' x x' Hv Hv' Hx Hx' Hdom Hxx)
    as (r & r' & Er & Er' & Hr & Hr' & Hrank).
  exists r, r'. split; [exact Er|]. split; [exact Er'|].
  now apply rank_le_leb.
Qed.

Lemma allocation_monotone_in_phantom_witness :
  exists r r',
    get_subject_allocation [10; 20; 50] (PInt 20) = Ok r
    /\ get_subject_allocation [10; 20; 50] (PFloat 37.5) = Ok r'
    /\ (r <=? r')%float = true.
Proof.
  apply (allocation_monotone_in_phantom [10; 20; 50] [10; 20; 50]
           (PInt 20) (PFloat 37.5)).
  - repeat constructor; vm_compute; congruence.
  - repeat constructor; vm_compute; congruence.
  - split; vm_compute; congruence.
  - exact I.
  - repeat constructor; lia.
  - vm_compute. reflexivity.
Defined.

(** ** The total of the allocations *)

(** Float addition is monotone on non-negative floats, infinite ones
    included. *)
Lemma finite_below (f g : float) :
  fnonneg f -> nn_finite g -> SF.lex3 (frank f) (frank g) <> Gt -> nn_finite f.
Proof.
  intros Hf Hg Hle. destruct (fnonneg_cases f Hf) as [H|Hinf]; [exact H|].
  exfalso. apply Hle. unfold frank. rewrite Hinf. unfold nn_finite in Hg.
  destruct (Prim2SF g) as [s|s| |[|] m e]; try contradiction; reflexivity.
Qed.

Lemma add_infinite_r (f g : float) :
  fnonneg f -> Prim2SF g = S754_infinity false ->
  Prim2SF (f + g)%float = S754_infinity false
  /\ Prim2SF (g + f)%float = S754_infinity false.
Proof.
  intros Hf Hg. rewrite !add_spec, Hg. unfold fnonneg in Hf.
  destruct (Prim2SF f) as [s|s| |s m e]; cbn in Hf |- *; try contradiction;
    subst; split; reflexivity.
Qed.

Lemma add_mono (f g f' g' : float) :
  fnonneg f -> fnonneg g -> fnonneg f' -> fnonneg g' ->
  SF.lex3 (frank f) (frank f') <> Gt -> SF.lex3 (frank g) (frank g') <> Gt ->
  SF.lex3 (frank (f + g)%float) (frank (f' + g')%float) <> Gt.
Proof.
  intros Hf Hg Hf' Hg' Hff Hgg.
  destruct (fnonneg_cases f' Hf') as [Ff'|If'].
  - destruct (fnonneg_cases g' Hg') as [Fg'|Ig'].
    + pose proof (finite_below f f' Hf Ff' Hff) as Ff.
      pose proof (finite_below g g' Hg Fg' Hgg) as Fg.
      rewrite !add_Rnd by assumption.
      rewrite frank_compare in Hff, Hgg by assumption.
      apply Exact.Rnd_mono0.
      * pose proof (fval_nonneg f Ff). pose proof (fval_nonneg g Fg). lia.
      * destruct (Z.compare_spec (fval f) (fval f')); try congruence;
          destruct (Z.compare_spec (fval g) (fval g')); try congruence; lia.
    + unfold frank at 2. rewrite (proj1 (add_infinite_r f' g' Hf' Ig')).
      apply rank_nonneg_le_inf. now apply add_nonneg.
  - unfold frank at 2. rewrite (proj2 (add_infinite_r g' f' Hg' If')).
    apply rank_nonneg_le_inf. now apply add_nonneg.
Qed.

(** The total that [get_total_and_slope] returns is the float sum, from
    left to right, of the allocations. *)
Definition float_sum (vs : list float) (total : float) : float :=
  fold_left (fun a v => (a + v)%float) vs total.

Lemma cb_loop_total (x : num) (vps : list (list Z)) :
  forall total slope t s,
    ComputeBudget.total_and_slope_loop x vps total slope = Ok (t, s) ->
    exists vs, mapM (fun votes => get_subject_allocation votes x) vps = Ok vs
               /\ t = float_sum vs total.
Proof.
  induction vps as [|votes vps IH]; intros total slope t s H.
  - cbn in H. inversion H; subst. exists []. split; reflexivity.
  - cbn [ComputeBudget.total_and_slope_loop] in H.
    bind_inv H. bind_inv H. bind_inv H. bind_inv H.
    destruct (IH _ _ _ _ H) as (vs & Evs & Et).
    exists (a :: vs). cbn [mapM]. rewrite Ha, Evs. split; [reflexivity | exact Et].
Qed.

Lemma nbs_loop_total (x : num) (vps : list (list Z)) :
  forall total slope t s,
    NoBinarySearch.total_and_slope_loop x vps total slope = Ok (t, s) ->
    exists vs, mapM (fun votes => get_subject_allocation votes x) vps = Ok vs
               /\ t = float_sum vs total.
Proof.
  induction vps as [|votes vps IH]; intros total slope t s H.
  - cbn in H. inversion H; subst. exists []. split; reflexivity.
  - cbn [NoBinarySearch.total_and_slope_loop] in H.
    bind_inv H. bind_inv H. bind_inv H. bind_inv H.
    destruct (IH _ _ _ _ H) as (vs & Evs & Et).
    exists (a :: vs). cbn [mapM]. rewrite Ha, Evs. split; [reflexivity | exact Et].
Qed.

Definition not_above (v v' : float) : Prop :=
  fnonneg v /\ fnonneg v' /\ SF.lex3 (frank v) (frank v') <> Gt.

Lemma float_sum_mono (vs vs' : list float) :
  Forall2 not_above vs vs' ->
  forall total total', not_above total total' ->
                       not_above (float_sum vs total) (float_sum vs' total').
Proof.
  induction 1 as [|v v' vs vs' (Hv & Hv' & Hvv) _ IH];
    intros total total' (Ht & Ht' & Htt); cbn [float_sum fold_left].
  - now split; [|split].
  - apply IH. split; [now apply add_nonneg|]. split; [now apply add_nonneg|].
    now apply add_mono.
Qed.

Lemma allocations_dominated (vps : list (list Z)) (x x' : num) :
  Forall (Forall small) vps -> admissible x -> admissible x' ->
  num_val x <= num_val x' ->
  exists vs vs',
    mapM (fun votes => get_subject_allocation votes x) vps = Ok vs
    /\ mapM (fun votes => get_subject_allocation votes x') vps = Ok vs'
    /\ Forall2 not_above vs vs'.
Proof.
  intros Hv Hx Hx' Hxx. induction Hv as [|votes vps Hvotes _ (vs & vs' & E & E' & IH)].
  - exists [], []. repeat split; constructor.
  - destruct (allocation_dominated votes votes x x' Hvotes Hvotes Hx Hx'
                                   (Forall2_le_refl votes) Hxx)
      as (r & r' & Er & Er' & Hr & Hr' & Hrank).
    exists (r :: vs), (r' :: vs'). cbn [mapM]. rewrite Er, Er', E, E'.
    split; [reflexivity|]. split; [reflexivity|]. constructor; [|exact IH].
    now split; [|split].
Qed.

(** X11: The total of the allocations is monotone along the breakpoints: this
    is what the scan for the bracketing segment relies on.  For votes and
    breakpoints in [0, 2^52), in both functions. *)
Theorem total_monotone_over_breakpoints
        (votes_per_subject : list (list Z)) (b b' : Z) :
  Forall (Forall small) votes_per_subject -> small b -> small b' -> b <= b' ->
  (exists t s t' s',
      ComputeBudget.get_total_and_slope votes_per_subject (PInt b) = Ok (t, s)
      /\ ComputeBudget.get_total_and_slope votes_per_subject (PInt b') = Ok (t', s')
      /\ (t <=? t')%float = true)
  /\ (exists t s t' s',
      NoBinarySearch.get_total_and_slope votes_per_subject (PInt b) = Ok (t, s)
      /\ NoBinarySearch.get_total_and_slope votes_per_subject (PInt b') = Ok (t', s')
      /\ (t <=? t')%float = true).
Proof.
  intros Hv Hb Hb' Hle.
  destruct (allocations_dominated votes_per_subject (PInt b) (PInt b') Hv Hb Hb')
    as (vs & vs' & E & E' & Hdom).
  { cbn [num_val]. apply Z.mul_le_mono_nonneg_r; [apply Z.pow_nonneg; lia | exact Hle]. }
  assert (H0 : not_above 0 0) by (repeat split; vm_compute; congruence).
  destruct (float_sum_mono vs vs' Hdom 0%float 0%float H0) as (Hs & Hs' & Hrank).
  pose proof (rank_le_leb _ _ Hs Hs' Hrank) as Hleb.
  unfold ComputeBudget.get_total_and_slope, NoBinarySearch.get_total_and_slope.
  split.
  - destruct (cb_loop_returns b votes_per_subject Hv Hb 0%float (PInt 0))
      as (t & s & Et & _); [now left|].
    destruct (cb_loop_returns b' votes_per_subject Hv Hb' 0%float (PInt 0))
      as (t' & s' & Et' & _); [now left|].
    exists t, s, t', s'. split; [exact Et|]. split; [exact Et'|].
    destruct (cb_loop_total _ _ _ _ _ _ Et) as (ws & Ews & ->).
    destruct (cb_loop_total _ _ _ _ _ _ Et') as (ws' & Ews' & ->).
    rewrite E in Ews. rewrite E' in Ews'. inversion Ews; inversion Ews'; subst.
    exact Hleb.
  - destruct (nbs_loop_returns b votes_per_subject Hv Hb 0%float 0%float)
      as (t & s & Et).
    destruct (nbs_loop_returns b' votes_per_subject Hv Hb' 0%float 0%float)
      as (t' & s' & Et').
    exists t, s, t', s'. split; [exact Et|]. split; [exact Et'|].
    destruct (nbs_loop_total _ _ _ _ _ _ Et) as (ws & Ews & ->).
    destruct (nbs_loop_total _ _ _ _ _ _ Et') as (ws' & Ews' & ->).
    rewrite E in Ews. rewrite E' in Ews'. inversion Ews; inversion Ews'; subst.
    exact Hleb.
Qed.

Lemma total_monotone_over_breakpoints_witness :
  (exists t s t' s',
      ComputeBudget.get_total_and_slope [[20; 80]; [20; 80]] (PInt 20) = Ok (t, s)
      /\ ComputeBudget.get_total_and_slope [[20; 80]; [20; 80]] (PInt 80) = Ok (t', s')
      /\ (t <=? t')%float = true)
  /\ (exists t s t' s',
      NoBinarySearch.get_total_and_slope [[20; 80]; [20; 80]] (PInt 20) = Ok (t, s)
      /\ NoBinarySearch.get_total_and_slope [[20; 80]; [20; 80]] (PInt 80) = Ok (t', s')
      /\ (t <=? t')%float = true).
Proof.
  apply (total_monotone_over_breakpoints [[20; 80]; [20; 80]] 20 80).
  - repeat constructor; vm_compute; congruence.
  - split; vm_compute; congruence.
  - split; vm_compute; congruence.
  - lia.
Defined.

(** ** The two functions side by side: the phantom value *)

(** A float whose rank is that of a rounded value bounded by a power of
    two is finite and bounded by it. *)
Definition pow2_float (k : Z) : spec_float :=
  S754_finite false (2 ^ 52)%positive (k - 52).

Lemma pow2_float_spec (k : Z) :
  -1022 <= k <= 1023 ->
  Exact.fin_nonneg (pow2_float k)
  /\ Exact.Rnd (2 ^ (k + 1075)) = pow2_float k
  /\ Exact.sf_val (pow2_float k) = 2 ^ (k + 1075).
Proof.
  intros Hk.
  assert (Hd : Exact.digits (Zpos (2 ^ 52)%positive) = 53) by reflexivity.
  assert (Hv : Zpos (2 ^ 52)%positive * 2 ^ (k - 52 + 1075) = 2 ^ (k + 1075)).
  { change (Zpos (2 ^ 52)%positive) with (2 ^ 52).
    rewrite <- Z.pow_add_r by lia. f_equal. lia. }
  split; [|split].
  - split; [|exact I]. apply Exact.canonical_valid; [rewrite Hd|]; lia.
  - rewrite <- Hv. apply Exact.Rnd_exact; [rewrite Hd|]; lia.
  - exact Hv.
Qed.

Lemma rank_bounded (h : float) (X k : Z) :
  fnonneg h -> frank h = SF.rank (Exact.Rnd X) ->
  0 <= X <= 2 ^ (k + 1075) -> -1022 <= k <= 1023 ->
  nn_finite h /\ fval h <= 2 ^ (k + 1075).
Proof.
  intros Hh Hr HX Hk.
  destruct (pow2_float_spec k Hk) as (HP & HR & HV).
  pose proof (Exact.Rnd_mono0 X _ (proj1 HX) (proj2 HX)) as Hm.
  rewrite HR, <- Hr in Hm.
  assert (Hfin : nn_finite h).
  { destruct (fnonneg_cases h Hh) as [H|Hinf]; [exact H|].
    exfalso. apply Hm. unfold frank. rewrite Hinf. reflexivity. }
  split; [exact Hfin|].
  unfold frank in Hm.
  rewrite (Exact.rank_compare_val _ _ (nn_finite_fin h Hfin) HP), HV in Hm.
  now apply Z.compare_le_iff.
Qed.

Lemma eps_value : nn_finite eps /\ 0 <= fval eps <= 2 ^ 1075.
Proof.
  split; [exact I|]. split; vm_compute; discriminate.
Qed.

(** [x + eps] at a breakpoint: a finite float, not below the breakpoint. *)
Definition moderate (a : num) : Prop :=
  admissible a /\ num_val a <= 2 ^ (53 + 1075).

Lemma small_moderate (z : Z) : small z -> moderate (PInt z).
Proof.
  intros Hz. split; [exact Hz|]. cbn [num_val]. unfold small in Hz.
  replace (2 ^ (53 + 1075)) with (2 ^ 53 * 2 ^ 1075) by (rewrite <- Z.pow_add_r; lia).
  apply Z.mul_le_mono_nonneg_r; [apply Z.pow_nonneg; lia|].
  assert (2 ^ 52 < 2 ^ 53) by reflexivity. lia.
Qed.

Lemma phantom_next (b : Z) :
  small b ->
  exists xe, Py.add (PInt b) (PFloat eps) = Ok (PFloat xe)
             /\ moderate (PFloat xe) /\ b * 2 ^ 1075 <= fval xe.
Proof.
  intros Hb.
  destruct (float_of_int_small b (small_lt_2_53 b Hb)) as (fb & Eb & Fb & Vb).
  exists (fb + eps)%float. cbn [Py.add to_float]. rewrite Eb. cbn [bind].
  split; [reflexivity|].
  destruct eps_value as [Fe [He0 He1]].
  pose proof (add_Rnd fb eps Fb Fe) as Hr.
  assert (Hn : fnonneg (fb + eps)) by (apply add_nonneg; now apply nn_finite_nonneg).
  assert (Hsum : 0 <= fval fb + fval eps <= 2 ^ (53 + 1075)).
  { rewrite Vb. unfold small in Hb.
    replace (2 ^ (53 + 1075)) with (2 ^ 53 * 2 ^ 1075) by (rewrite <- Z.pow_add_r; lia).
    assert (H52 : 2 ^ 53 = 2 ^ 52 + 2 ^ 52) by reflexivity. rewrite H52.
    assert (0 < 2 ^ 1075) by (apply Z.pow_pos_nonneg; lia).
    set (P := 2 ^ 1075) in *. nia. }
  destruct (rank_bounded _ _ 53 Hn Hr Hsum) as [Hfin Hub]; [lia|].
  split; [split; [exact Hfin | exact Hub]|].
  rewrite <- Vb.
  pose proof (Exact.Rnd_mono0 (fval fb) (fval fb + fval eps)) as Hm.
  rewrite <- Hr, <- (frank_Rnd fb Fb) in Hm.
  rewrite frank_compare in Hm by assumption.
  apply Z.compare_le_iff, Hm; [now apply fval_nonneg | lia].
Qed.

(** For moderate phantom values the allocation is a finite float. *)
Lemma allocation_finite (votes : list Z) (x : num) :
  Forall small votes -> moderate x ->
  exists r, get_subject_allocation votes x = Ok r /\ nn_finite r.
Proof.
  intros Hv Hx. unfold get_subject_allocation.
  set (l := map PInt votes ++ [PInt 0; x]).
  assert (Hl : forall k a, nth_error (sorted Py.lt l) k = Some a -> moderate a).
  { intros k a Ha. apply nth_error_In in Ha.
    apply (Permutation_in _ (sorted_perm Py.lt l)) in Ha.
    unfold l in Ha. apply in_app_or in Ha. destruct Ha as [Ha|[<-|[<-|[]]]].
    - apply in_map_iff in Ha. destruct Ha as (v & <- & Hin).
      rewrite Forall_forall in Hv. now apply small_moderate, Hv.
    - apply small_moderate. split; [lia | reflexivity].
    - exact Hx. }
  assert (Hn : (2 <= length (sorted Py.lt l))%nat).
  { rewrite sorted_length. unfold l. rewrite length_app. cbn. lia. }
  set (n := length (sorted Py.lt l)) in *.
  assert (Hhalf : (Nat.div n 2 < n)%nat) by (apply Nat.div_lt; lia).
  destruct (Nat.eqb (Nat.modulo n 2) 1).
  - destruct (index_defined (sorted Py.lt l) (Nat.div n 2) Hhalf) as (a & Ia & Ea).
    rewrite Ia. cbn [bind].
    destruct (to_float_admissible a (proj1 (Hl _ _ Ea))) as (f & Ef & Hf & _).
    eauto.
  - destruct (index_defined (sorted Py.lt l) (Nat.div n 2 - 1)) as (a & Ia & Ea); [lia|].
    destruct (index_defined (sorted Py.lt l) (Nat.div n 2) Hhalf) as (b & Ib & Eb).
    rewrite Ia, Ib. cbn [bind].
    destruct (Hl _ _ Ea) as [Da Ma]. destruct (Hl _ _ Eb) as [Db Mb].
    destruct (mean_admissible a b Da Db) as (S & ES & HS & RS).
    exists (S / 2)%float. split; [exact ES|].
    pose proof (num_val_nonneg a Da). pose proof (num_val_nonneg b Db).
    destruct (rank_bounded S _ 54 HS RS) as [FS BS]; [|lia|].
    { replace (2 ^ (54 + 1075)) with (2 * 2 ^ (53 + 1075)); [lia|].
      rewrite <- Z.pow_succ_r by lia. f_equal. }
    pose proof (fval_nonneg S FS).
    destruct (rank_bounded (S / 2)%float (fval S / 2) 54) as [FH _]; try lia.
    + now apply half_nonneg.
    + now apply half_Rnd.
    + split; [apply Z.div_pos; lia|].
      apply Z.le_trans with (fval S); [|exact BS].
      apply Z.div_le_upper_bound; lia.
    + exact FH.
Qed.

(** Two finite floats of the same rank have a difference of zero. *)
Definition is_zero (f : float) : Prop := exists s, Prim2SF f = S754_zero s.

Lemma sub_same_rank (f g : float) :
  nn_finite f -> nn_finite g -> frank f = frank g -> is_zero (g - f)%float.
Proof.
  unfold nn_finite, frank, is_zero. rewrite sub_spec.
  destruct (Prim2SF f) as [s|s| |[|] m e], (Prim2SF g) as [s'|s'| |[|] m' e'];
    try contradiction; cbn [SF.rank]; intros _ _ H; try discriminate.
  - destruct s, s'; cbn; eauto.
  - inversion H; subst. cbn -[binary_normalize shl_align].
    set (p := fst (shl_align m' e' _)).
    replace (IntDef.Z.pos_sub p p) with 0 by (symmetry; apply Z.pos_sub_diag).
    cbn. eauto.
Qed.

Lemma zero_over_eps (d : float) : is_zero d -> is_zero (d / eps)%float.
Proof.
  intros (s & Hs). unfold is_zero. rewrite div_spec, Hs.
  assert (E : exists m e, Prim2SF eps = S754_finite false m e)
    by (vm_compute; eauto).
  destruct E as (m & e & ->). cbn. eauto.
Qed.

(** Slopes that are the same float, or both a zero. *)
Definition same (f g : float) : Prop := f = g \/ (is_zero f /\ is_zero g).

Lemma same_sym (f g : float) : same f g -> same g f.
Proof. intros [->|[Hf Hg]]; [now left | now right]. Qed.

Lemma same_is_zero (f g : float) : same f g -> is_zero g -> is_zero f.
Proof. intros [->|[Hf _]] Hg; assumption. Qed.

Lemma same_trans (f g h : float) : same f g -> same g h -> same f h.
Proof.
  intros [->|[Hf Hg]] Hgh; [exact Hgh|].
  destruct Hgh as [<-|[_ Hh]]; right; now split.
Qed.

Lemma add_zero_r (s d : float) : is_zero d -> same (s + d)%float s.
Proof.
  intros (sd & Ed). destruct (Prim2SF s) as [sx|sx| |sx m e] eqn:Es.
  - right. split; [|now exists sx]. unfold is_zero. rewrite add_spec, Es, Ed.
    destruct sx, sd; cbn; eauto.
  - left. apply Prim2SF_inj. now rewrite add_spec, Es, Ed.
  - left. apply Prim2SF_inj. now rewrite add_spec, Es, Ed.
  - left. apply Prim2SF_inj. now rewrite add_spec, Es, Ed.
Qed.

Lemma add_same (s s' d : float) : same s s' -> same (s + d)%float (s' + d)%float.
Proof.
  intros [->|[(sx & Es) (sy & Es')]]; [now left|].
  destruct (Prim2SF d) as [sd|sd| |sd m e] eqn:Ed.
  - right. unfold is_zero. rewrite !add_spec, Es, Es', Ed.
    split; [destruct sx, sd | destruct sy, sd]; cbn; eauto.
  - left. apply Prim2SF_inj. now rewrite !add_spec, Es, Es', Ed.
  - left. apply Prim2SF_inj. now rewrite !add_spec, Es, Es', Ed.
  - left. apply Prim2SF_inj. now rewrite !add_spec, Es, Es', Ed.
Qed.

(** The slope of [compute_budget] (an int 0 or a float) and the slope of
    [no_binary_search_compute_budget] (a float). *)
Definition slope_rel (sc : num) (sn : float) : Prop :=
  match sc with
  | PInt z => z = 0 /\ is_zero sn
  | PFloat s => same s sn
  end.

Lemma zero_is_zero : is_zero 0%float.
Proof. now exists false. Qed.

Lemma loops_agree (b : Z) (vps : list (list Z)) :
  Forall (Forall small) vps -> small b ->
  forall total sc sn,
    slope_rel sc sn ->
    exists t sc' sn',
      ComputeBudget.total_and_slope_loop (PInt b) vps total sc = Ok (t, sc')
      /\ NoBinarySearch.total_and_slope_loop (PInt b) vps total sn = Ok (t, sn')
      /\ slope_rel sc' sn'.
Proof.
  intros Hv Hb. induction Hv as [|votes vps Hvotes _ IH]; intros total sc sn Hs.
  - exists total, sc, sn. repeat split; assumption.
  - cbn [ComputeBudget.total_and_slope_loop NoBinarySearch.total_and_slope_loop].
    destruct (phantom_next b Hb) as (xe & Exe & Mxe & Hbx).
    destruct (allocation_dominated votes votes (PInt b) (PFloat xe) Hvotes Hvotes
                Hb (proj1 Mxe) (Forall2_le_refl votes) Hbx)
      as (r & r' & Er & Er' & Hr & Hr' & Hrank).
    destruct (allocation_finite votes (PInt b) Hvotes (small_moderate b Hb))
      as (r0 & Er0 & Fr).
    destruct (allocation_finite votes (PFloat xe) Hvotes Mxe) as (r1 & Er1 & Fr').
    assert (r0 = r) by congruence. assert (r1 = r') by congruence. subst r0 r1.
    rewrite Er, Exe. cbn [bind]. rewrite Er'. cbn [bind].
    change (truediv (PFloat (r' - r)) (PFloat eps)) with (Ok ((r' - r) / eps)%float).
    cbn [bind]. set (d := ((r' - r) / eps)%float).
    destruct (r <? r')%float eqn:Hlt.
    + destruct sc as [z|s]; cbn [slope_rel] in Hs.
      * destruct Hs as [-> Hz].
        change (Py.add (PInt 0) (PFloat d)) with (Ok (PFloat (0 + d))).
        cbn [bind]. apply IH. cbn [slope_rel]. apply add_same.
        right. split; [exact zero_is_zero | exact Hz].
      * cbn [Py.add to_float bind]. apply IH. cbn [slope_rel]. now apply add_same.
    + cbn [bind]. apply IH.
      assert (Hd : is_zero d).
      { apply zero_over_eps, sub_same_rank; try assumption.
        rewrite ltb_rank in Hlt by now apply fnonneg_not_nan.
        apply Exact.lex3_eq_inv.
        destruct (SF.lex3 (frank r) (frank r')); congruence. }
      destruct sc as [z|s]; cbn [slope_rel] in Hs |- *.
      * destruct Hs as [-> Hz]. split; [reflexivity|].
        exact (same_is_zero _ _ (add_zero_r sn d Hd) Hz).
      * exact (same_trans _ _ _ Hs (same_sym _ _ (add_zero_r sn d Hd))).
Qed.

Lemma gt_zero_false (s : float) :
  is_zero s -> Py.gt (PFloat s) (PFloat 1e-9) = false.
Proof.
  intros (sx & Es). unfold Py.gt, Py.lt, Py.compare, compare_float.
  rewrite compare_spec, Es. destruct sx; vm_compute; reflexivity.
Qed.

Lemma interpolate_agree (total_budget x_low : Z) (sum_low : float)
      (sc : num) (sn : float) :
  slope_rel sc sn ->
  ComputeBudget.interpolate total_budget x_low sum_low sc
  = NoBinarySearch.interpolate total_budget x_low sum_low sn.
Proof.
  unfold ComputeBudget.interpolate, NoBinarySearch.interpolate.
  destruct sc as [z|s]; cbn [slope_rel].
  - intros [-> Hz]. rewrite (gt_zero_false sn Hz). reflexivity.
  - intros [->|[Hs Hn]]; [reflexivity|].
    now rewrite (gt_zero_false s Hs), (gt_zero_false sn Hn).
Qed.

Lemma totals_agree (vps : list (list Z)) (b : Z) :
  Forall (Forall small) vps -> small b ->
  exists t sc sn,
    ComputeBudget.get_total_and_slope vps (PInt b) = Ok (t, sc)
    /\ NoBinarySearch.get_total_and_slope vps (PInt b) = Ok (t, sn)
    /\ slope_rel sc sn.
Proof.
  intros Hv Hb. apply loops_agree; try assumption.
  cbn [slope_rel]. split; [reflexivity | exact zero_is_zero].
Qed.

Lemma scan_agree (total_budget : Z) (vps : list (list Z)) (breaks : list Z) :
  Forall (Forall small) vps -> Forall small breaks ->
  ComputeBudget.scan total_budget vps breaks
  = NoBinarySearch.scan total_budget vps breaks.
Proof.
  intros Hv Hb. induction Hb as [|x_low rest Hlow Hrest IH]; [reflexivity|].
  destruct (totals_agree vps x_low Hv Hlow) as (t & sc & sn & Ec & En & Hs).
  destruct rest as [|x_high rest].
  - cbn [ComputeBudget.scan NoBinarySearch.scan]. rewrite Ec, En. cbn [bind].
    now apply interpolate_agree.
  - rewrite ScanCB.scan_step_cb, ScanNBS.scan_step_nbs.
    inversion Hrest as [|? ? Hhigh _]; subst.
    destruct (totals_agree vps x_high Hv Hhigh) as (t' & sc' & sn' & Ec' & En' & _).
    rewrite Ec, En. cbn [bind]. rewrite Ec', En'. cbn [bind].
    change (ScanNBS.within total_budget t t') with (ScanCB.within total_budget t t').
    destruct (ScanCB.within total_budget t t'); [now apply interpolate_agree | exact IH].
Qed.

Lemma votes_per_subject_small (citizen_votes : list (list Z)) (n : nat)
      (vps : list (list Z)) :
  Forall (Forall small) citizen_votes ->
  votes_per_subject_of citizen_votes n = Ok vps -> Forall (Forall small) vps.
Proof.
  intros Hv E. rewrite Forall_forall. intros votes Hin.
  destruct (mapM_in _ _ _ _ E Hin) as (i & _ & Hi).
  bind_inv Hi. inversion Hi; subst.
  pose proof (column_small _ _ _ Hv Ha) as Hc.
  rewrite Forall_forall in *. intros v Hvin. apply Hc.
  eapply Permutation_in; [apply sorted_perm | exact Hvin].
Qed.

Lemma target_x_agree (total_budget : Z) (vps : list (list Z)) :
  Forall (Forall small) vps ->
  ComputeBudget.target_x total_budget vps = NoBinarySearch.target_x total_budget vps.
Proof.
  intros Hv. unfold ComputeBudget.target_x, NoBinarySearch.target_x.
  apply scan_agree; [exact Hv|]. now apply sorted_breaks_small.
Qed.

Lemma floats_agree (total_budget : Z) (citizen_votes : list (list Z)) (n : nat) :
  Forall (Forall small) citizen_votes ->
  ComputeBudget.floats_of total_budget citizen_votes n
  = NoBinarySearch.floats_of total_budget citizen_votes n.
Proof.
  intros Hv. unfold ComputeBudget.floats_of, NoBinarySearch.floats_of.
  destruct (votes_per_subject_of citizen_votes n) as [vps|e] eqn:E; [|reflexivity].
  cbn [bind]. now rewrite (target_x_agree _ vps (votes_per_subject_small _ _ _ Hv E)).
Qed.

(** X12: For votes in [0, 2^52) the two functions find the same phantom value,
    whatever the budget, and so the same continuous allocations: where
    [compute_budget] skips a subject whose median does not move,
    [no_binary_search_compute_budget] adds a zero to the slope. *)
Theorem same_phantom_value
        (total_budget : Z) (citizen_votes : list (list Z)) (n : nat) :
  Forall (Forall small) citizen_votes ->
  (forall vps,
      votes_per_subject_of citizen_votes n = Ok vps ->
      ComputeBudget.target_x total_budget vps
      = NoBinarySearch.target_x total_budget vps)
  /\ ComputeBudget.floats_of total_budget citizen_votes n
     = NoBinarySearch.floats_of total_budget citizen_votes n.
Proof.
  intros Hv. split.
  - intros vps E. apply target_x_agree. eapply votes_per_subject_small; eauto.
  - now apply floats_agree.
Qed.

Lemma same_phantom_value_witness :
  ComputeBudget.floats_of 28 two_citizens_four_subjects 4
  = NoBinarySearch.floats_of 28 two_citizens_four_subjects 4.
Proof.
  apply (same_phantom_value 28 two_citizens_four_subjects 4).
  repeat constructor; vm_compute; congruence.
Defined.

(** X13: For votes in [0, 2^52), when both functions return, their lists differ
    by at most one unit in every entry: the floors are the same and each
    function adds at most one unit to a subject. *)
Theorem outputs_within_one_unit
        (total_budget : Z) (first : list Z) (rest : list (list Z)) (l l' : list Z) :
  Forall (Forall small) (first :: rest) ->
  compute_budget total_budget (first :: rest) = Ok l ->
  no_binary_search_compute_budget total_budget (first :: rest) = Ok l' ->
  forall j, -1 <= nth j l 0 - nth j l' 0 <= 1.
Proof.
  intros Hv H H' j.
  unfold compute_budget in H. unfold no_binary_search_compute_budget in H'.
  cbn zeta in H, H'. rewrite <- (floats_agree _ _ _ Hv) in H'.
  bind_inv H. rename a into floats. rewrite Ha in H'. cbn [bind] in H'.
  assert (Hn : length floats = length first).
  { unfold ComputeBudget.floats_of in Ha. bind_inv Ha. bind_inv Ha.
    rewrite (mapM_length _ _ _ Ha). eapply votes_per_subject_length, Ha0. }
  pose proof (proj1 (largest_remainder_length _ _ _ _) H) as Hl.
  pose proof (proj2 (largest_remainder_length _ _ _ _) H') as Hl'.
  destruct (Nat.lt_ge_cases j (length first)) as [Hj|Hj].
  - assert (Hints : exists ints, floors floats = Ok ints).
    { pose proof H as H0. unfold ComputeBudget.largest_remainder in H0.
      bind_inv H0. eauto. }
    destruct Hints as (ints & Hints).
    pose proof (cb_units_bounds _ _ _ _ _ Hints H j) as Hcb.
    pose proof (nbs_units_bounds _ _ _ _ _ Hints H' j Hj) as Hnbs.
    cbv zeta in Hnbs.
    assert (Hc : (Z.to_nat (total_budget - sum ints) <= length first)%nat).
    { destruct (Z_le_gt_dec (total_budget - sum ints) (Z.of_nat (length first)));
        [lia|].
      exfalso. apply (largest_remainder_overdraw total_budget (length first)
                        floats ints Hints ltac:(lia) l H). }
    set (c := Z.to_nat (total_budget - sum ints)) in *.
    set (n := length first) in *.
    assert (Hshare : (Z.of_nat (Nat.div c n)
                      + (if Nat.eqb (Nat.modulo c n) 0 then 0 else 1) <= 1)).
    { destruct (Nat.eq_dec c n) as [->|Hne].
      - rewrite Nat.div_same, Nat.Div0.mod_same by lia. cbn. lia.
      - rewrite Nat.div_small by lia. destruct (Nat.eqb _ _); lia. }
    lia.
  - rewrite !nth_overflow by lia. lia.
Qed.

Lemma outputs_within_one_unit_witness :
  -1 <= nth 2 [4; 5; 7; 12] 0 - nth 2 [4; 5; 8; 11] 0 <= 1.
Proof.
  apply (outputs_within_one_unit 28 [1; 3; 9; 17] [[40; 40; 40; 40]]).
  - repeat constructor; vm_compute; congruence.
  - vm_compute. reflexivity.
  - vm_compute. reflexivity.
Defined.

(** ** A majority fixes the allocation *)

Lemma count_le_mono (t t' : Z) (l : list Z) :
  t <= t' -> (count_le t l <= count_le t' l)%nat.
Proof.
  intros Ht. induction l as [|a l IH]; cbn [count_le]; [lia|].
  destruct (Z.leb_spec a t), (Z.leb_spec a t'); lia.
Qed.

Lemma count_le_app (t : Z) (l l' : list Z) :
  count_le t (l ++ l') = (count_le t l + count_le t l')%nat.
Proof. induction l as [|a l IH]; cbn [app count_le]; lia. Qed.

(** Among the values of the votes: those equal to [v] are not above it,
    and are not below it. *)
Lemma count_votes (votes : list Z) (v : Z) :
  let vals := map num_val (map PInt votes) in
  (count_occ Z.eq_dec votes v <= count_le (v * 2 ^ 1075) vals)%nat
  /\ (count_le (v * 2 ^ 1075 - 1) vals + count_occ Z.eq_dec votes v
      <= length votes)%nat.
Proof.
  assert (HP : 0 < 2 ^ 1075) by (apply Z.pow_pos_nonneg; lia).
  induction votes as [|z votes [IH1 IH2]]; cbn [map count_le count_occ length num_val];
    [split; lia|].
  cbn [map num_val] in IH1, IH2. cbv zeta in IH1, IH2 |- *.
  destruct (Z.eq_dec z v) as [->|Hne].
  - destruct (Z.leb_spec (v * 2 ^ 1075) (v * 2 ^ 1075)),
      (Z.leb_spec (v * 2 ^ 1075) (v * 2 ^ 1075 - 1)); split; lia.
  - destruct (Z.leb_spec (z * 2 ^ 1075) (v * 2 ^ 1075)),
      (Z.leb_spec (z * 2 ^ 1075) (v * 2 ^ 1075 - 1)); split; lia.
Qed.

(** The elements of the sorted array at the positions that [k] equal
    votes must cover. *)
Lemma majority_position (votes : list Z) (v : Z) (x a : num) (i : nat) :
  Forall small votes -> admissible x ->
  nth_error (sorted Py.lt (map PInt votes ++ [PInt 0; x])) i = Some a ->
  (length votes + 2 - count_occ Z.eq_dec votes v <= i)%nat ->
  (i < count_occ Z.eq_dec votes v)%nat ->
  admissible a /\ num_val a = v * 2 ^ 1075.
Proof.
  intros Hv Hx Ha Hlow Hhigh.
  set (l := map PInt votes ++ [PInt 0; x]) in *.
  pose proof (admissible_array _ x Hv Hx) as Hadm. fold l in Hadm.
  pose proof (sorted_by_value l Hadm) as Hs.
  assert (Ha' : nth_error (map num_val (sorted Py.lt l)) i = Some (num_val a))
    by (now rewrite nth_error_map, Ha).
  assert (Hperm : forall t, count_le t (map num_val (sorted Py.lt l))
                            = count_le t (map num_val l)).
  { intros t. apply count_le_perm, Permutation_map, sorted_perm. }
  destruct (count_votes votes v) as [C1 C2]. cbv zeta in C1, C2.
  assert (Hsplit : forall t, count_le t (map num_val l)
                    = (count_le t (map num_val (map PInt votes))
                       + count_le t (map num_val [PInt 0; x]))%nat).
  { intros t. unfold l. now rewrite map_app, count_le_app. }
  split.
  - rewrite Forall_forall in Hadm. apply Hadm.
    eapply Permutation_in; [apply sorted_perm | eapply nth_error_In, Ha].
  - apply Z.le_antisymm.
    + apply (sorted_count_nth _ i _ _ Hs Ha'). rewrite Hperm, Hsplit. lia.
    + destruct (Z_le_gt_dec (v * 2 ^ 1075) (num_val a)) as [|Hlt]; [assumption|].
      exfalso. pose proof (sorted_nth_count _ _ _ Ha' Hs) as Hc.
      pose proof (count_le_mono (num_val a) (v * 2 ^ 1075 - 1)
                                (map num_val (sorted Py.lt l)) ltac:(lia)) as Hm.
      rewrite (Hperm (v * 2 ^ 1075 - 1)), Hsplit in Hm.
      assert (count_le (v * 2 ^ 1075 - 1) (map num_val [PInt 0; x]) <= 2)%nat.
      { cbn [map count_le]. repeat destruct (_ <=? _); lia. }
      lia.
Qed.

Lemma same_value_eqb (f g : float) :
  fnonneg f -> fnonneg g -> frank f = frank g -> (f =? g)%float = true.
Proof.
  intros Hf Hg E. rewrite eqb_rank by now apply fnonneg_not_nan.
  now rewrite E, SF.lex3_refl.
Qed.

(** X14: When at least [n / 2 + 2] of the [n] citizens give a subject the same
    amount [v], the subject's allocation is [v] whatever the phantom
    value (amounts in [0, 2^52), phantom values such ints or finite
    non-negative floats). *)
Theorem majority_fixes_allocation (votes : list Z) (v : Z) (x : num) :
  Forall small votes -> admissible x ->
  (Nat.div (length votes) 2 + 2 <= count_occ Z.eq_dec votes v)%nat ->
  exists r fv,
    get_subject_allocation votes x = Ok r
    /\ float_of_int v = Ok fv
    /\ (r =? fv)%float = true.
Proof.
  intros Hv Hx Hmaj.
  assert (Hsv : small v).
  { assert (Hin : In v votes).
    { apply (count_occ_In Z.eq_dec). lia. }
    rewrite Forall_forall in Hv. now apply Hv. }
  destruct (float_of_int_small v (small_lt_2_53 v Hsv)) as (fv & Efv & Ffv & Vfv).
  unfold get_subject_allocation.
  set (l := map PInt votes ++ [PInt 0; x]).
  assert (Hlen : length (sorted Py.lt l) = (length votes + 2)%nat).
  { rewrite sorted_length. unfold l. rewrite length_app, length_map. reflexivity. }
  rewrite Hlen.
  pose proof (count_occ_bound Z.eq_dec v votes) as Hbound.
  pose proof (Nat.div_mod_eq (length votes) 2) as Hdm.
  pose proof (Nat.mod_upper_bound (length votes) 2 ltac:(lia)) as Hmod.
  replace (length votes + 2)%nat with (length votes + 1 * 2)%nat by lia.
  rewrite Nat.Div0.mod_add, Nat.div_add by lia.
  set (h := Nat.div (length votes) 2) in *.
  assert (Hmid : forall i, (h + Nat.modulo (length votes) 2 <= i <= h + 1)%nat ->
                   exists a, index (sorted Py.lt l) i = Ok a
                             /\ admissible a /\ num_val a = v * 2 ^ 1075).
  { intros i Hi.
    destruct (index_defined (sorted Py.lt l) i) as (a & Ia & Ea); [lia|].
    exists a. split; [exact Ia|].
    apply (majority_position votes v x a i Hv Hx Ea); lia. }
  destruct (Nat.eqb (Nat.modulo (length votes) 2) 1) eqn:Hodd.
  - apply Nat.eqb_eq in Hodd.
    destruct (Hmid (h + 1)%nat ltac:(lia)) as (a & Ia & Da & Va).
    rewrite Ia. cbn [bind].
    destruct (to_float_admissible a Da) as (f & Ef & Ff & Vf).
    exists f, fv. split; [exact Ef|]. split; [exact Efv|].
    apply same_value_eqb; try now apply nn_finite_nonneg.
    rewrite (frank_Rnd f Ff), (frank_Rnd fv Ffv). congruence.
  - apply Nat.eqb_neq in Hodd.
    destruct (Hmid (h + 1 - 1)%nat ltac:(lia)) as (a & Ia & Da & Va).
    destruct (Hmid (h + 1)%nat ltac:(lia)) as (b & Ib & Db & Vb).
    rewrite Ia, Ib. cbn [bind].
    destruct (mean_admissible a b Da Db) as (S & ES & HS & RS).
    exists (S / 2)%float, fv. split; [exact ES|]. split; [exact Efv|].
    rewrite Va, Vb in RS.
    unfold small in Hsv.
    destruct (float_of_int_small (2 * v)) as (g & _ & Fg & Vg).
    { assert (2 ^ 53 = 2 * 2 ^ 52) by reflexivity. lia. }
    assert (E2 : v * 2 ^ 1075 + v * 2 ^ 1075 = fval g) by (rewrite Vg; ring).
    rewrite E2, <- (frank_Rnd g Fg) in RS.
    assert (FS : nn_finite S) by (apply (finite_below S g HS Fg);
                                  rewrite RS, SF.lex3_refl; discriminate).
    assert (VS : fval S = fval g).
    { apply Exact.rank_eq_val; try now apply nn_finite_fin. exact RS. }
    apply same_value_eqb; [now apply half_nonneg | now apply nn_finite_nonneg|].
    rewrite (half_Rnd S FS), (frank_Rnd fv Ffv), VS, Vg, Vfv.
    do 2 f_equal. rewrite (Z.mul_comm 2 v), <- Z.mul_assoc, (Z.mul_comm 2).
    rewrite Z.mul_assoc. apply Z.div_mul. lia.
Qed.

Lemma majority_fixes_allocation_witness :
  exists r fv,
    get_subject_allocation [25; 25; 0; 25; 25] (PFloat 7.5) = Ok r
    /\ float_of_int 25 = Ok fv
    /\ (r =? fv)%float = true.
Proof.
  apply (majority_fixes_allocation [25; 25; 0; 25; 25] 25 (PFloat 7.5)).
  - repeat constructor; vm_compute; congruence.
  - exact I.
  - vm_compute. lia.
Defined.

(** ** No shortfall *)

(** X15: For votes in [0, 2^52): when the floors already reach the budget,
    both functions return the floors, and so the same list. *)
Theorem no_shortfall_same_output
        (total_budget : Z) (first : list Z) (rest : list (list Z))
        (floats : list float) (ints : list Z) :
  Forall (Forall small) (first :: rest) ->
  ComputeBudget.floats_of total_budget (first :: rest) (length first) = Ok floats ->
  floors floats = Ok ints ->
  total_budget <= sum ints ->
  compute_budget total_budget (first :: rest) = Ok ints
  /\ no_binary_search_compute_budget total_budget (first :: rest) = Ok ints.
Proof.
  intros Hv Hfloats Hints Hle.
  unfold compute_budget, no_binary_search_compute_budget.
  rewrite <- (floats_agree _ _ _ Hv), Hfloats. cbn [bind].
  unfold ComputeBudget.largest_remainder, NoBinarySearch.largest_remainder.
  rewrite Hints. cbn [bind].
  destruct (Z.ltb_spec 0 (total_budget - sum ints)); [lia|]. split; reflexivity.
Qed.

Lemma no_shortfall_same_output_witness :
  compute_budget 100 five_citizens = Ok [25; 25; 25; 25; 25]
  /\ no_binary_search_compute_budget 100 five_citizens = Ok [25; 25; 25; 25; 25].
Proof.
  apply (no_shortfall_same_output 100 [0; 25; 25; 25; 25]
           [[25; 0; 25; 25; 25]; [25; 25; 0; 25; 25]; [25; 25; 25; 0; 25];
            [25; 25; 25; 25; 0]] [25; 25; 25; 25; 25]%float).
  - repeat constructor; vm_compute; congruence.
  - vm_compute. reflexivity.
  - vm_compute. reflexivity.
  - vm_compute. discriminate.
Defined.

(** ** The median of the votes with 0 and x *)

(** Above 2^53 the function does not return the median.  With the sorted
    votes 2^53+1 and 2^53+3 and x = 2^53+2 the two middle elements are
    2^53+1 and x, their mean is 2^53+1.5, and the function returns 2^53,
    which is below both.  With the one vote 2^53+1 and x = 2^53+4 the
    middle element is the vote, and the function returns 2^53. *)
Lemma median_missed_above_2_53 :
  get_subject_allocation [9007199254740993; 9007199254740995]
                         (PFloat 9007199254740994)
  = Ok 9007199254740992%float
  /\ Py.lt (PFloat 9007199254740992) (PInt 9007199254740993) = true
  /\ Py.lt (PFloat 9007199254740992) (PFloat 9007199254740994) = true
  /\ get_subject_allocation [9007199254740993] (PFloat 9007199254740996)
     = Ok 9007199254740992%float
  /\ Py.eq (PFloat 9007199254740992) (PInt 9007199254740993) = false.
Proof. repeat split; vm_compute; reflexivity. Qed.

(** The specification's words, in exact arithmetic.  Amounts are counted
    in units of 2^-1075 ([num_val]): the int z is z * 2^1075 units and the
    double m * 2^e is m * 2^(e + 1075) units, so that amounts and their
    means are whole numbers of units.

    The multiset of the submissions with 0 and x: *)
Definition with_phantoms (votes : list Z) (x : num) : list Z :=
  num_val x :: 0 :: map (fun v => v * 2 ^ 1075) votes.

(** [M] is the median of the ascending sequence [s]: its middle element
    when the count is odd, the arithmetic mean of its two middle elements
    when the count is even. *)
Definition is_median (s : list Z) (M : Z) : Prop :=
  let n := length s in
  if Nat.odd n then M = nth (Nat.div n 2) s 0
  else 2 * M = nth (Nat.div n 2 - 1) s 0 + nth (Nat.div n 2) s 0.

(** The float [r] is the double nearest to the amount [M], ties to even. *)
Definition rounds_to (M : Z) (r : float) : Prop :=
  frank r = SF.rank (Exact.Rnd M).

(** The phantom values of the theorem: the admissible ones up to 2^1021. *)
Definition phantom (x : num) : Prop :=
  admissible x /\ num_val x <= 2 ^ (1021 + 1075).

Lemma mod2_odd (n : nat) : Nat.eqb (Nat.modulo n 2) 1 = Nat.odd n.
Proof.
  rewrite <- Nat.bit0_mod, Nat.bit0_odd. now destruct (Nat.odd n).
Qed.

(** *** Halving a rounded value *)

Definition plain (x : spec_float) : Prop :=
  match x with
  | S754_zero _ | S754_finite false _ _ => True
  | _ => False
  end.

Lemma rank_val_plain (x y : spec_float) :
  plain x -> plain y -> SF.rank x = SF.rank y -> Exact.sf_val x = Exact.sf_val y.
Proof.
  destruct x as [s|s| |[|] m e]; try contradiction;
    destruct y as [s'|s'| |[|] m' e']; try contradiction; cbn;
    intros _ _ H; try discriminate; try reflexivity.
  inversion H; subst. reflexivity.
Qed.

Lemma finish_value (q t : Z) :
  0 <= q <= 2 ^ 53 -> -1074 <= t -> t + 1 <= 971 ->
  Exact.sf_val (Exact.finish q t) = q * 2 ^ (t + 1075)
  /\ plain (Exact.finish q t).
Proof.
  intros Hq Ht Hle. unfold Exact.finish. destruct q as [|p|p]; [now split| |lia].
  destruct (Z.ltb_spec (Zpos p) (2 ^ 53)).
  - destruct (Z.leb_spec t 971); [now split | lia].
  - destruct (Z.leb_spec (t + 1) 971); [|lia]. split; [|exact I].
    cbn [Exact.sf_val cond_Zopp]. assert (E : Zpos p = 2 ^ 53) by lia. rewrite E.
    change (Zpos (2 ^ 52)%positive) with (2 ^ 52).
    replace (t + 1 + 1075) with (1 + (t + 1075)) by lia.
    rewrite Z.pow_add_r by lia. change (2 ^ 53) with (2 ^ 52 * 2 ^ 1). ring.
Qed.

Lemma target_bound (X : Z) : 0 < X -> X < 2 ^ 2098 -> Exact.target X + 1 <= 971.
Proof.
  intros HX Hlt. pose proof (Exact.digits_bounds X HX) as Hd.
  assert (Exact.digits X < 2099).
  { destruct (Z_lt_ge_dec (Exact.digits X) 2099) as [|Hge]; [assumption|].
    assert (2 ^ 2098 <= 2 ^ (Exact.digits X - 1)) by (apply Z.pow_le_mono_r; lia).
    lia. }
  unfold Exact.target. lia.
Qed.

Lemma Rnd_value (X : Z) :
  0 <= X -> X < 2 ^ 2098 ->
  Exact.sf_val (Exact.Rnd X)
  = div_half_even X (2 ^ (Exact.target X + 1075)) * 2 ^ (Exact.target X + 1075)
  /\ plain (Exact.Rnd X).
Proof.
  intros HX Hlt. destruct (Z.eq_dec X 0) as [->|Hne]; [now split|].
  unfold Exact.Rnd. apply finish_value.
  - apply Exact.mantissa_bounds. lia.
  - apply Exact.target_ge.
  - apply target_bound; lia.
Qed.

(** Halving commutes with rounding: the half of the double nearest to
    [2 * Y] is the double nearest to [Y]. *)
Lemma Rnd_half (Y : Z) :
  0 <= Y -> 2 * Y < 2 ^ 2098 ->
  Exact.Rnd (Exact.sf_val (Exact.Rnd (2 * Y)) / 2) = Exact.Rnd Y.
Proof.
  intros HY Hlt. destruct (Z.eq_dec Y 0) as [->|Hne]; [reflexivity|].
  assert (HX : 0 < 2 * Y) by lia.
  destruct (Rnd_value (2 * Y) ltac:(lia) Hlt) as [-> _].
  pose proof (Exact.mantissa_bounds (2 * Y) HX) as Hq.
  pose proof (Exact.target_ge (2 * Y)) as Htg.
  pose proof (target_bound (2 * Y) HX Hlt) as Htb.
  assert (Hdig : Exact.digits (2 * Y) = Exact.digits Y + 1).
  { rewrite (Z.mul_comm 2 Y). change 2 with (2 ^ 1) at 1.
    apply Exact.digits_shift; lia. }
  destruct (Z.eq_dec (Exact.target (2 * Y)) (-1074)) as [Et|Et].
  - rewrite Et. change (2 ^ (-1074 + 1075)) with 2.
    rewrite (Z.mul_comm 2 Y), Exact.div_half_even_exact by lia.
    now rewrite Z.div_mul by lia.
  - set (t := Exact.target (2 * Y)) in *.
    assert (Etx : t = Exact.digits (2 * Y) - 1128) by (unfold t, Exact.target in *; lia).
    assert (Ety : Exact.target Y = t - 1) by (unfold Exact.target; lia).
    pose proof (Exact.mantissa_normal (2 * Y) HX ltac:(fold t; lia)) as Hn.
    fold t in Hn.
    assert (Hpow : 2 ^ (t + 1075) = 2 ^ (t - 1 + 1075) * 2).
    { replace (t + 1075) with (Z.succ (t - 1 + 1075)) by lia.
      rewrite Z.pow_succ_r by lia. ring. }
    assert (Hscale : div_half_even (2 * Y) (2 ^ (t + 1075))
                     = div_half_even Y (2 ^ (t - 1 + 1075))).
    { rewrite (Z.mul_comm 2 Y), Hpow.
      apply Exact.div_half_even_scale; [apply Z.pow_pos_nonneg|]; lia. }
    unfold Exact.Rnd at 2. rewrite Ety, <- Hscale.
    set (q := div_half_even (2 * Y) (2 ^ (t + 1075))) in *.
    assert (Ehalf : q * 2 ^ (t + 1075) / 2 = q * 2 ^ (t - 1 + 1075)).
    { rewrite Hpow, Z.mul_assoc. apply Z.div_mul. lia. }
    rewrite Ehalf. destruct q as [|p|p] eqn:Eq; try lia.
    unfold Exact.finish. destruct (Z.ltb_spec (Zpos p) (2 ^ 53)) as [Hlt53|Hge53].
    + destruct (Z.leb_spec (t - 1) 971); [|lia].
      apply Exact.Rnd_exact; [|lia].
      rewrite (Exact.digits_unique (Zpos p) 53); lia.
    + destruct (Z.leb_spec (t - 1 + 1) 971); [|lia].
      assert (Ep : Zpos p = 2 ^ 53) by lia. rewrite Ep.
      replace (t - 1 + 1) with t by lia.
      replace (2 ^ 53 * 2 ^ (t - 1 + 1075))
        with (Zpos (2 ^ 52)%positive * 2 ^ (t + 1075)).
      * apply Exact.Rnd_exact; [|lia].
        change (Exact.digits (Zpos (2 ^ 52)%positive)) with 53. lia.
      * change (Zpos (2 ^ 52)%positive) with (2 ^ 52).
        change (2 ^ 53) with (2 ^ 52 * 2). rewrite Hpow. ring.
Qed.

(** Amounts are even numbers of units. *)
Lemma num_val_even (a : num) : admissible a -> exists h, num_val a = 2 * h.
Proof.
  destruct a as [z|f]; cbn [admissible num_val]; intros Ha.
  - exists (z * 2 ^ 1074). change (2 ^ 1075) with (2 * 2 ^ 1074). ring.
  - pose proof (nn_finite_fin f Ha) as Hfin. unfold fval, nn_finite in *.
    destruct (Prim2SF f) as [s|s| |[|] m e]; try contradiction.
    + exists 0. reflexivity.
    + pose proof (Exact.fin_nonneg_exp _ _ Hfin) as He.
      exists (Zpos m * 2 ^ (e + 1074)). cbn [Exact.sf_val cond_Zopp].
      replace (e + 1075) with (Z.succ (e + 1074)) by lia.
      rewrite Z.pow_succ_r by lia. ring.
Qed.

(** *** The array of the function and the ascending sequence *)

Lemma num_val_ints (votes : list Z) :
  map num_val (map PInt votes) = map (fun v => v * 2 ^ 1075) votes.
Proof. rewrite map_map. reflexivity. Qed.

Lemma array_values (votes : list Z) (x : num) (s : list Z) :
  Forall small votes -> admissible x ->
  Permutation s (with_phantoms votes x) -> StronglySorted Z.le s ->
  map num_val (sorted Py.lt (map PInt votes ++ [PInt 0; x])) = s.
Proof.
  intros Hv Hx Hp Hs.
  apply ascending_unique; [|exact Hs|].
  - apply sorted_by_value. now apply admissible_array.
  - rewrite (Permutation_map num_val (sorted_perm Py.lt _)).
    rewrite map_app, num_val_ints. cbn [map num_val].
    rewrite Hp. unfold with_phantoms. change (0 * 2 ^ 1075) with 0.
    rewrite Permutation_app_comm. cbn [app].
    apply perm_swap.
Qed.

Lemma phantom_array (votes : list Z) (x a : num) (k : nat) :
  Forall small votes -> phantom x ->
  nth_error (sorted Py.lt (map PInt votes ++ [PInt 0; x])) k = Some a ->
  phantom a.
Proof.
  intros Hv Hx Ha. apply nth_error_In in Ha.
  apply (Permutation_in _ (sorted_perm Py.lt _)) in Ha.
  assert (Hsmall : forall z, small z -> phantom (PInt z)).
  { intros z Hz. split; [exact Hz|]. cbn [num_val]. unfold small in Hz.
    replace (2 ^ (1021 + 1075)) with (2 ^ 1021 * 2 ^ 1075)
      by (rewrite <- Z.pow_add_r; lia).
    apply Z.mul_le_mono_nonneg_r; [apply Z.pow_nonneg; lia|].
    assert (2 ^ 52 <= 2 ^ 1021) by (apply Z.pow_le_mono_r; lia). lia. }
  apply in_app_or in Ha. destruct Ha as [Ha|[<-|[<-|[]]]].
  - apply in_map_iff in Ha. destruct Ha as (v & <- & Hin).
    rewrite Forall_forall in Hv. now apply Hsmall, Hv.
  - apply Hsmall. split; [lia | reflexivity].
  - exact Hx.
Qed.

(** C5, amended: for votes in [0, 2^52) and a phantom value that is such
    an int or a non-negative float up to 2^1021, [get_subject_allocation]
    returns a finite float [r] which is the median [M] of the ascending
    sequence of the votes with 0 and x, rounded to the nearest double:
    for an odd count [r] is the middle element itself, for an even count
    it is the double nearest to the arithmetic mean of the two middle
    elements, and the mean itself whenever the mean is a double.  The votes
    need not be sorted. *)
Theorem allocation_is_rounded_median (votes : list Z) (x : num) (s : list Z) :
  Forall small votes -> phantom x ->
  Permutation s (with_phantoms votes x) -> StronglySorted Z.le s ->
  exists r M,
    get_subject_allocation votes x = Ok r
    /\ is_median s M
    /\ nn_finite r
    /\ rounds_to M r
    /\ (Nat.odd (length s) = true -> fval r = M)
    /\ (forall g, nn_finite g -> fval g = M -> fval r = M).
Proof.
  intros Hv [Hx Hxb] Hp Hs.
  pose proof (array_values votes x s Hv Hx Hp Hs) as Harr.
  pose proof (phantom_array votes x) as Hph.
  unfold get_subject_allocation, is_median, rounds_to.
  set (arr := sorted Py.lt (map PInt votes ++ [PInt 0; x])) in *.
  assert (Hlen : length s = length arr) by (now rewrite <- Harr, length_map).
  assert (Hn2 : (2 <= length arr)%nat).
  { unfold arr. rewrite sorted_length, length_app. cbn. lia. }
  assert (Hnth : forall k a, nth_error arr k = Some a -> nth k s 0 = num_val a).
  { intros k a Ha. rewrite <- Harr. apply nth_error_nth.
    now rewrite nth_error_map, Ha. }
  assert (Hexact : forall (r : float) M,
             nn_finite r -> frank r = SF.rank (Exact.Rnd M) ->
             forall g, nn_finite g -> fval g = M -> fval r = M).
  { intros r M Fr Rr g Fg Vg. rewrite <- Vg in Rr |- *.
    rewrite <- (frank_Rnd g Fg) in Rr.
    apply Exact.rank_eq_val; try now apply nn_finite_fin. exact Rr. }
  rewrite Hlen. cbv zeta. set (n := length arr) in *.
  assert (Hhalf : (Nat.div n 2 < n)%nat) by (apply Nat.div_lt; lia).
  rewrite mod2_odd. destruct (Nat.odd n).
  - destruct (index_defined arr (Nat.div n 2) Hhalf) as (a & Ia & Ea).
    destruct (Hph a _ Hv (conj Hx Hxb) Ea) as [Da _].
    destruct (to_float_admissible a Da) as (f & Ef & Ff & Vf).
    exists f, (num_val a). rewrite Ia. cbn [bind].
    split; [exact Ef|]. split; [symmetry; now apply Hnth|]. split; [exact Ff|].
    split; [rewrite <- Vf; now apply frank_Rnd|].
    split; [intros _; exact Vf | intros g _ _; exact Vf].
  - destruct (index_defined arr (Nat.div n 2 - 1)) as (a & Ia & Ea); [lia|].
    destruct (index_defined arr (Nat.div n 2) Hhalf) as (b & Ib & Eb).
    destruct (Hph a _ Hv (conj Hx Hxb) Ea) as [Da Ba].
    destruct (Hph b _ Hv (conj Hx Hxb) Eb) as [Db Bb].
    destruct (mean_admissible a b Da Db) as (S & ES & HS & RS).
    destruct (num_val_even a Da) as (ha & Eha).
    destruct (num_val_even b Db) as (hb & Ehb).
    pose proof (num_val_nonneg a Da) as Pa. pose proof (num_val_nonneg b Db) as Pb.
    set (M := ha + hb).
    assert (EM : num_val a + num_val b = 2 * M) by (unfold M; lia).
    assert (Hpow : 2 ^ (1022 + 1075) = 2 * 2 ^ (1021 + 1075)).
    { change (1022 + 1075) with (Z.succ (1021 + 1075)). now rewrite Z.pow_succ_r. }
    assert (Hlt : 2 ^ (1022 + 1075) < 2 ^ 2098) by (apply Z.pow_lt_mono_r; lia).
    rewrite EM in RS.
    destruct (rank_bounded S (2 * M) 1022 HS RS) as [FS _]; [lia | lia|].
    destruct (Rnd_value (2 * M)) as [_ Hplain]; [lia | lia|].
    assert (VS : fval S = Exact.sf_val (Exact.Rnd (2 * M))).
    { apply rank_val_plain; [exact FS | exact Hplain | exact RS]. }
    assert (RH : frank (S / 2)%float = SF.rank (Exact.Rnd M)).
    { rewrite (half_Rnd S FS), VS, Rnd_half by lia. reflexivity. }
    destruct (rank_bounded (S / 2)%float M 1022) as [FH _]; try lia.
    { now apply half_nonneg. }
    { exact RH. }
    exists (S / 2)%float, M. rewrite Ia, Ib. cbn [bind].
    split; [exact ES|]. split.
    { rewrite (Hnth _ _ Ea), (Hnth _ _ Eb). lia. }
    split; [exact FH|]. split; [exact RH|].
    split; [discriminate | now apply Hexact].
Qed.

(** The theorem at work: votes 3 and 5 with x = 4 (the mean 3.5 of the
    middle elements 3 and 4), and votes 2, 3, 5 with x = 4 (the middle
    element 3). *)
Lemma allocation_is_rounded_median_witness :
  (exists r M,
      get_subject_allocation [3; 5] (PFloat 4) = Ok r
      /\ is_median [0; 3 * 2 ^ 1075; 4 * 2 ^ 1075; 5 * 2 ^ 1075] M
      /\ nn_finite r
      /\ rounds_to M r
      /\ (Nat.odd 4 = true -> fval r = M)
      /\ (forall g, nn_finite g -> fval g = M -> fval r = M))
  /\ get_subject_allocation [3; 5] (PFloat 4) = Ok 3.5%float
  /\ fval 3.5 = 7 * 2 ^ 1074
  /\ get_subject_allocation [2; 3; 5] (PFloat 4) = Ok 3%float.
Proof.
  split; [|repeat split; vm_compute; reflexivity].
  apply (allocation_is_rounded_median [3; 5] (PFloat 4)
           [0; 3 * 2 ^ 1075; 4 * 2 ^ 1075; 5 * 2 ^ 1075]).
  - repeat constructor; vm_compute; congruence.
  - split; [exact I | vm_compute; discriminate].
  - change (with_phantoms [3; 5] (PFloat 4))
      with [4 * 2 ^ 1075; 0; 3 * 2 ^ 1075; 5 * 2 ^ 1075].
    apply Permutation_sym.
    apply (Permutation_cons_app [0; 3 * 2 ^ 1075] [5 * 2 ^ 1075] (4 * 2 ^ 1075)).
    apply Permutation_refl.
  - repeat constructor; vm_compute; discriminate.
Defined.
